(** * LUMA / LatBo: the per-level lattice-Boltzmann kernel

    A shallow embedding of [src/LatBo/src/GridObj_ops_lbm.cpp]: the
    multi-grid driver [GridObj::LBM_multi], the forcing pass
    [LBM_forcegrid], BGK and MRT collision, streaming, macroscopic
    recovery with running time-averages, and the refinement coupling
    [LBM_explode] / [LBM_coalesce]; with it the time loop of [main]
    ([src/LatBo/src/main_lbm.cpp]) that calls the driver, and the marker
    search of a body ([getMarkerData], [isVoxelMarkerVoxel] of
    [src/LUMA/inc/Body.h]).

    Numbers.  The C++ [double] is modelled by the canonical rationals [Qc]:
    arithmetic is exact, equality is Leibniz equality and the test [x == 0]
    is decidable.  Rounding is outside the model.

    Arrays.  [IVector<T>] (IVector.h is not part of the sources at hand) is
    modelled as a total map from the multi-index the accessor is called
    with to the stored value; an assignment through the accessor is a
    point-wise update [<[ idx := x ]>].

    Layout: the model comes first, the lemmas and theorems follow. *)

From Stdlib Require Import ZArith QArith Qcanon List Lia Bool.
From stdpp Require Import base functions numbers list.
Import ListNotations.

Open Scope Z_scope.

(** ** Numbers *)

(** [(double) z] for an integer [z]. *)
Definition Z2Qc (z : Z) : Qc := Q2Qc (inject_Z z).

(** [pow(2, n)] for an [int] exponent. *)
Definition pow2 (n : Z) : Qc :=
  if n <? 0 then (/ (Qcpower (Z2Qc 2) (Z.to_nat (- n))))%Qc
  else Qcpower (Z2Qc 2) (Z.to_nat n).

(** ** Arrays *)

(** A lattice site [(i,j,k)]. *)
Abbreviation Site := (Z * Z * Z)%type (only parsing).

(** [IVector] addressed by site, and by site and one more index (a
    direction [v], a dimension [d] or a product counter). *)
Abbreviation IVector3 T := (Z * Z * Z -> T) (only parsing).
Abbreviation IVector4 T := (Z * Z * Z * nat -> T) (only parsing).

(** A vector [IVector<double>(size, 0.0)]. *)
Definition zeros4 : IVector4 Qc := fun _ => 0%Qc.

(** ** Loops *)

(** [for (a : l) s = body(a, s)]. *)
Definition for_each {A S : Type} (l : list A) (body : A -> S -> S) (s : S) : S :=
  fold_left (fun s a => body a s) l s.

(** The indices [0 .. n-1] of a [for (int i = 0; i < n; i++)] loop. *)
Definition zrange (n : Z) : list Z :=
  map Z.of_nat (seq 0 (Z.to_nat n)).

(** The indices [lo .. hi] of a [for (size_t i = lo; i <= hi; i++)] loop. *)
Definition zrange_incl (lo hi : Z) : list Z :=
  map (fun n => lo + Z.of_nat n) (seq 0 (Z.to_nat (hi - lo + 1))).

(** The three nested loops over the sites of a grid of extent [N*M*K],
    [i] outermost and [k] innermost. *)
Definition for_sites {S : Type} (N M K : Z) (body : Z -> Z -> Z -> S -> S) : S -> S :=
  for_each (zrange N) (fun i =>
    for_each (zrange M) (fun j =>
      for_each (zrange K) (fun k => body i j k))).

(** The three nested loops over the coarse bounding box of a region. *)
Definition for_region {S : Type} (X Y Zl : Z * Z) (body : Z -> Z -> Z -> S -> S) : S -> S :=
  for_each (zrange_incl (fst X) (snd X)) (fun i =>
    for_each (zrange_incl (fst Y) (snd Y)) (fun j =>
      for_each (zrange_incl (fst Zl) (snd Zl)) (fun k => body i j k))).

(** The same site sets as flat lists, in loop order. *)
Definition sites (N M K : Z) : list Site :=
  i ← zrange N; j ← zrange M; k ← zrange K; [(i, j, k)].

Definition region_sites (X Y Zl : Z * Z) : list Site :=
  i ← zrange_incl (fst X) (snd X);
  j ← zrange_incl (fst Y) (snd Y);
  k ← zrange_incl (fst Zl) (snd Zl); [(i, j, k)].

(** [acc = 0; for (d = 0; d < n; d++) acc += term(d);] *)
Definition sum_upto (n : nat) (term : nat -> Qc) : Qc :=
  for_each (seq 0 n) (fun d acc => (acc + term d)%Qc) 0%Qc.

(** ** Compile-time constants *)

(** The velocity set and the tables that come with it (globalvars.h and
    GridUtils are not part of the sources at hand; they are parameters of
    the model).  [c d v] is [c[d][v]] and always has the three rows
    [d = 0, 1, 2]. *)
Record VelSet : Type := {
  dims : nat;
  nVels : nat;
  c : nat -> nat -> Z;
  w : nat -> Qc;
  cs : Qc;
  getOpposite : nat -> nat;
  mMRT : nat -> nat -> Qc;
  mInvMRT : nat -> nat -> Qc
}.

(** The preprocessor switches of definitions.h that the kernel tests, and
    the constants [NumLev], [grav_direction], [grav_force]. *)
Record Config : Type := {
  NumLev : Z;
  USE_MRT : bool;
  PERIODIC_BOUNDARIES : bool;
  BUILD_FOR_MPI : bool;
  IBM_ON : bool;
  INLET_ON : bool;
  INLET_DO_NOTHING : bool;
  INLET_REGULARISED : bool;
  OUTLET_ON : bool;
  SOLID_BLOCK_ON : bool;
  WALLS_ON : bool;
  BFL_ON : bool;
  GRAVITY_ON : bool;
  grav_direction : nat;
  grav_force : Qc
}.

(** ** Site types (the values stored in [LatTyp]) *)

Definition Solid : Z := 0.
Definition Fluid : Z := 1.
Definition CoveredByFiner : Z := 2.
Definition TransitionReceiveFromFiner : Z := 3.
Definition TransitionToCoarser : Z := 4.
Definition SolidVariant : Z := 5.
Definition DoNothingInlet : Z := 7.

(** ** One grid level *)

(** The members of [GridObj] the kernel touches, [subGrid] apart (the
    hierarchy is kept separately, see [GridTree]).  [N_lim], [M_lim],
    [K_lim] are [XPos.size()], [YPos.size()], [ZPos.size()]. *)
Record GridObj : Type := {
  level : Z;
  region_number : Z;
  t : Z;
  N_lim : Z;
  M_lim : Z;
  K_lim : Z;
  CoarseLimsX : Z * Z;
  CoarseLimsY : Z * Z;
  CoarseLimsZ : Z * Z;
  omega : Qc;
  mrt_omega : nat -> Qc;
  LatTyp : IVector3 Z;
  f : IVector4 Qc;
  feq : IVector4 Qc;
  force_i : IVector4 Qc;
  force_xyz : IVector4 Qc;
  rho : IVector3 Qc;
  u : IVector4 Qc;
  rho_timeav : IVector3 Qc;
  ui_timeav : IVector4 Qc;
  uiuj_timeav : IVector4 Qc
}.

(** Assignment to one member. *)
Definition set_t (x : Z) (g : GridObj) : GridObj :=
  {| level := level g; region_number := region_number g; t := x;
     N_lim := N_lim g; M_lim := M_lim g; K_lim := K_lim g;
     CoarseLimsX := CoarseLimsX g; CoarseLimsY := CoarseLimsY g;
     CoarseLimsZ := CoarseLimsZ g; omega := omega g; mrt_omega := mrt_omega g;
     LatTyp := LatTyp g; f := f g; feq := feq g; force_i := force_i g;
     force_xyz := force_xyz g; rho := rho g; u := u g;
     rho_timeav := rho_timeav g; ui_timeav := ui_timeav g;
     uiuj_timeav := uiuj_timeav g |}.

Definition set_f (x : IVector4 Qc) (g : GridObj) : GridObj :=
  {| level := level g; region_number := region_number g; t := t g;
     N_lim := N_lim g; M_lim := M_lim g; K_lim := K_lim g;
     CoarseLimsX := CoarseLimsX g; CoarseLimsY := CoarseLimsY g;
     CoarseLimsZ := CoarseLimsZ g; omega := omega g; mrt_omega := mrt_omega g;
     LatTyp := LatTyp g; f := x; feq := feq g; force_i := force_i g;
     force_xyz := force_xyz g; rho := rho g; u := u g;
     rho_timeav := rho_timeav g; ui_timeav := ui_timeav g;
     uiuj_timeav := uiuj_timeav g |}.

Definition set_feq (x : IVector4 Qc) (g : GridObj) : GridObj :=
  {| level := level g; region_number := region_number g; t := t g;
     N_lim := N_lim g; M_lim := M_lim g; K_lim := K_lim g;
     CoarseLimsX := CoarseLimsX g; CoarseLimsY := CoarseLimsY g;
     CoarseLimsZ := CoarseLimsZ g; omega := omega g; mrt_omega := mrt_omega g;
     LatTyp := LatTyp g; f := f g; feq := x; force_i := force_i g;
     force_xyz := force_xyz g; rho := rho g; u := u g;
     rho_timeav := rho_timeav g; ui_timeav := ui_timeav g;
     uiuj_timeav := uiuj_timeav g |}.

Definition set_force_i (x : IVector4 Qc) (g : GridObj) : GridObj :=
  {| level := level g; region_number := region_number g; t := t g;
     N_lim := N_lim g; M_lim := M_lim g; K_lim := K_lim g;
     CoarseLimsX := CoarseLimsX g; CoarseLimsY := CoarseLimsY g;
     CoarseLimsZ := CoarseLimsZ g; omega := omega g; mrt_omega := mrt_omega g;
     LatTyp := LatTyp g; f := f g; feq := feq g; force_i := x;
     force_xyz := force_xyz g; rho := rho g; u := u g;
     rho_timeav := rho_timeav g; ui_timeav := ui_timeav g;
     uiuj_timeav := uiuj_timeav g |}.

Definition set_force_xyz (x : IVector4 Qc) (g : GridObj) : GridObj :=
  {| level := level g; region_number := region_number g; t := t g;
     N_lim := N_lim g; M_lim := M_lim g; K_lim := K_lim g;
     CoarseLimsX := CoarseLimsX g; CoarseLimsY := CoarseLimsY g;
     CoarseLimsZ := CoarseLimsZ g; omega := omega g; mrt_omega := mrt_omega g;
     LatTyp := LatTyp g; f := f g; feq := feq g; force_i := force_i g;
     force_xyz := x; rho := rho g; u := u g;
     rho_timeav := rho_timeav g; ui_timeav := ui_timeav g;
     uiuj_timeav := uiuj_timeav g |}.

Definition set_rho (x : IVector3 Qc) (g : GridObj) : GridObj :=
  {| level := level g; region_number := region_number g; t := t g;
     N_lim := N_lim g; M_lim := M_lim g; K_lim := K_lim g;
     CoarseLimsX := CoarseLimsX g; CoarseLimsY := CoarseLimsY g;
     CoarseLimsZ := CoarseLimsZ g; omega := omega g; mrt_omega := mrt_omega g;
     LatTyp := LatTyp g; f := f g; feq := feq g; force_i := force_i g;
     force_xyz := force_xyz g; rho := x; u := u g;
     rho_timeav := rho_timeav g; ui_timeav := ui_timeav g;
     uiuj_timeav := uiuj_timeav g |}.

Definition set_u (x : IVector4 Qc) (g : GridObj) : GridObj :=
  {| level := level g; region_number := region_number g; t := t g;
     N_lim := N_lim g; M_lim := M_lim g; K_lim := K_lim g;
     CoarseLimsX := CoarseLimsX g; CoarseLimsY := CoarseLimsY g;
     CoarseLimsZ := CoarseLimsZ g; omega := omega g; mrt_omega := mrt_omega g;
     LatTyp := LatTyp g; f := f g; feq := feq g; force_i := force_i g;
     force_xyz := force_xyz g; rho := rho g; u := x;
     rho_timeav := rho_timeav g; ui_timeav := ui_timeav g;
     uiuj_timeav := uiuj_timeav g |}.

Definition set_rho_timeav (x : IVector3 Qc) (g : GridObj) : GridObj :=
  {| level := level g; region_number := region_number g; t := t g;
     N_lim := N_lim g; M_lim := M_lim g; K_lim := K_lim g;
     CoarseLimsX := CoarseLimsX g; CoarseLimsY := CoarseLimsY g;
     CoarseLimsZ := CoarseLimsZ g; omega := omega g; mrt_omega := mrt_omega g;
     LatTyp := LatTyp g; f := f g; feq := feq g; force_i := force_i g;
     force_xyz := force_xyz g; rho := rho g; u := u g;
     rho_timeav := x; ui_timeav := ui_timeav g;
     uiuj_timeav := uiuj_timeav g |}.

Definition set_ui_timeav (x : IVector4 Qc) (g : GridObj) : GridObj :=
  {| level := level g; region_number := region_number g; t := t g;
     N_lim := N_lim g; M_lim := M_lim g; K_lim := K_lim g;
     CoarseLimsX := CoarseLimsX g; CoarseLimsY := CoarseLimsY g;
     CoarseLimsZ := CoarseLimsZ g; omega := omega g; mrt_omega := mrt_omega g;
     LatTyp := LatTyp g; f := f g; feq := feq g; force_i := force_i g;
     force_xyz := force_xyz g; rho := rho g; u := u g;
     rho_timeav := rho_timeav g; ui_timeav := x;
     uiuj_timeav := uiuj_timeav g |}.

Definition set_uiuj_timeav (x : IVector4 Qc) (g : GridObj) : GridObj :=
  {| level := level g; region_number := region_number g; t := t g;
     N_lim := N_lim g; M_lim := M_lim g; K_lim := K_lim g;
     CoarseLimsX := CoarseLimsX g; CoarseLimsY := CoarseLimsY g;
     CoarseLimsZ := CoarseLimsZ g; omega := omega g; mrt_omega := mrt_omega g;
     LatTyp := LatTyp g; f := f g; feq := feq g; force_i := force_i g;
     force_xyz := force_xyz g; rho := rho g; u := u g;
     rho_timeav := rho_timeav g; ui_timeav := ui_timeav g;
     uiuj_timeav := x |}.

(** ** External collaborators *)

(** The boundary-condition passes, the immersed-boundary manager, the
    halo exchange and the layer predicates of [GridUtils] live in other
    files; the kernel only calls them.  [LBM_boundary n] is
    [GridObj::LBM_boundary(n)]; the three predicates are queried for a
    site of a grid. *)
Record External : Type := {
  LBM_boundary : Z -> GridObj -> GridObj;
  ibm_apply : GridObj -> GridObj;
  ibm_move_bodies : GridObj -> GridObj;
  mpi_communicate : GridObj -> GridObj;
  isOnRecvLayer : GridObj -> Site -> bool;
  isOnSenderLayer : GridObj -> Site -> bool;
  isOverlapPeriodic : GridObj -> Site -> bool
}.

(** Modelled from the spec: [GridUtils::getFineIndices] is not part of the
    sources at hand.  The refinement ratio is exactly 2 along every axis
    and a coarse cell covers 2^dims fine siblings, so the first sibling of
    coarse cell [i], in a region that starts at [x_start], has index
    [2 * (i - x_start)] on the fine grid. *)
Definition getFineIndices (i x_start j y_start k z_start : Z) : Site :=
  (2 * (i - x_start), 2 * (j - y_start), 2 * (k - z_start)).

(** The literal [0.5]. *)
Definition half : Qc := Q2Qc (1 # 2).

(** ** The hierarchy and the runs of the driver *)

(** The hierarchy.  [subGrid] is by value in the source, so the grids form
    a finite tree; it is static during a run.  The tree carries the shape,
    and the grid data sit in a store addressed by the path of region
    numbers from the root (the source reaches the same objects through
    [subGrid[reg]] and through [GridUtils::getGrid(MpiManager::Grids,
    level+1, RegionNumber, fGrid)]). *)
#[local] Unset Elimination Schemes.
Inductive GridTree : Type :=
  Node (subGrid : list GridTree).
#[local] Set Elimination Schemes.

Abbreviation Path := (list nat) (only parsing).
Abbreviation Grids := (list nat -> GridObj) (only parsing).

(** The kernel operations whose order the driver fixes; a run records
    them, with the path of the grid they were called on. *)
Inductive Op : Type :=
  | OpCollide
  | OpExplode (reg : nat)
  | OpStream
  | OpCoalesce (reg : nat)
  | OpMacro.

Abbreviation Event := (list nat * Op)%type (only parsing).

(** The state of a run: the grids and the operations performed so far. *)
Abbreviation Run := ((list nat -> GridObj) * list (list nat * Op))%type (only parsing).

Section Kernel.

Variable vs : VelSet.
Variable cfg : Config.
Variable ext : External.

(** ** Forcing: [GridObj::LBM_forcegrid] *)

(** One trip of the direction loop at site [(i,j,k)]. *)
Definition forcegrid_dir (i j k : Z) (v : nat) (g : GridObj) : GridObj :=
  if negb (LatTyp g (i, j, k) =? 0) then
    let lambda_v := ((1 - half * omega g) * (w vs v / cs vs ^ 2))%Qc in
    let beta_v :=
      for_each (seq 0 (dims vs))
        (fun d beta_v => (beta_v + Z2Qc (c vs d v) * u g (i, j, k, d))%Qc) 0%Qc in
    let beta_v := (beta_v * (1 / cs vs ^ 2))%Qc in
    let g :=
      for_each (seq 0 (dims vs))
        (fun d g =>
           set_force_i
             (<[ (i, j, k, v) :=
                  (force_i g (i, j, k, v)
                   + force_xyz g (i, j, k, d)
                     * (Z2Qc (c vs d v) * (1 + beta_v) - u g (i, j, k, d)))%Qc ]>
                (force_i g)) g) g in
    set_force_i
      (<[ (i, j, k, v) := (force_i g (i, j, k, v) * lambda_v)%Qc ]> (force_i g)) g
  else g.

Definition forcegrid_site (i j k : Z) (g : GridObj) : GridObj :=
  let g :=
    if GRAVITY_ON cfg then
      set_force_xyz
        (<[ (i, j, k, grav_direction cfg) :=
             (force_xyz g (i, j, k, grav_direction cfg)
              + rho g (i, j, k) * grav_force cfg)%Qc ]> (force_xyz g)) g
    else g in
  for_each (seq 0 (nVels vs)) (forcegrid_dir i j k) g.

Definition LBM_forcegrid (reset_flag : bool) (g : GridObj) : GridObj :=
  if reset_flag then
    set_force_xyz zeros4 (set_force_i zeros4 g)
  else
    for_sites (N_lim g) (M_lim g) (K_lim g) forcegrid_site g.

(** ** Equilibrium: the overload [GridObj::LBM_collide(i, j, k, v)] *)

Definition LBM_collide_feq (g : GridObj) (i j k : Z) (v : nat) : Qc :=
  let cv d := Z2Qc (c vs d v) in
  let ud d := u g (i, j, k, d) in
  let A :=
    if (dims vs =? 3)%nat then
      (cv 0%nat * ud 0%nat + cv 1%nat * ud 1%nat + cv 2%nat * ud 2%nat)%Qc
    else
      (cv 0%nat * ud 0%nat + cv 1%nat * ud 1%nat)%Qc in
  let B :=
    if (dims vs =? 3)%nat then
      ((cv 0%nat ^ 2 - cs vs ^ 2) * ud 0%nat ^ 2 +
       (cv 1%nat ^ 2 - cs vs ^ 2) * ud 1%nat ^ 2 +
       (cv 2%nat ^ 2 - cs vs ^ 2) * ud 2%nat ^ 2 +
       Z2Qc 2 * cv 0%nat * cv 1%nat * ud 0%nat * ud 1%nat +
       Z2Qc 2 * cv 0%nat * cv 2%nat * ud 0%nat * ud 2%nat +
       Z2Qc 2 * cv 1%nat * cv 2%nat * ud 1%nat * ud 2%nat)%Qc
    else
      ((cv 0%nat ^ 2 - cs vs ^ 2) * ud 0%nat ^ 2 +
       (cv 1%nat ^ 2 - cs vs ^ 2) * ud 1%nat ^ 2 +
       Z2Qc 2 * cv 0%nat * cv 1%nat * ud 0%nat * ud 1%nat)%Qc in
  (rho g (i, j, k) * w vs v * (1 + A / cs vs ^ 2 + B / (Z2Qc 2 * cs vs ^ 4)))%Qc.

(** The equilibrium as the specification writes it:
    [feq_v = rho w_v (1 + A/cs^2 + B/(2 cs^4))], [A = c_v . u],
    [B = sum over a, b of (c_va c_vb - cs^2 delta_ab) u_a u_b]. *)
Definition feq_spec (rho_ : Qc) (u_ : nat -> Qc) (v : nat) : Qc :=
  let A := sum_upto (dims vs) (fun a => (Z2Qc (c vs a v) * u_ a)%Qc) in
  let B :=
    sum_upto (dims vs) (fun a =>
      sum_upto (dims vs) (fun b =>
        ((Z2Qc (c vs a v) * Z2Qc (c vs b v)
          - (if (a =? b)%nat then cs vs ^ 2 else 0)) * u_ a * u_ b)%Qc)) in
  (rho_ * w vs v * (1 + A / cs vs ^ 2 + B / (Z2Qc 2 * cs vs ^ 4)))%Qc.

(** ** Collision: [GridObj::LBM_mrt_collide] and [GridObj::LBM_collide] *)

(** The state of the collision sweep: the grid (whose [feq] member is
    written) and the local [f_new]. *)
Definition CollideState : Type := GridObj * IVector4 Qc.

(** [feq(i,j,k,v) = LBM_collide(i,j,k,v)]. *)
Definition update_feq (i j k : Z) (v : nat) (g : GridObj) : GridObj :=
  set_feq (<[ (i, j, k, v) := LBM_collide_feq g i j k v ]> (feq g)) g.

Definition LBM_mrt_collide (i j k : Z) (s : CollideState) : CollideState :=
  if USE_MRT cfg then
    let '(g, f_new) := s in
    let m : nat -> Qc := fun _ => 0%Qc in
    let meq : nat -> Qc := m in
    let g := for_each (seq 0 (nVels vs)) (update_feq i j k) g in
    let '(m, meq) :=
      for_each (seq 0 (nVels vs)) (fun p =>
        for_each (seq 0 (nVels vs)) (fun q '(m, meq) =>
          (<[ p := (m p + mMRT vs p q * f g (i, j, k, q))%Qc ]> m,
           <[ p := (meq p + mMRT vs p q * feq g (i, j, k, q))%Qc ]> meq)))
        (m, meq) in
    let m :=
      for_each (seq 0 (nVels vs)) (fun q m =>
        let mtmp := (m q - mrt_omega g q * (m q - meq q))%Qc in
        <[ q := mtmp ]> m) m in
    let f_new :=
      for_each (seq 0 (nVels vs)) (fun p f_new =>
        let ftmp :=
          for_each (seq 0 (nVels vs))
            (fun q ftmp => (ftmp + mInvMRT vs p q * m q)%Qc) 0%Qc in
        <[ (i, j, k, p) := ftmp ]> f_new) f_new in
    (g, f_new)
  else s.

(** One trip of the BGK direction loop. *)
Definition collide_dir (i j k : Z) (v : nat) (s : CollideState) : CollideState :=
  let '(g, f_new) := s in
  let g := update_feq i j k v g in
  (g,
   <[ (i, j, k, v) :=
        (- omega g * (f g (i, j, k, v) - feq g (i, j, k, v))
         + f g (i, j, k, v)
         + force_i g (i, j, k, v))%Qc ]> f_new).

Definition collide_site (i j k : Z) (s : CollideState) : CollideState :=
  if (LatTyp (fst s) (i, j, k) =? 2) || (LatTyp (fst s) (i, j, k) =? 3) then
    s
  else if USE_MRT cfg then
    LBM_mrt_collide i j k s
  else
    for_each (seq 0 (nVels vs)) (collide_dir i j k) s.

Definition LBM_collide (g : GridObj) : GridObj :=
  let f_new := f g in
  let '(g, f_new) :=
    for_sites (N_lim g) (M_lim g) (K_lim g) collide_site (g, f_new) in
  set_f f_new g.

(** ** Streaming: [GridObj::LBM_stream] *)

(** A loop over directions whose body may [break]: the body returns
    [None] for [break] and the new state otherwise ([continue] and the
    normal end of a trip are the same here). *)
Fixpoint for_break {S : Type} (l : list nat) (body : nat -> S -> option S) (s : S) : S :=
  match l with
  | [] => s
  | v :: l' =>
      match body v s with
      | None => s
      | Some s' => for_break l' body s'
      end
  end.

(** The off-grid test; the [z] clause is compiled in for [dims == 3] only. *)
Definition off_grid (g : GridObj) (dest_x dest_y dest_z : Z) : bool :=
  ((N_lim g <=? dest_x) || (dest_x <? 0))
  || ((M_lim g <=? dest_y) || (dest_y <? 0))
  || ((dims vs =? 3)%nat && ((K_lim g <=? dest_z) || (dest_z <? 0))).

(** One trip of the direction loop at source site [(i,j,k)]; [g] is the
    grid before the sweep, [f_new] the buffer being filled.  The integer
    [%] of C++ is [Z.rem]. *)
Definition stream_dir (g : GridObj) (i j k : Z) (v : nat) (f_new : IVector4 Qc)
  : option (IVector4 Qc) :=
  let v_opp := getOpposite vs v in
  if LatTyp g (i, j, k) =? 2 then
    None
  else if INLET_ON cfg && INLET_DO_NOTHING cfg && (LatTyp g (i, j, k) =? 7) then
    Some (<[ (i, j, k, v) := f g (i, j, k, v) ]> f_new)
  else
    let dest_x := i + c vs 0 v in
    let dest_y := j + c vs 1 v in
    let dest_z := k + c vs 2 v in
    if off_grid g dest_x dest_y dest_z then
      if PERIODIC_BOUNDARIES cfg && negb (BUILD_FOR_MPI cfg) then
        let dest_x := Z.rem (i + c vs 0 v + N_lim g) (N_lim g) in
        let dest_y := Z.rem (j + c vs 1 v + M_lim g) (M_lim g) in
        let dest_z := Z.rem (k + c vs 2 v + K_lim g) (K_lim g) in
        if (level g =? 0)
           && ((LatTyp g (i, j, k) =? 1) && (LatTyp g (dest_x, dest_y, dest_z) =? 1))
        then
          Some (<[ (dest_x, dest_y, dest_z, v) := f g (i, j, k, v) ]> f_new)
        else
          Some (<[ (i, j, k, v_opp) := f g (i, j, k, v_opp) ]> f_new)
      else
        Some (<[ (i, j, k, v_opp) := f g (i, j, k, v_opp) ]> f_new)
    else
      if BUILD_FOR_MPI cfg
         && (isOnRecvLayer ext g (i, j, k)
             && isOnSenderLayer ext g (dest_x, dest_y, dest_z)
             && isOverlapPeriodic ext g (i, j, k))
      then
        if PERIODIC_BOUNDARIES cfg then
          if (LatTyp g (i, j, k) =? 1) && (LatTyp g (dest_x, dest_y, dest_z) =? 1) then
            Some (<[ (dest_x, dest_y, dest_z, v) := f g (i, j, k, v) ]> f_new)
          else
            Some (<[ (dest_x, dest_y, dest_z, v) := f g (dest_x, dest_y, dest_z, v) ]> f_new)
        else
          Some (<[ (dest_x, dest_y, dest_z, v) := f g (dest_x, dest_y, dest_z, v) ]> f_new)
      else if (LatTyp g (i, j, k) =? 4) && (LatTyp g (dest_x, dest_y, dest_z) =? 4) then
        Some f_new
      else if INLET_ON cfg && INLET_DO_NOTHING cfg
              && (LatTyp g (dest_x, dest_y, dest_z) =? 7) then
        Some f_new
      else
        Some (<[ (dest_x, dest_y, dest_z, v) := f g (i, j, k, v) ]> f_new).

Definition LBM_stream (g : GridObj) : GridObj :=
  let f_new := zeros4 in
  let f_new :=
    for_sites (N_lim g) (M_lim g) (K_lim g)
      (fun i j k => for_break (seq 0 (nVels vs)) (stream_dir g i j k)) f_new in
  set_f f_new g.

(** ** Macroscopic recovery: [GridObj::LBM_macro] *)

Definition write_rho (s : Site) (x : Qc) (g : GridObj) : GridObj :=
  set_rho (<[ s := x ]> (rho g)) g.

Definition write_u (s : Site) (d : nat) (x : Qc) (g : GridObj) : GridObj :=
  set_u (<[ (s, d) := x ]> (u g)) g.

(** Density and velocity of one site: the text that both overloads of
    [LBM_macro] contain. *)
Definition macro_rho_u (i j k : Z) (g : GridObj) : GridObj :=
  if LatTyp g (i, j, k) =? 2 then
    let g := write_rho (i, j, k) 0%Qc g in
    let g := write_u (i, j, k) 0 0%Qc g in
    let g := write_u (i, j, k) 1 0%Qc g in
    if (dims vs =? 3)%nat then write_u (i, j, k) 2 0%Qc g else g
  else if (LatTyp g (i, j, k) =? 0) || (LatTyp g (i, j, k) =? 5) then
    let g := write_rho (i, j, k) 1%Qc g in
    let g := write_u (i, j, k) 0 0%Qc g in
    let g := write_u (i, j, k) 1 0%Qc g in
    if (dims vs =? 3)%nat then write_u (i, j, k) 2 0%Qc g else g
  else
    let '(fux_temp, fuy_temp, fuz_temp, rho_temp) :=
      for_each (seq 0 (nVels vs))
        (fun v '(fux_temp, fuy_temp, fuz_temp, rho_temp) =>
           ((fux_temp + Z2Qc (c vs 0 v) * f g (i, j, k, v))%Qc,
            (fuy_temp + Z2Qc (c vs 1 v) * f g (i, j, k, v))%Qc,
            (fuz_temp + Z2Qc (c vs 2 v) * f g (i, j, k, v))%Qc,
            (rho_temp + f g (i, j, k, v))%Qc))
        (0%Qc, 0%Qc, 0%Qc, 0%Qc) in
    let g := write_rho (i, j, k) rho_temp g in
    let fux_temp :=
      (fux_temp + rho_temp * (1 / pow2 (level g)) * half * force_xyz g (i, j, k, 0%nat))%Qc in
    let fuy_temp :=
      (fuy_temp + rho_temp * (1 / pow2 (level g)) * half * force_xyz g (i, j, k, 1%nat))%Qc in
    let fuz_temp :=
      if (dims vs =? 3)%nat then
        (fuz_temp + rho_temp * (1 / pow2 (level g)) * half * force_xyz g (i, j, k, 2%nat))%Qc
      else fuz_temp in
    let g := write_u (i, j, k) 0 (fux_temp / rho_temp)%Qc g in
    let g := write_u (i, j, k) 1 (fuy_temp / rho_temp)%Qc g in
    if (dims vs =? 3)%nat then write_u (i, j, k) 2 (fuz_temp / rho_temp)%Qc g else g.

(** The tick counter [t] is an [int].  [INT_MAX] is the largest one, and
    [int_wrap z] is the [int] that an [int] operation of mathematical
    value [z] leaves (32 bits, two's complement). *)
Definition INT_MAX : Z := 2147483647.

Definition int_wrap (z : Z) : Z :=
  (z + 2147483648) mod 4294967296 - 2147483648.

(** The incremental mean
    [ta_temp = avg * (double)t; ta_temp += x; avg = ta_temp / (double)(t+1)]:
    [t + 1] is computed on the [int] before it is converted. *)
Definition timeav_update (avg : Qc) (t_ : Z) (x : Qc) : Qc :=
  let ta_temp := (avg * Z2Qc t_)%Qc in
  let ta_temp := (ta_temp + x)%Qc in
  (ta_temp / Z2Qc (int_wrap (t_ + 1)))%Qc.

(** The time-averages of one site. *)
Definition macro_timeav (i j k : Z) (g : GridObj) : GridObj :=
  let g :=
    set_rho_timeav
      (<[ (i, j, k) := timeav_update (rho_timeav g (i, j, k)) (t g) (rho g (i, j, k)) ]>
         (rho_timeav g)) g in
  let ta_count := 0%nat in
  snd
    (for_each (seq 0 (dims vs))
       (fun p '(ta_count, g) =>
          let g :=
            set_ui_timeav
              (<[ (i, j, k, p) :=
                   timeav_update (ui_timeav g (i, j, k, p)) (t g) (u g (i, j, k, p)) ]>
                 (ui_timeav g)) g in
          for_each (seq p (dims vs - p))
            (fun q '(ta_count, g) =>
               let g :=
                 set_uiuj_timeav
                   (<[ (i, j, k, ta_count) :=
                        timeav_update (uiuj_timeav g (i, j, k, ta_count)) (t g)
                          (u g (i, j, k, p) * u g (i, j, k, q))%Qc ]>
                      (uiuj_timeav g)) g in
               (S ta_count, g))
            (ta_count, g))
       (ta_count, g)).

(** [LBM_macro()]: the sweep over the whole grid. *)
Definition LBM_macro (g : GridObj) : GridObj :=
  for_sites (N_lim g) (M_lim g) (K_lim g)
    (fun i j k g => macro_timeav i j k (macro_rho_u i j k g)) g.

(** [LBM_macro(i, j, k)]: one site, no time-averages. *)
Definition LBM_macro_site (i j k : Z) (g : GridObj) : GridObj :=
  macro_rho_u i j k g.

(** ** Refinement coupling: [GridObj::LBM_explode], [GridObj::LBM_coalesce] *)

Definition write_f (s : Site) (v : nat) (x : Qc) (g : GridObj) : GridObj :=
  set_f (<[ (s, v) := x ]> (f g)) g.

(** The fine siblings of the coarse cell whose first sibling is
    [(fi,fj,fk)], in the order the source lists them.  The 2D source uses
    the three-index accessor [f(fi, fj, v, M_fine, nVels)]; on a 2D grid
    ([k = 0] throughout) that is the entry of site [(fi, fj, 0)]. *)
Definition siblings (fi fj fk : Z) : list Site :=
  if (dims vs =? 3)%nat then
    [ (fi, fj, fk); (fi + 1, fj, fk); (fi, fj + 1, fk); (fi + 1, fj + 1, fk);
      (fi, fj, fk + 1); (fi + 1, fj, fk + 1); (fi, fj + 1, fk + 1);
      (fi + 1, fj + 1, fk + 1) ]
  else
    [ (fi, fj, 0); (fi + 1, fj, 0); (fi, fj + 1, 0); (fi + 1, fj + 1, 0) ].

(** One coarse site of the explode loop; [g] is the coarse grid, the
    state is the fine grid. *)
Definition explode_site (g : GridObj) (i j k : Z) (fGrid : GridObj) : GridObj :=
  if LatTyp g (i, j, k) =? 4 then
    let x_start := fst (CoarseLimsX fGrid) in
    let y_start := fst (CoarseLimsY fGrid) in
    let z_start := fst (CoarseLimsZ fGrid) in
    let '(fi, fj, fk) := getFineIndices i x_start j y_start k z_start in
    if LatTyp fGrid (fi, fj, fk) =? 3 then
      for_each (seq 0 (nVels vs))
        (fun v fGrid =>
           let coarse_f := f g (i, j, k, v) in
           for_each (siblings fi fj fk) (fun s => write_f s v coarse_f) fGrid)
        fGrid
    else fGrid
  else fGrid.

(** [LBM_explode(RegionNumber)] called on the coarse grid [g]; [fGrid] is
    the grid of that region one level down; the result is the fine grid. *)
Definition LBM_explode (g fGrid : GridObj) : GridObj :=
  for_region (CoarseLimsX fGrid) (CoarseLimsY fGrid) (CoarseLimsZ fGrid)
    (explode_site g) fGrid.

(** The sum of the fine populations in the order the source adds them. *)
Definition sibling_sum (fGrid : GridObj) (fi fj fk : Z) (v : nat) : Qc :=
  match siblings fi fj fk with
  | [] => 0%Qc
  | s :: l => for_each l (fun s acc => (acc + f fGrid (s, v))%Qc) (f fGrid (s, v))
  end.

(** One coarse site of the coalesce loop; the state is the coarse grid. *)
Definition coalesce_site (fGrid : GridObj) (i j k : Z) (g : GridObj) : GridObj :=
  if (LatTyp g (i, j, k) =? 4) || (LatTyp g (i, j, k) =? 5) then
    let x_start := fst (CoarseLimsX fGrid) in
    let y_start := fst (CoarseLimsY fGrid) in
    let z_start := fst (CoarseLimsZ fGrid) in
    let '(fi, fj, fk) := getFineIndices i x_start j y_start k z_start in
    for_each (seq 0 (nVels vs))
      (fun v g =>
         if decide (f g (i, j, k, v) = 0%Qc) then
           write_f (i, j, k) v
             (sibling_sum fGrid fi fj fk v / Qcpower (Z2Qc 2) (dims vs))%Qc g
         else g)
      g
  else g.

(** [LBM_coalesce(RegionNumber)] called on the coarse grid [g]; the result
    is the coarse grid. *)
Definition LBM_coalesce (g fGrid : GridObj) : GridObj :=
  for_region (CoarseLimsX fGrid) (CoarseLimsY fGrid) (CoarseLimsZ fGrid)
    (coalesce_site fGrid) g.

(** ** The multi-grid driver: [GridObj::LBM_multi] *)

(** A method called on the grid at [p] that is not recorded. *)
Definition call (p : Path) (h : GridObj -> GridObj) (r : Run) : Run :=
  (<[ p := h (fst r p) ]> (fst r), snd r).

(** A recorded kernel operation on the grid at [p]. *)
Definition kernel_op (p : Path) (op : Op) (h : GridObj -> GridObj) (r : Run) : Run :=
  (<[ p := h (fst r p) ]> (fst r), snd r ++ [(p, op)]).

(** [LBM_explode(reg)] writes the child, [LBM_coalesce(reg)] the parent. *)
Definition explode_op (p : Path) (reg : nat) (r : Run) : Run :=
  (<[ p ++ [reg] := LBM_explode (fst r p) (fst r (p ++ [reg])) ]> (fst r),
   snd r ++ [(p, OpExplode reg)]).

Definition coalesce_op (p : Path) (reg : nat) (r : Run) : Run :=
  (<[ p := LBM_coalesce (fst r p) (fst r (p ++ [reg])) ]> (fst r),
   snd r ++ [(p, OpCoalesce reg)]).

(** A statement under [#if cond]. *)
Definition when (cond : bool) (h : Run -> Run) (r : Run) : Run :=
  if cond then h r else r.

(** The boundary passes before the stream, the stream and the pass after
    it: the same text in both branches of the driver.  ([f_prestream] of
    the object manager is outside the model.) *)
Definition stream_with_bcs (p : Path) (r : Run) : Run :=
  let r :=
    when ((INLET_ON cfg || OUTLET_ON cfg)
          && (negb (INLET_DO_NOTHING cfg) && negb (INLET_REGULARISED cfg)))
      (call p (LBM_boundary ext 2)) r in
  let r := when (SOLID_BLOCK_ON cfg || WALLS_ON cfg) (call p (LBM_boundary ext 1)) r in
  let r := kernel_op p OpStream LBM_stream r in
  when (BFL_ON cfg) (call p (LBM_boundary ext 5)) r.

(** The body of the [do { ... } while (count < 3)] loop up to and including
    [LBM_macro()].  [lower r] is the first loop over the regions (explode,
    then [subGrid[reg].LBM_multi(IBM_flag)]); [regions] is
    [subGrid.size()]. *)
Definition kernel_body (p : Path) (regions : nat) (lower : Run -> Run) (r : Run) : Run :=
  let r :=
    when (INLET_ON cfg && INLET_REGULARISED cfg && negb (INLET_DO_NOTHING cfg))
      (call p (LBM_boundary ext 2)) r in
  let r := call p (LBM_forcegrid false) r in
  let r := kernel_op p OpCollide LBM_collide r in
  let r :=
    if level (fst r p) <? NumLev cfg then
      let r := lower r in
      let r := stream_with_bcs p r in
      for_each (seq 0 regions) (coalesce_op p) r
    else
      stream_with_bcs p r in
  let r := when (OUTLET_ON cfg) (call p (LBM_boundary ext 3)) r in
  kernel_op p OpMacro LBM_macro r.

(** [int count = 1; do { body; if (level == 0) { t++; break; } t++; count++; }
    while (count < 3);] -- at most two trips, so two units of fuel are
    never used up. *)
Fixpoint kernel_loop (fuel : nat) (p : Path) (body : Run -> Run) (count : Z) (r : Run) : Run :=
  match fuel with
  | O => r
  | S fuel' =>
      let r := body r in
      if level (fst r p) =? 0 then
        call p (fun g => set_t (t g + 1) g) r
      else
        let r := call p (fun g => set_t (t g + 1) g) r in
        let count := count + 1 in
        if count <? 3 then kernel_loop fuel' p body count r else r
  end.

(** The pre-kernel processing: the force reset, which with [IBM_ON] is
    done on the predictor pass of level 0 only. *)
Definition pre_kernel (p : Path) (IBM_flag : bool) (r : Run) : Run :=
  if IBM_ON cfg then
    when ((level (fst r p) =? 0) && IBM_flag) (call p (LBM_forcegrid true)) r
  else
    call p (LBM_forcegrid true) r.

(** The first loop over the regions,
    [for (reg = 0; reg < regions; reg++) { LBM_explode(reg);
    subGrid[reg].LBM_multi(IBM_flag); }], from region [reg] on; [call] is
    the call of [LBM_multi] on a child. *)
Fixpoint lower_levels (call : GridTree -> Path -> Run -> Run) (p : Path)
  (reg : nat) (l : list GridTree) (r : Run) {struct l} : Run :=
  match l with
  | [] => r
  | child :: l' =>
      let r := explode_op p reg r in
      let r := call child (p ++ [reg]) r in
      lower_levels call p (S reg) l' r
  end.

(** [LBM_multi(IBM_flag)] on the grid at [p], whose sub-tree is [tr].
    The timing of the kernel (clock, [timeav_timestep], log file) is
    outside the model.  The corrector call [LBM_multi(false)] on the same
    object is written out: with a false flag the call is the pre-kernel
    processing, the kernel loop and the communication. *)
Fixpoint LBM_multi (tr : GridTree) (p : Path) (IBM_flag : bool) (r : Run) {struct tr} : Run :=
  match tr with
  | Node subGrid =>
      let kernel (flag : bool) :=
        kernel_loop 2 p
          (kernel_body p (length subGrid)
             (lower_levels (fun child q => LBM_multi child q flag) p 0 subGrid)) 1 in
      let communicate :=
        when (BUILD_FOR_MPI cfg) (call p (mpi_communicate ext)) in
      let initial := fst r p in
      let r := pre_kernel p IBM_flag r in
      let r := kernel IBM_flag r in
      let r :=
        if IBM_ON cfg && ((level (fst r p) =? 0) && IBM_flag) then
          let r := call p (LBM_forcegrid true) r in
          let r := call p (ibm_apply ext) r in
          let r :=
            call p (fun g => set_rho (rho initial) (set_u (u initial) (set_f (f initial) g))) r in
          let r := call p (fun g => set_t (t g - 1) g) r in
          let r := communicate (kernel false (pre_kernel p false r)) in
          call p (ibm_move_bodies ext) r
        else r in
      communicate r
  end.

End Kernel.

(** ** Derived descriptions used in the statements *)

(** The trips of the streaming sweep, in loop order. *)
Definition trips (vs : VelSet) (g : GridObj) : list (Site * nat) :=
  x ← sites (N_lim g) (M_lim g) (K_lim g); v ← seq 0 (nVels vs); [(x, v)].

(** The destination of trip [(i,j,k), v], and the same wrapped modulo the
    extent. *)
Definition dest (vs : VelSet) (x : Site) (v : nat) : Site :=
  let '(i, j, k) := x in (i + c vs 0 v, j + c vs 1 v, k + c vs 2 v).

Definition periodic_dest (vs : VelSet) (g : GridObj) (x : Site) (v : nat) : Site :=
  let '(i, j, k) := x in
  (Z.rem (i + c vs 0 v + N_lim g) (N_lim g),
   Z.rem (j + c vs 1 v + M_lim g) (M_lim g),
   Z.rem (k + c vs 2 v + K_lim g) (K_lim g)).

Definition dest_off_grid (vs : VelSet) (g : GridObj) (x : Site) (v : nat) : bool :=
  let '(dx, dy, dz) := dest vs x v in off_grid vs g dx dy dz.

(** The test under which an off-grid trip is streamed periodically. *)
Definition streams_periodically (vs : VelSet) (cfg : Config) (g : GridObj)
  (x : Site) (v : nat) : bool :=
  PERIODIC_BOUNDARIES cfg && negb (BUILD_FOR_MPI cfg)
  && ((level g =? 0)
      && ((LatTyp g x =? 1) && (LatTyp g (periodic_dest vs g x v) =? 1))).

(** The test under which an on-grid trip is taken over by the MPI branch. *)
Definition mpi_diverted (vs : VelSet) (cfg : Config) (ext : External) (g : GridObj)
  (x : Site) (v : nat) : bool :=
  BUILD_FOR_MPI cfg
  && (isOnRecvLayer ext g x && isOnSenderLayer ext g (dest vs x v)
      && isOverlapPeriodic ext g x).

(** The slot and the value that the trip [x, v] of the streaming sweep
    assigns in [f_new], if it assigns any ([stream_dir_write] relates
    this to [stream_dir]). *)
Definition stream_write (vs : VelSet) (cfg : Config) (ext : External) (g : GridObj)
  (x : Site) (v : nat) : option (Site * nat * Qc) :=
  if LatTyp g x =? 2 then None
  else if INLET_ON cfg && INLET_DO_NOTHING cfg && (LatTyp g x =? 7) then
    Some (x, v, f g (x, v))
  else if dest_off_grid vs g x v then
    if streams_periodically vs cfg g x v then
      Some (periodic_dest vs g x v, v, f g (x, v))
    else
      Some (x, getOpposite vs v, f g (x, getOpposite vs v))
  else if mpi_diverted vs cfg ext g x v then
    if PERIODIC_BOUNDARIES cfg && ((LatTyp g x =? 1) && (LatTyp g (dest vs x v) =? 1)) then
      Some (dest vs x v, v, f g (x, v))
    else
      Some (dest vs x v, v, f g (dest vs x v, v))
  else if (LatTyp g x =? 4) && (LatTyp g (dest vs x v) =? 4) then None
  else if INLET_ON cfg && INLET_DO_NOTHING cfg && (LatTyp g (dest vs x v) =? 7) then None
  else Some (dest vs x v, v, f g (x, v)).

(** A site inside the grid. *)
Definition in_grid (g : GridObj) (x : Site) : Prop :=
  let '(i, j, k) := x in
  0 <= i < N_lim g /\ 0 <= j < M_lim g /\ 0 <= k < K_lim g.

(** A coarse site inside the bounding box of the region of [fGrid]. *)
Definition in_region (fGrid : GridObj) (x : Site) : Prop :=
  let '(i, j, k) := x in
  fst (CoarseLimsX fGrid) <= i <= snd (CoarseLimsX fGrid) /\
  fst (CoarseLimsY fGrid) <= j <= snd (CoarseLimsY fGrid) /\
  fst (CoarseLimsZ fGrid) <= k <= snd (CoarseLimsZ fGrid).

(** The fine siblings covered by the coarse site [x] of the region of
    [fGrid]. *)
Definition covered (vs : VelSet) (fGrid : GridObj) (x : Site) : list Site :=
  let '(i, j, k) := x in
  let '(fi, fj, fk) :=
    getFineIndices i (fst (CoarseLimsX fGrid)) j (fst (CoarseLimsY fGrid))
      k (fst (CoarseLimsZ fGrid)) in
  siblings vs fi fj fk.

(** The first of them, whose type gates the explosion. *)
Definition first_sibling (fGrid : GridObj) (x : Site) : Site :=
  let '(i, j, k) := x in
  getFineIndices i (fst (CoarseLimsX fGrid)) j (fst (CoarseLimsY fGrid))
    k (fst (CoarseLimsZ fGrid)).

(** The covered fine siblings as the specification describes them, not
    as the code lists them.  The refinement ratio is 2 along every axis:
    the fine site [s] lies in the coarse cell [x] of the region of [fGrid]
    when halving its indices gives the offsets of [x] in the region; on a
    2D grid the fine sites have third index 0. *)
Definition covers (vs : VelSet) (fGrid : GridObj) (x s : Site) : Prop :=
  let '(i, j, k) := x in
  let '(a, b, e) := s in
  a / 2 = i - fst (CoarseLimsX fGrid)
  /\ b / 2 = j - fst (CoarseLimsY fGrid)
  /\ (if (dims vs =? 3)%nat then e / 2 = k - fst (CoarseLimsZ fGrid) else e = 0).

(** The same cells as a list: the first of them shifted by 0 or 1 along
    every axis of the lattice. *)
Definition fine_cells (vs : VelSet) (fGrid : GridObj) (x : Site) : list Site :=
  let '(i, j, k) := x in
  let a0 := 2 * (i - fst (CoarseLimsX fGrid)) in
  let b0 := 2 * (j - fst (CoarseLimsY fGrid)) in
  let e0 := 2 * (k - fst (CoarseLimsZ fGrid)) in
  if (dims vs =? 3)%nat then
    de ← [0; 1]; db ← [0; 1]; da ← [0; 1]; [(a0 + da, b0 + db, e0 + de)]
  else
    db ← [0; 1]; da ← [0; 1]; [(a0 + da, b0 + db, 0)].

(** The arithmetic mean of a list of values. *)
Definition mean (xs : list Qc) : Qc :=
  (fold_right Qcplus 0 xs / Z2Qc (Z.of_nat (length xs)))%Qc.

(** The counter [ta_count] when the product loop reaches the pair
    [(p, q)], [p <= q < dims]. *)
Definition ta_index (vs : VelSet) (p q : nat) : nat :=
  (p * dims vs - p * (p - 1) / 2 + (q - p))%nat.

(** Feeding the values [xs], one per tick from tick [t_] on, into the
    incremental mean. *)
Fixpoint timeav_feed (avg : Qc) (t_ : Z) (xs : list Qc) : Qc :=
  match xs with
  | [] => avg
  | x :: xs' => timeav_feed (timeav_update avg t_ x) (t_ + 1) xs'
  end.

(** What the model assumes of the velocity set: two or three dimensions,
    unit lattice speeds, and [getOpposite] pairing each direction with
    the direction of the negated velocity. *)
Record VelSet_ok (vs : VelSet) : Prop := {
  dims_2_or_3 : dims vs = 2%nat \/ dims vs = 3%nat;
  c_unit : forall d v, (v < nVels vs)%nat -> -1 <= c vs d v <= 1;
  opp_lt : forall v, (v < nVels vs)%nat -> (getOpposite vs v < nVels vs)%nat;
  opp_c : forall d v, (v < nVels vs)%nat -> c vs d (getOpposite vs v) = - c vs d v;
  opp_opp : forall v, (v < nVels vs)%nat -> getOpposite vs (getOpposite vs v) = v
}.

(** On a 2D build the region of a child is one layer of coarse sites. *)
Definition region_ok (vs : VelSet) (fGrid : GridObj) : Prop :=
  dims vs = 3%nat \/ fst (CoarseLimsZ fGrid) = snd (CoarseLimsZ fGrid).

(** What the driver assumes of its collaborators: they leave the level
    and the tick counter of the grid alone. *)
Record External_ok (ext : External) : Prop := {
  boundary_level : forall n g, level (LBM_boundary ext n g) = level g;
  boundary_t : forall n g, t (LBM_boundary ext n g) = t g;
  ibm_apply_level : forall g, level (ibm_apply ext g) = level g;
  ibm_apply_t : forall g, t (ibm_apply ext g) = t g;
  ibm_move_level : forall g, level (ibm_move_bodies ext g) = level g;
  ibm_move_t : forall g, t (ibm_move_bodies ext g) = t g;
  mpi_level : forall g, level (mpi_communicate ext g) = level g;
  mpi_t : forall g, t (mpi_communicate ext g) = t g
}.

(** ** The order of the kernel operations *)

Section Traces.

Variable cfg : Config.

(** The level of the grid at each path. *)
Variable lev : Path -> Z.

(** The operations of one trip of the kernel loop on the grid at [p], given
    the operations [lower] of the first loop over its [regions] regions:
    collide; per region explode and the call on the child; stream; per
    region coalesce; macro. *)
Definition body_trace (p : Path) (regions : nat) (lower : list Event) : list Event :=
  if lev p <? NumLev cfg then
    [(p, OpCollide)] ++ lower ++ [(p, OpStream)]
    ++ map (fun reg => (p, OpCoalesce reg)) (seq 0 regions) ++ [(p, OpMacro)]
  else
    [(p, OpCollide); (p, OpStream); (p, OpMacro)].

(** The same with the coalesce loop placed before the stream. *)
Definition body_trace_coalesce_first (p : Path) (regions : nat) (lower : list Event)
  : list Event :=
  if lev p <? NumLev cfg then
    [(p, OpCollide)] ++ lower
    ++ map (fun reg => (p, OpCoalesce reg)) (seq 0 regions)
    ++ [(p, OpStream)] ++ [(p, OpMacro)]
  else
    [(p, OpCollide); (p, OpStream); (p, OpMacro)].

(** The operations of the first loop over the regions, from region [reg]
    on; [call] gives the operations of the call on a child. *)
Fixpoint lower_trace (call : GridTree -> Path -> list Event) (p : Path)
  (reg : nat) (l : list GridTree) {struct l} : list Event :=
  match l with
  | [] => []
  | child :: l' =>
      (p, OpExplode reg) :: call child (p ++ [reg]) ++ lower_trace call p (S reg) l'
  end.

(** The operations of one call [LBM_multi(IBM_flag)] on the grid at [p]
    with sub-tree [tr], for a given way [body] of ordering one trip: one
    trip on level 0 (two, predictor and corrector, when [IBM_ON] and the
    flag are set) and two trips on every other level. *)
Fixpoint call_trace_with (body : Path -> nat -> list Event -> list Event)
  (IBM_flag : bool) (tr : GridTree) (p : Path) {struct tr} : list Event :=
  match tr with
  | Node subGrid =>
      let trip (flag : bool) :=
        body p (length subGrid)
          (lower_trace (fun child q => call_trace_with body flag child q) p 0 subGrid) in
      if lev p =? 0 then
        if IBM_ON cfg && IBM_flag then trip IBM_flag ++ trip false else trip IBM_flag
      else
        trip IBM_flag ++ trip IBM_flag
  end.

Definition call_trace : bool -> GridTree -> Path -> list Event :=
  call_trace_with body_trace.

Definition call_trace_coalesce_first : bool -> GridTree -> Path -> list Event :=
  call_trace_with body_trace_coalesce_first.

End Traces.

(** ** Small concrete instances *)

(** The D2Q9 velocity set with the rest direction last, and
    [getOpposite] swapping [2n] and [2n+1].  The lattice sound speed is
    irrational; the instance carries a rational stand-in. *)
Definition D2Q9 : VelSet := {|
  dims := 2;
  nVels := 9;
  c := fun d v =>
    nth v (nth d [ [1; -1; 0; 0; 1; -1; 1; -1; 0];
                   [0; 0; 1; -1; 1; -1; -1; 1; 0];
                   [0; 0; 0; 0; 0; 0; 0; 0; 0] ] []) 0;
  w := fun v =>
    nth v (map Q2Qc [1 # 9; 1 # 9; 1 # 9; 1 # 9; 1 # 36; 1 # 36; 1 # 36; 1 # 36; 4 # 9])%Q
      0%Qc;
  cs := half;
  getOpposite := fun v =>
    if (v =? 8)%nat then v else if Nat.even v then S v else Nat.pred v;
  mMRT := fun p q => if (p =? q)%nat then 1%Qc else 0%Qc;
  mInvMRT := fun p q => if (p =? q)%nat then 1%Qc else 0%Qc
|}.

(** A build with every switch off and [NumLev] levels of refinement. *)
Definition plain_cfg (numLev : Z) : Config := {|
  NumLev := numLev;
  USE_MRT := false; PERIODIC_BOUNDARIES := false; BUILD_FOR_MPI := false;
  IBM_ON := false; INLET_ON := false; INLET_DO_NOTHING := false;
  INLET_REGULARISED := false; OUTLET_ON := false; SOLID_BLOCK_ON := false;
  WALLS_ON := false; BFL_ON := false; GRAVITY_ON := false;
  grav_direction := 0; grav_force := 0%Qc
|}.

(** A serial build with periodic boundaries, and an MPI build with them. *)
Definition periodic_cfg : Config := {|
  NumLev := 0;
  USE_MRT := false; PERIODIC_BOUNDARIES := true; BUILD_FOR_MPI := false;
  IBM_ON := false; INLET_ON := false; INLET_DO_NOTHING := false;
  INLET_REGULARISED := false; OUTLET_ON := false; SOLID_BLOCK_ON := false;
  WALLS_ON := false; BFL_ON := false; GRAVITY_ON := false;
  grav_direction := 0; grav_force := 0%Qc
|}.

Definition mpi_periodic_cfg : Config := {|
  NumLev := 0;
  USE_MRT := false; PERIODIC_BOUNDARIES := true; BUILD_FOR_MPI := true;
  IBM_ON := false; INLET_ON := false; INLET_DO_NOTHING := false;
  INLET_REGULARISED := false; OUTLET_ON := false; SOLID_BLOCK_ON := false;
  WALLS_ON := false; BFL_ON := false; GRAVITY_ON := false;
  grav_direction := 0; grav_force := 0%Qc
|}.

(** Collaborators that do nothing. *)
Definition no_ext : External := {|
  LBM_boundary := fun _ g => g;
  ibm_apply := fun g => g;
  ibm_move_bodies := fun g => g;
  mpi_communicate := fun g => g;
  isOnRecvLayer := fun _ _ => false;
  isOnSenderLayer := fun _ _ => false;
  isOverlapPeriodic := fun _ _ => false
|}.

(** A grid of extent [N * M * 1] on level [lvl] at tick 0, with site types
    [typ], populations [pop], unit density, zero velocity and no force. *)
Definition test_grid (lvl N M : Z) (lims : (Z * Z) * (Z * Z))
  (typ : Site -> Z) (pop : Site * nat -> Qc) : GridObj := {|
  level := lvl; region_number := 0; t := 0;
  N_lim := N; M_lim := M; K_lim := 1;
  CoarseLimsX := fst lims; CoarseLimsY := snd lims; CoarseLimsZ := (0, 0);
  omega := 1%Qc; mrt_omega := fun _ => 1%Qc;
  LatTyp := typ; f := pop; feq := zeros4; force_i := zeros4; force_xyz := zeros4;
  rho := fun _ => 1%Qc; u := zeros4;
  rho_timeav := fun _ => 1%Qc; ui_timeav := zeros4; uiuj_timeav := zeros4
|}.

(** Populations that differ from slot to slot: [10 i + v + 1] at site
    [(i, j, k)], direction [v]. *)
Definition numbered : Site * nat -> Qc :=
  fun '((i, _, _), v) => Z2Qc (10 * i + Z.of_nat v + 1).

(** A row of two fluid sites on level 0. *)
Definition fluid_row : GridObj :=
  test_grid 0 2 1 ((0, 0), (0, 0)) (fun _ => Fluid) numbered.

(** A coarse grid of one transition site, and its child of 2 x 2 sites:
    the first sibling is a receiving transition site, the others are
    fluid. *)
Definition coarse_cell : GridObj :=
  test_grid 0 1 1 ((0, 0), (0, 0)) (fun _ => TransitionToCoarser) numbered.

Definition fine_block : GridObj :=
  test_grid 1 2 2 ((0, 0), (0, 0))
    (fun x => if decide (x = (0, 0, 0)) then TransitionReceiveFromFiner else Fluid)
    (fun _ => Z2Qc 7).

(** A child whose populations differ from site to site:
    [10 i + 100 j + v + 1] at site [(i, j, k)], direction [v]. *)
Definition varied_block : GridObj :=
  test_grid 1 2 2 ((0, 0), (0, 0)) (fun _ => TransitionReceiveFromFiner)
    (fun '((i, j, _), v) => Z2Qc (10 * i + 100 * j + Z.of_nat v + 1)).

(** A row of two fluid sites with relaxation rate 3/2, density 2,
    velocity [(1/10, 1/5)] and lattice forces [v / 100]. *)
Definition relaxing_row : GridObj := {|
  level := 0; region_number := 0; t := 0;
  N_lim := 2; M_lim := 1; K_lim := 1;
  CoarseLimsX := (0, 0); CoarseLimsY := (0, 0); CoarseLimsZ := (0, 0);
  omega := Q2Qc (3 # 2); mrt_omega := fun _ => 1%Qc;
  LatTyp := fun _ => Fluid; f := numbered; feq := zeros4;
  force_i := fun '(_, v) => (Z2Qc (Z.of_nat v) / Z2Qc 100)%Qc;
  force_xyz := zeros4;
  rho := fun _ => Z2Qc 2;
  u := fun '(_, d) => (Z2Qc (Z.of_nat d + 1) / Z2Qc 10)%Qc;
  rho_timeav := fun _ => 1%Qc; ui_timeav := zeros4; uiuj_timeav := zeros4
|}.

(** A child whose four sites all receive. *)
Definition fine_block_receiving : GridObj :=
  test_grid 1 2 2 ((0, 0), (0, 0)) (fun _ => TransitionReceiveFromFiner)
    (fun _ => Z2Qc 7).

(** A two-level hierarchy: the coarse cell with the fine block as its only
    region. *)
Definition two_levels : GridTree := Node [Node []].

Definition two_level_grids : Grids :=
  fun p => match p with [] => coarse_cell | _ => fine_block_receiving end.

(** ** Descriptions used for the collision sweep *)

(** During the sweep the grid is the grid [g0] it started from, with
    another [feq]. *)
Definition collide_inv (g0 : GridObj) (s : CollideState) : Prop :=
  exists e, fst s = set_feq e g0.

(** The value the BGK rule assigns to direction [v] of site [x]. *)
Definition bgk_value (vs : VelSet) (g0 : GridObj) (x : Site) (v : nat) : Qc :=
  let '(i, j, k) := x in
  (- omega g0 * (f g0 (x, v) - LBM_collide_feq vs g0 i j k v)
   + f g0 (x, v) + force_i g0 (x, v))%Qc.

(** A row of two solid sites, one of each kind. *)
Definition solid_row : GridObj :=
  test_grid 0 2 1 ((0, 0), (0, 0))
    (fun x => if decide (x = (0, 0, 0)) then Solid else SolidVariant) numbered.

(** The row of solid sites at the last tick an [int] counts. *)
Definition late_row : GridObj := set_t INT_MAX solid_row.

(** The coarse cell after a stream: its rest population is 0, the others
    are not. *)
Definition streamed_coarse_cell : GridObj :=
  LBM_stream D2Q9 (plain_cfg 1) no_ext coarse_cell.

(** ** Descriptions used for the streaming sweep *)

(** The effect of one trip on [f_new]. *)
Definition apply_write (wr : option (Site * nat * Qc)) (f_new : IVector4 Qc)
  : IVector4 Qc :=
  match wr with
  | Some (q, v, x) => <[ (q, v) := x ]> f_new
  | None => f_new
  end.

(** Along one axis of extent [N]: [w] is the destination [i + cx] wrapped
    into the grid. *)
Definition wraps (N i cx w : Z) : Prop :=
  0 <= w < N
  /\ ((0 <= i + cx < N /\ w = i + cx)
      \/ (i + cx = N /\ w = 0)
      \/ (i + cx = -1 /\ w = N - 1)).

(** A row of two coarse transition sites, and a child of 4 x 2 receiving
    sites whose region is that row. *)
Definition transition_row : GridObj :=
  test_grid 0 2 1 ((0, 0), (0, 0)) (fun _ => TransitionToCoarser) numbered.

Definition fine_row : GridObj :=
  test_grid 1 4 2 ((0, 1), (0, 0)) (fun _ => TransitionReceiveFromFiner)
    (fun _ => Z2Qc 7).

(** ** Descriptions used for the driver *)

(** A method that leaves the level and the tick counter alone. *)
Definition keeps (h : GridObj -> GridObj) : Prop :=
  forall g, level (h g) = level g /\ t (h g) = t g.

(** A piece [h] of a call on the grid at [p], in a hierarchy whose levels
    are [lev]: it records the operations [es], advances the tick counter
    of that grid by [dt], changes no level, and touches no grid outside
    the sub-tree at [p]. *)
Definition step (lev : Path -> Z) (p : Path) (es : list Event) (dt : Z)
  (h : Run -> Run) : Prop :=
  forall r : Run,
    (forall q, level (fst r q) = lev q) ->
    snd (h r) = snd r ++ es
    /\ (forall q, level (fst (h r) q) = lev q)
    /\ t (fst (h r) p) = t (fst r p) + dt
    /\ (forall q, (forall k, q <> p ++ k) -> fst (h r) q = fst r q).

(** A child of 6 x 2 receiving sites whose region is the two coarse sites
    of the transition row: its last two columns are covered by no coarse
    site. *)
Definition fine_strip : GridObj :=
  test_grid 1 6 2 ((0, 1), (0, 0)) (fun _ => TransitionReceiveFromFiner)
    (fun _ => Z2Qc 7).

(** ** Descriptions used for the macroscopic sweep *)

(** The zeroth and first moments of the populations of a site. *)
Definition density (vs : VelSet) (g : GridObj) (x : Site) : Qc :=
  sum_upto (nVels vs) (fun v => f g (x, v)).

Definition momentum (vs : VelSet) (g : GridObj) (x : Site) (d : nat) : Qc :=
  sum_upto (nVels vs) (fun v => (Z2Qc (c vs d v) * f g (x, v))%Qc).

(** The velocity of a site with the half-force correction. *)
Definition forced_velocity (vs : VelSet) (g : GridObj) (x : Site) (d : nat) : Qc :=
  ((momentum vs g x d
    + density vs g x * (1 / pow2 (level g)) * half * force_xyz g (x, d))
   / density vs g x)%Qc.

(** The density and the velocity that the macroscopic update gives a site,
    by its type. *)
Definition macro_rho (vs : VelSet) (g : GridObj) (x : Site) : Qc :=
  if LatTyp g x =? 2 then 0%Qc
  else if (LatTyp g x =? 0) || (LatTyp g x =? 5) then 1%Qc
  else density vs g x.

Definition macro_u (vs : VelSet) (g : GridObj) (x : Site) (d : nat) : Qc :=
  if LatTyp g x =? 2 then 0%Qc
  else if (LatTyp g x =? 0) || (LatTyp g x =? 5) then 0%Qc
  else forced_velocity vs g x d.

(** All five arrays of macroscopic quantities replaced at once. *)
Definition set_macro (r : IVector3 Qc) (u' : IVector4 Qc) (ra : IVector3 Qc)
  (ua uua : IVector4 Qc) (g : GridObj) : GridObj :=
  set_uiuj_timeav uua (set_ui_timeav ua (set_rho_timeav ra (set_u u' (set_rho r g)))).

(** A run of macroscopic sweeps: before each sweep the populations are
    replaced by the next entry of [fs] (whatever the rest of the time step
    made of them), after it the tick counter advances. *)
Fixpoint macro_run (vs : VelSet) (fs : list (IVector4 Qc)) (g : GridObj) : GridObj :=
  match fs with
  | [] => g
  | fn :: fs' => macro_run vs fs' (set_t (t g + 1) (LBM_macro vs (set_f fn g)))
  end.

(** A row of two sites covered by a finer grid. *)
Definition covered_row : GridObj :=
  test_grid 0 2 1 ((0, 0), (0, 0)) (fun _ => CoveredByFiner) numbered.

(** ** Descriptions used for the forcing *)

(** What gravity adds to component [d] of the Cartesian force of a site. *)
Definition grav_term (cfg : Config) (g : GridObj) (x : Site) (d : nat) : Qc :=
  if GRAVITY_ON cfg && (d =? grav_direction cfg)%nat
  then (rho g x * grav_force cfg)%Qc else 0%Qc.

(** [lambda_i = (1 - 1/2*tau) * (w_i / cs^2)] and
    [beta_i = (1/cs^2) * (c_i . v)] of the forcing scheme. *)
Definition guo_lambda (vs : VelSet) (g : GridObj) (v : nat) : Qc :=
  ((1 - half * omega g) * (w vs v / cs vs ^ 2))%Qc.

Definition guo_beta (vs : VelSet) (g : GridObj) (x : Site) (v : nat) : Qc :=
  (sum_upto (dims vs) (fun d => (Z2Qc (c vs d v) * u g (x, d))%Qc) * (1 / cs vs ^ 2))%Qc.

(** [((c_i - v) + (1/cs^2) * (c_i . v) * c_i) . F], the bracket of the
    forcing scheme contracted with the Cartesian force [F]. *)
Definition guo_sum (vs : VelSet) (g : GridObj) (x : Site) (F : nat -> Qc) (v : nat) : Qc :=
  sum_upto (dims vs)
    (fun d =>
       (F d * ((Z2Qc (c vs d v) - u g (x, d))
               + (1 / cs vs ^ 2)
                 * sum_upto (dims vs) (fun a => (Z2Qc (c vs a v) * u g (x, a))%Qc)
                 * Z2Qc (c vs d v)))%Qc).

(** Both force arrays replaced at once. *)
Definition set_forces (fi fx : IVector4 Qc) (g : GridObj) : GridObj :=
  set_force_xyz fx (set_force_i fi g).

(** A build with gravity along the second axis and nothing else. *)
Definition gravity_cfg : Config := {|
  NumLev := 0;
  USE_MRT := false; PERIODIC_BOUNDARIES := false; BUILD_FOR_MPI := false;
  IBM_ON := false; INLET_ON := false; INLET_DO_NOTHING := false;
  INLET_REGULARISED := false; OUTLET_ON := false; SOLID_BLOCK_ON := false;
  WALLS_ON := false; BFL_ON := false; GRAVITY_ON := true;
  grav_direction := 1; grav_force := Q2Qc (1 # 100)
|}.

(** The fluid row with a velocity, a Cartesian force and a lattice force
    left from an earlier call. *)
Definition forced_row : GridObj :=
  set_force_xyz (fun '(_, d) => Z2Qc (Z.of_nat d + 1))
    (set_force_i (fun '(_, v) => Z2Qc (Z.of_nat v))
       (set_u (fun '(_, d) => Q2Qc (1 # 10)) fluid_row)).

(** ** Descriptions used for the MRT collision *)

(** The moment [q] of the values [a] of the directions. *)
Definition moment (vs : VelSet) (a : nat -> Qc) (q : nat) : Qc :=
  sum_upto (nVels vs) (fun r => (mMRT vs q r * a r)%Qc).

(** The value the MRT rule assigns to direction [p] of site [x]: the
    moments relaxed towards the equilibrium moments, each at its own rate,
    and taken back to velocity space. *)
Definition mrt_value (vs : VelSet) (g0 : GridObj) (x : Site) (p : nat) : Qc :=
  let '(i, j, k) := x in
  let m := moment vs (fun r => f g0 (x, r)) in
  let meq := moment vs (fun r => LBM_collide_feq vs g0 i j k r) in
  sum_upto (nVels vs)
    (fun q => (mInvMRT vs p q * (m q - mrt_omega g0 q * (m q - meq q)))%Qc).

(** An MRT build with every other switch off. *)
Definition mrt_cfg : Config := {|
  NumLev := 0;
  USE_MRT := true; PERIODIC_BOUNDARIES := false; BUILD_FOR_MPI := false;
  IBM_ON := false; INLET_ON := false; INLET_DO_NOTHING := false;
  INLET_REGULARISED := false; OUTLET_ON := false; SOLID_BLOCK_ON := false;
  WALLS_ON := false; BFL_ON := false; GRAVITY_ON := false;
  grav_direction := 0; grav_force := 0%Qc
|}.

(** A build with a do-nothing inlet, and a row whose first site is an
    inlet site of that kind. *)
Definition inlet_cfg : Config := {|
  NumLev := 0;
  USE_MRT := false; PERIODIC_BOUNDARIES := false; BUILD_FOR_MPI := false;
  IBM_ON := false; INLET_ON := true; INLET_DO_NOTHING := true;
  INLET_REGULARISED := false; OUTLET_ON := false; SOLID_BLOCK_ON := false;
  WALLS_ON := false; BFL_ON := false; GRAVITY_ON := false;
  grav_direction := 0; grav_force := 0%Qc
|}.

Definition inlet_row : GridObj :=
  test_grid 0 2 1 ((0, 0), (0, 0))
    (fun x => if decide (x = (0, 0, 0)) then DoNothingInlet else Fluid) numbered.

(** Collaborators of an MPI build in which every site is on a receiver
    layer, on a sender layer and in a periodic overlap. *)
Definition overlap_ext : External := {|
  LBM_boundary := fun _ g => g;
  ibm_apply := fun g => g;
  ibm_move_bodies := fun g => g;
  mpi_communicate := fun g => g;
  isOnRecvLayer := fun _ _ => true;
  isOnSenderLayer := fun _ _ => true;
  isOverlapPeriodic := fun _ _ => true
|}.

(** ** Descriptions used for the reach of the driver *)

(** What a piece of a call does to the grid at a path below [p]: [None]
    for a grid it leaves untouched, [Some d] for a grid whose tick counter
    it advances by [d]. *)
Definition oadd (a b : option Z) : option Z :=
  match a, b with
  | None, x => x
  | x, None => x
  | Some a, Some b => Some (a + b)
  end.

Definition moved (lev : Path -> Z) (p : Path) (D : Path -> option Z) (h : Run -> Run)
  : Prop :=
  forall r : Run,
    (forall q, level (fst r q) = lev q) ->
    (forall q, level (fst (h r) q) = lev q)
    /\ forall k,
         match D k with
         | None => fst (h r) (p ++ k) = fst r (p ++ k)
         | Some d => t (fst (h r) (p ++ k)) = t (fst r (p ++ k)) + d
         end.

(** A piece that works on the grid at [p] only, and one that works below
    the child [reg] only. *)
Definition at_root (d : Z) (k : Path) : option Z :=
  match k with [] => Some d | _ => None end.

Definition at_child (reg : nat) (D : Path -> option Z) (k : Path) : option Z :=
  match k with
  | [] => None
  | r' :: k' => if (r' =? reg)%nat then D k' else None
  end.

(** The first loop over the regions [reg0, reg0 + 1, ...], whose grids
    are [l]; [Dc child q] describes the call on [child] at [q]. *)
Definition lower_moves (Dc : GridTree -> Path -> Path -> option Z) (p : Path)
  (reg0 : nat) (l : list GridTree) (k : Path) : option Z :=
  match k with
  | [] => None
  | r' :: k' =>
      if (reg0 <=? r')%nat then
        match l !! (r' - reg0)%nat with
        | Some child => oadd (at_root 0 k') (Dc child (p ++ [r']) k')
        | None => None
        end
      else None
  end.

(** One call of the driver on the grid at [p] with sub-tree [tr]: by how
    much it advances the tick counter of the grid at [p ++ k], if it
    touches that grid at all.  The grid itself advances by 1 on level 0
    and by 2 elsewhere; a child is called once per trip of the kernel
    loop, in a region that exists, on a level below [NumLev]. *)
Fixpoint ticks (cfg : Config) (lev : Path -> Z) (tr : GridTree) (p : Path)
  (IBM_flag : bool) (k : Path) {struct k} : option Z :=
  match k with
  | [] => Some (if lev p =? 0 then 1 else 2)
  | reg :: k' =>
      match tr with
      | Node subGrid =>
          if lev p <? NumLev cfg then
            match subGrid !! reg with
            | Some child =>
                let once := fun flag => ticks cfg lev child (p ++ [reg]) flag k' in
                if lev p =? 0 then
                  if IBM_ON cfg && IBM_flag then oadd (once IBM_flag) (once false)
                  else once IBM_flag
                else oadd (once IBM_flag) (once IBM_flag)
            | None => None
            end
          else None
      end
  end.

(** The path [k] below [p] leads through regions that exist, on levels
    that are refined further, to grids whose level is not 0. *)
Fixpoint reaches (cfg : Config) (lev : Path -> Z) (tr : GridTree) (p : Path)
  (k : Path) {struct k} : Prop :=
  match k with
  | [] => True
  | reg :: k' =>
      match tr with
      | Node subGrid =>
          lev p < NumLev cfg
          /\ lev (p ++ [reg]) <> 0
          /\ exists child, subGrid !! reg = Some child
                           /\ reaches cfg lev child (p ++ [reg]) k'
      end
  end.

(** Three levels: the coarse cell, the fine block as its only region, and
    a region of the fine block. *)
Definition three_levels : GridTree := Node [Node [Node []]].

Definition three_level_grids : Grids :=
  fun p => match p with
           | [] => coarse_cell
           | [_] => fine_block_receiving
           | _ => test_grid 2 4 4 ((0, 1), (0, 1)) (fun _ => Fluid) (fun _ => Z2Qc 7)
           end.

(** ** The time loop of [main] *)

(** The direction a rank receives from while it sends in direction
    [dir]: [(dir + 2) % 2 == 0 ? dir + 1 : dir - 1]. *)
Definition opp_dir (dir : Z) : Z :=
  if Z.rem (dir + 2) 2 =? 0 then dir + 1 else dir - 1.

(** The exchange with the neighbouring ranks after the kernel, one
    direction of the Cartesian topology after the other.  Buffers and
    [MPI_Sendrecv_replace] belong to the MPI manager, which is not part of
    the sources at hand: [exchange dir opp] stands for packing the buffer
    for [dir], sending it that way while receiving from [opp], and
    unpacking what was received into the grids. *)
Definition mpi_exchange (exchange : Z -> Z -> Grids -> Grids) (MPI_dir : Z) (r : Run)
  : Run :=
  for_each (zrange MPI_dir)
    (fun dir r => (exchange dir (opp_dir dir) (fst r), snd r)) r.

(** One trip of [do { ... } while (Grids.t < T)]: the kernel on the root
    grid ([LBM_multi(true)] with [IBM_ON], [LBM_multi(false)] without),
    then, in an MPI build, the exchange.  Timing and output are outside
    the model. *)
Definition time_step (vs : VelSet) (cfg : Config) (ext : External)
  (exchange : Z -> Z -> Grids -> Grids) (MPI_dir : Z) (tr : GridTree) (r : Run) : Run :=
  let r := LBM_multi vs cfg ext tr [] (IBM_ON cfg) r in
  when (BUILD_FOR_MPI cfg) (mpi_exchange exchange MPI_dir) r.

(** The loop, with fuel: [None] when the fuel runs out before
    [Grids.t < T] fails. *)
Fixpoint time_loop (vs : VelSet) (cfg : Config) (ext : External)
  (exchange : Z -> Z -> Grids -> Grids) (MPI_dir : Z) (tr : GridTree) (T : Z)
  (fuel : nat) (r : Run) : option Run :=
  match fuel with
  | O => None
  | S fuel' =>
      let r := time_step vs cfg ext exchange MPI_dir tr r in
      if t (fst r []) <? T then time_loop vs cfg ext exchange MPI_dir tr T fuel' r
      else Some r
  end.

(** An exchange that leaves levels and tick counters alone. *)
Definition exchange_ok (exchange : Z -> Z -> Grids -> Grids) : Prop :=
  forall dir opp (G : Grids) q,
    level (exchange dir opp G q) = level (G q) /\ t (exchange dir opp G q) = t (G q).

(** ** Descriptions used for the balance of mass *)

(** What the balance of mass asks of the velocity set: weights that sum
    to 1, with vanishing first moments and second moments
    [sigma delta_ab].  [sigma] is 1/3 for the weights of D2Q9; the square
    of the lattice sound speed is a member of its own, [cs]. *)
Record VelSet_moments (vs : VelSet) (sigma : Qc) : Prop := {
  w_sum : sum_upto (nVels vs) (w vs) = 1%Qc;
  w_first : forall a, (a < dims vs)%nat ->
    sum_upto (nVels vs) (fun v => (w vs v * Z2Qc (c vs a v))%Qc) = 0%Qc;
  w_second : forall a b, (a < dims vs)%nat -> (b < dims vs)%nat ->
    sum_upto (nVels vs) (fun v => (w vs v * Z2Qc (c vs a v) * Z2Qc (c vs b v))%Qc)
    = if (a =? b)%nat then sigma else 0%Qc;
  cs_nonzero : cs vs <> 0%Qc
}.

(** The square of the speed [u . u]. *)
Definition speed2 (vs : VelSet) (u_ : nat -> Qc) : Qc :=
  sum_upto (dims vs) (fun a => (u_ a * u_ a)%Qc).

(** The fluid row relaxing at rate 3/2, with the density of its
    populations, a velocity and a Cartesian force, its lattice forces
    reset. *)
Definition pushed_row : GridObj :=
  set_rho (fun '(i, _, _) => Z2Qc (90 * i + 45))
    (set_force_i zeros4
       (set_force_xyz (fun '(_, d) => Z2Qc (Z.of_nat d + 1)) relaxing_row)).

(** The same row at rest. *)
Definition resting_row : GridObj := set_u zeros4 pushed_row.

(** ** Bodies of markers: [Body<MarkerType>] (Body.h) *)

(** The members of a marker that [Body] reads (the marker classes are not
    part of the sources at hand): its position and the indices of its
    support sites, the first of them being the primary support. *)
Record Marker : Type := {
  position : list Qc;
  supp_i : list Z;
  supp_j : list Z;
  supp_k : list Z
}.

(** [MarkerData]: built by the custom constructor, or by the default
    constructor, which sets [ID = -1] and initialises no other member. *)
Inductive MarkerData : Type :=
  | MarkerData_at (i j k : Z) (x y z : Qc) (ID : Z)
  | MarkerData_invalid.

Definition ID (m : MarkerData) : Z :=
  match m with
  | MarkerData_at _ _ _ _ _ _ id => id
  | MarkerData_invalid => -1
  end.

(** The loop of [getMarkerData] from index [i] on, over the markers not
    yet visited.  [None] stands for an access past the end of a vector,
    which the source does not guard against. *)
Fixpoint find_marker (vox : Z * Z * Z) (i : Z) (markers : list Marker)
  : option MarkerData :=
  match markers with
  | [] => Some MarkerData_invalid
  | m :: rest =>
      si ← supp_i m !! 0%nat;
      if si =? fst (fst vox) then
        sj ← supp_j m !! 0%nat;
        if sj =? snd (fst vox) then
          sk ← supp_k m !! 0%nat;
          if sk =? snd vox then
            px ← position m !! 0%nat;
            py ← position m !! 1%nat;
            pz ← position m !! 2%nat;
            Some (MarkerData_at si sj sk px py pz i)
          else find_marker vox (i + 1) rest
        else find_marker vox (i + 1) rest
      else find_marker vox (i + 1) rest
  end.

(** [getMarkerData(x, y, z)]; [isOnThisRank] is
    [GridUtils::isOnThisRank(x, y, z, loc, _Owner, &vox)], giving the
    voxel when the position is on this rank. *)
Definition getMarkerData (isOnThisRank : Qc -> Qc -> Qc -> option (Z * Z * Z))
  (markers : list Marker) (x y z : Qc) : option MarkerData :=
  match isOnThisRank x y z with
  | Some vox => find_marker vox 0 markers
  | None => Some MarkerData_invalid
  end.

(** [isVoxelMarkerVoxel(x, y, z)]. *)
Definition isVoxelMarkerVoxel (isOnThisRank : Qc -> Qc -> Qc -> option (Z * Z * Z))
  (markers : list Marker) (x y z : Qc) : option bool :=
  m_data ← getMarkerData isOnThisRank markers x y z;
  Some (negb (ID m_data =? -1)).

(** The primary support of a marker, when it has one. *)
Definition primary_support (m : Marker) : option (Z * Z * Z) :=
  si ← supp_i m !! 0%nat; sj ← supp_j m !! 0%nat; sk ← supp_k m !! 0%nat;
  Some (si, sj, sk).

(** Two markers in different voxels, and a rank that owns the unit cube
    of voxels around the origin. *)
Definition two_markers : list Marker :=
  [ {| position := [Q2Qc (1 # 4); 0%Qc; 0%Qc]; supp_i := [0]; supp_j := [0]; supp_k := [0] |};
    {| position := [Q2Qc (5 # 4); 0%Qc; 0%Qc]; supp_i := [1]; supp_j := [0]; supp_k := [0] |} ].

Definition unit_rank (x y z : Qc) : option (Z * Z * Z) :=
  if decide (x = Q2Qc (5 # 4)) then Some (1, 0, 0)
  else if decide (x = Q2Qc (1 # 4)) then Some (0, 0, 0)
  else None.

(** * Lemmas and theorems *)

(** ** Loops *)

Lemma for_each_nil {A S : Type} (body : A -> S -> S) (s : S) :
  for_each [] body s = s.
Proof. reflexivity. Qed.

Lemma for_each_cons {A S : Type} (body : A -> S -> S) (a : A) (l : list A) (s : S) :
  for_each (a :: l) body s = for_each l body (body a s).
Proof. reflexivity. Qed.

Lemma for_each_app {A S : Type} (body : A -> S -> S) (l1 l2 : list A) (s : S) :
  for_each (l1 ++ l2) body s = for_each l2 body (for_each l1 body s).
Proof. unfold for_each. apply fold_left_app. Qed.

Lemma for_each_snoc {A S : Type} (body : A -> S -> S) (l : list A) (a : A) (s : S) :
  for_each (l ++ [a]) body s = body a (for_each l body s).
Proof. rewrite for_each_app. reflexivity. Qed.

(** A loop over a list built by [bind] is the nested loop. *)
Lemma for_each_bind {A B S : Type} (k : A -> list B) (body : B -> S -> S)
  (l : list A) (s : S) :
  for_each (l ≫= k) body s = for_each l (fun a => for_each (k a) body) s.
Proof.
  revert s. induction l as [|a l IH]; intros s.
  - reflexivity.
  - change ((a :: l) ≫= k) with (k a ++ (l ≫= k)).
    rewrite for_each_app, for_each_cons. apply IH.
Qed.

Lemma for_each_ext {A S : Type} (body1 body2 : A -> S -> S) (l : list A) (s : S) :
  (forall a s, a ∈ l -> body1 a s = body2 a s) ->
  for_each l body1 s = for_each l body2 s.
Proof.
  revert s. induction l as [|a l IH]; intros s H.
  - reflexivity.
  - rewrite !for_each_cons, H by left. apply IH.
    intros b s' Hb. apply H. now right.
Qed.

Lemma for_sites_flat {S : Type} (N M K : Z) (body : Z -> Z -> Z -> S -> S) (s : S) :
  for_sites N M K body s
  = for_each (sites N M K) (fun '(i, j, k) => body i j k) s.
Proof.
  unfold for_sites, sites. rewrite for_each_bind.
  apply for_each_ext. intros i s1 _. rewrite for_each_bind.
  apply for_each_ext. intros j s2 _. rewrite for_each_bind.
  apply for_each_ext. intros k s3 _. reflexivity.
Qed.

Lemma for_region_flat {S : Type} (X Y Zl : Z * Z) (body : Z -> Z -> Z -> S -> S) (s : S) :
  for_region X Y Zl body s
  = for_each (region_sites X Y Zl) (fun '(i, j, k) => body i j k) s.
Proof.
  unfold for_region, region_sites. rewrite for_each_bind.
  apply for_each_ext. intros i s1 _. rewrite for_each_bind.
  apply for_each_ext. intros j s2 _. rewrite for_each_bind.
  apply for_each_ext. intros k s3 _. reflexivity.
Qed.

Lemma elem_of_zrange (n i : Z) : i ∈ zrange n <-> 0 <= i < n.
Proof.
  unfold zrange. rewrite list_elem_of_fmap. split.
  - intros (m & -> & Hm). apply elem_of_seq in Hm. lia.
  - intros Hi. exists (Z.to_nat i). split; [lia|]. apply elem_of_seq. lia.
Qed.

Lemma elem_of_zrange_incl (lo hi i : Z) : i ∈ zrange_incl lo hi <-> lo <= i <= hi.
Proof.
  unfold zrange_incl. rewrite list_elem_of_fmap. split.
  - intros (m & -> & Hm). apply elem_of_seq in Hm. lia.
  - intros Hi. exists (Z.to_nat (i - lo)). split; [lia|]. apply elem_of_seq. lia.
Qed.

Lemma elem_of_sites (g : GridObj) (x : Site) :
  x ∈ sites (N_lim g) (M_lim g) (K_lim g) <-> in_grid g x.
Proof.
  destruct x as [[i j] k]. unfold sites, in_grid.
  rewrite list_elem_of_bind. setoid_rewrite list_elem_of_bind.
  setoid_rewrite list_elem_of_bind. setoid_rewrite elem_of_zrange.
  setoid_rewrite list_elem_of_singleton. split.
  - intros (i' & (j' & (k' & E & Hk) & Hj) & Hi). simplify_eq. auto.
  - intros (Hi & Hj & Hk). exists i. split; [|done].
    exists j. split; [|done]. exists k. done.
Qed.

Lemma elem_of_region_sites (fGrid : GridObj) (x : Site) :
  x ∈ region_sites (CoarseLimsX fGrid) (CoarseLimsY fGrid) (CoarseLimsZ fGrid)
  <-> in_region fGrid x.
Proof.
  destruct x as [[i j] k]. unfold region_sites, in_region.
  rewrite list_elem_of_bind. setoid_rewrite list_elem_of_bind.
  setoid_rewrite list_elem_of_bind. setoid_rewrite elem_of_zrange_incl.
  setoid_rewrite list_elem_of_singleton. split.
  - intros (i' & (j' & (k' & E & Hk) & Hj) & Hi). simplify_eq. auto.
  - intros (Hi & Hj & Hk). exists i. split; [|done].
    exists j. split; [|done]. exists k. done.
Qed.

Lemma elem_of_trips (vs : VelSet) (g : GridObj) (x : Site) (v : nat) :
  (x, v) ∈ trips vs g <-> in_grid g x /\ (v < nVels vs)%nat.
Proof.
  unfold trips. rewrite list_elem_of_bind. split.
  - intros (x' & Hv & Hx). apply list_elem_of_bind in Hv as (v' & E & Hv).
    apply list_elem_of_singleton in E. simplify_eq.
    apply elem_of_sites in Hx. apply elem_of_seq in Hv. split; [done|lia].
  - intros (Hx & Hv). exists x. split; [|by apply elem_of_sites].
    apply list_elem_of_bind. exists v.
    split; [by apply list_elem_of_singleton|apply elem_of_seq; lia].
Qed.

(** *** Reading one observable after a loop

    [P] is an invariant of the loop, [rd] the observable and [hits a] says
    that trip [a] assigns it.  If every trip that assigns it assigns [r],
    and some trip does, the loop leaves [r]; if none does, the loop leaves
    the observable alone. *)
Section ReadAfterLoop.

Context {A S R : Type}.
Variable body : A -> S -> S.
Variable P : S -> Prop.
Variable rd : S -> R.
Variable hits : A -> Prop.

Lemma for_each_invariant (l : list A) (s : S) :
  (forall a s, a ∈ l -> P s -> P (body a s)) ->
  P s -> P (for_each l body s).
Proof.
  revert s. induction l as [|a l IH]; intros s HP Hs.
  - exact Hs.
  - rewrite for_each_cons. apply IH.
    + intros b s' Hb. apply HP. now right.
    + apply HP; [now left|exact Hs].
Qed.

Lemma for_each_miss (l : list A) (s : S) :
  (forall a s, a ∈ l -> P s -> P (body a s)) ->
  (forall a s, a ∈ l -> P s -> ~ hits a -> rd (body a s) = rd s) ->
  (forall a, a ∈ l -> ~ hits a) ->
  P s -> rd (for_each l body s) = rd s.
Proof.
  revert s. induction l as [|a l IH]; intros s HP Hmiss Hno Hs.
  - reflexivity.
  - rewrite for_each_cons, IH.
    + apply Hmiss; [now left|exact Hs|]. apply Hno. now left.
    + intros b s' Hb. apply HP. now right.
    + intros b s' Hb. apply Hmiss. now right.
    + intros b Hb. apply Hno. now right.
    + apply HP; [now left|exact Hs].
Qed.

Lemma for_each_hit (r : R) (l : list A) (s : S) :
  (forall a s, a ∈ l -> P s -> P (body a s)) ->
  (forall a s, a ∈ l -> P s -> hits a -> rd (body a s) = r) ->
  (forall a s, a ∈ l -> P s -> ~ hits a -> rd (body a s) = rd s) ->
  (forall a, a ∈ l -> hits a \/ ~ hits a) ->
  P s -> (exists a, a ∈ l /\ hits a) ->
  rd (for_each l body s) = r.
Proof.
  induction l as [|a l IH] using rev_ind; intros HP Hhit Hmiss Hdec Hs (b & Hb & Hhb).
  - inversion Hb.
  - rewrite for_each_snoc.
    assert (Hin : a ∈ l ++ [a]) by (apply elem_of_app; right; now left).
    assert (HPl : P (for_each l body s)).
    { apply for_each_invariant; [|exact Hs].
      intros a' s' Ha'. apply HP. apply elem_of_app. now left. }
    destruct (Hdec a Hin) as [Ha|Ha].
    + now apply Hhit.
    + rewrite Hmiss by assumption. apply IH; try assumption.
      * intros a' s' Ha'. apply HP. apply elem_of_app. now left.
      * intros a' s' Ha'. apply Hhit. apply elem_of_app. now left.
      * intros a' s' Ha'. apply Hmiss. apply elem_of_app. now left.
      * intros a' Ha'. apply Hdec. apply elem_of_app. now left.
      * apply elem_of_app in Hb as [Hb|Hb].
        -- exists b. split; assumption.
        -- apply list_elem_of_singleton in Hb. subst b. contradiction.
Qed.

End ReadAfterLoop.

(** ** Equilibrium *)

Lemma sum_upto_2 (term : nat -> Qc) :
  sum_upto 2 term = (term 0%nat + term 1%nat)%Qc.
Proof. unfold sum_upto. simpl. ring. Qed.

Lemma sum_upto_3 (term : nat -> Qc) :
  sum_upto 3 term = (term 0%nat + term 1%nat + term 2%nat)%Qc.
Proof. unfold sum_upto. simpl. ring. Qed.

Lemma Z2Qc_2 : Z2Qc 2 = (1 + 1)%Qc.
Proof. apply Qc_is_canon. reflexivity. Qed.

(** The code computes the equilibrium of the specification. *)
Lemma LBM_collide_feq_spec (vs : VelSet) (g : GridObj) (i j k : Z) (v : nat) :
  dims vs = 2%nat \/ dims vs = 3%nat ->
  LBM_collide_feq vs g i j k v
  = feq_spec vs (rho g (i, j, k)) (fun d => u g (i, j, k, d)) v.
Proof.
  intros [H|H]; unfold LBM_collide_feq, feq_spec; rewrite H; simpl Nat.eqb; cbv iota.
  - rewrite !sum_upto_2. simpl Nat.eqb. cbv iota.
    rewrite Z2Qc_2. unfold Qcdiv. simpl Qcpower. ring.
  - rewrite !sum_upto_3. simpl Nat.eqb. cbv iota.
    rewrite Z2Qc_2. unfold Qcdiv. simpl Qcpower. ring.
Qed.

(** C6. The equilibrium the collision computes for a site and a direction
    is [rho w_v (1 + A/cs^2 + B/(2 cs^4))] with [A = c_v . u] and
    [B = sum over a, b of (c_va c_vb - cs^2 delta_ab) u_a u_b]; with
    positive density and zero velocity it is exactly [rho w_v]. *)
Theorem C6_equilibrium (vs : VelSet) (g : GridObj) (i j k : Z) (v : nat) :
  dims vs = 2%nat \/ dims vs = 3%nat ->
  LBM_collide_feq vs g i j k v
  = feq_spec vs (rho g (i, j, k)) (fun d => u g (i, j, k, d)) v
  /\ ((0 < rho g (i, j, k))%Qc ->
      (forall d, (d < dims vs)%nat -> u g (i, j, k, d) = 0%Qc) ->
      LBM_collide_feq vs g i j k v = (rho g (i, j, k) * w vs v)%Qc).
Proof.
  intros Hd. split; [now apply LBM_collide_feq_spec|].
  intros _ Hu. unfold LBM_collide_feq.
  destruct Hd as [Hd|Hd]; rewrite Hd in *; simpl Nat.eqb; cbv iota;
    rewrite !Hu by lia; unfold Qcdiv; simpl Qcpower; ring.
Qed.

Lemma C6_equilibrium_witness :
  LBM_collide_feq D2Q9 fluid_row 0 0 0 4
  = feq_spec D2Q9 (rho fluid_row (0, 0, 0)%Z) (fun d => u fluid_row (0, 0, 0, d)) 4
  /\ LBM_collide_feq D2Q9 fluid_row 0 0 0 4 = (rho fluid_row (0, 0, 0)%Z * w D2Q9 4)%Qc.
Proof.
  destruct (C6_equilibrium D2Q9 fluid_row 0 0 0 4) as [H1 H2].
  - left. reflexivity.
  - split; [exact H1|]. apply H2.
    + reflexivity.
    + intros d _. reflexivity.
Defined.

(** ** Array assignment *)

Lemma lookup_insert4 {T : Type} (fn : IVector4 T) (q : Site * nat) (x : T) :
  (<[ q := x ]> fn) q = x.
Proof. apply fn_lookup_insert. Qed.

Lemma lookup_insert4_ne {T : Type} (fn : IVector4 T) (q q' : Site * nat) (x : T) :
  q <> q' -> (<[ q := x ]> fn) q' = fn q'.
Proof. apply fn_lookup_insert_ne. Qed.

Lemma lookup_insert3 {T : Type} (fn : IVector3 T) (q : Site) (x : T) :
  (<[ q := x ]> fn) q = x.
Proof. apply fn_lookup_insert. Qed.

Lemma lookup_insert3_ne {T : Type} (fn : IVector3 T) (q q' : Site) (x : T) :
  q <> q' -> (<[ q := x ]> fn) q' = fn q'.
Proof. apply fn_lookup_insert_ne. Qed.

(** ** Collision *)

Lemma set_feq_self (g : GridObj) : g = set_feq (feq g) g.
Proof. destruct g. reflexivity. Qed.

Section CollideSweep.

Variable vs : VelSet.
Variable cfg : Config.

(** The grid before the sweep. *)
Variable g0 : GridObj.

Lemma update_feq_inv (i j k : Z) (v : nat) (g : GridObj) :
  (exists e, g = set_feq e g0) -> exists e, update_feq vs i j k v g = set_feq e g0.
Proof. intros [e ->]. eexists. reflexivity. Qed.

Lemma collide_dir_inv (i j k : Z) (v : nat) (s : CollideState) :
  collide_inv g0 s -> collide_inv g0 (collide_dir vs i j k v s).
Proof.
  destruct s as [g fn]. intros [e E]. simpl in E. subst g.
  eexists. reflexivity.
Qed.

Lemma collide_dir_hit (i j k : Z) (v : nat) (s : CollideState) :
  collide_inv g0 s ->
  snd (collide_dir vs i j k v s) (i, j, k, v) = bgk_value vs g0 (i, j, k) v.
Proof.
  destruct s as [g fn]. intros [e E]. simpl in E. subst g.
  unfold collide_dir, bgk_value. cbn [snd].
  rewrite lookup_insert4. cbn. rewrite lookup_insert4. reflexivity.
Qed.

Lemma collide_dir_miss (i j k : Z) (v : nat) (s : CollideState) (q : Site * nat) :
  q <> (i, j, k, v) -> snd (collide_dir vs i j k v s) q = snd s q.
Proof.
  destruct s as [g fn]. intros Hq. unfold collide_dir. cbn [snd].
  apply lookup_insert4_ne. congruence.
Qed.

Lemma mrt_collide_inv (i j k : Z) (s : CollideState) :
  collide_inv g0 s -> collide_inv g0 (LBM_mrt_collide vs cfg i j k s).
Proof.
  intros Hs. unfold LBM_mrt_collide. destruct (USE_MRT cfg); [|exact Hs].
  destruct s as [g fn]. destruct Hs as [e E]. simpl in E.
  match goal with |- context [let '(m, meq) := ?X in _] => destruct X as [m meq] end.
  unfold collide_inv. cbn [fst].
  apply (for_each_invariant (update_feq vs i j k) (fun g => exists e, g = set_feq e g0)).
  - intros v g' _. apply update_feq_inv.
  - eauto.
Qed.

Lemma mrt_collide_miss (i j k : Z) (s : CollideState) (y : Site) (v : nat) :
  y <> (i, j, k) -> snd (LBM_mrt_collide vs cfg i j k s) (y, v) = snd s (y, v).
Proof.
  intros Hy. unfold LBM_mrt_collide. destruct (USE_MRT cfg); [|reflexivity].
  destruct s as [g fn].
  match goal with |- context [let '(m, meq) := ?X in _] => destruct X as [m meq] end.
  cbn [snd].
  apply (for_each_miss _ (fun _ => True) (fun fn : IVector4 Qc => fn (y, v))
           (fun _ => False)); auto.
  intros p fn' _ _ _. apply lookup_insert4_ne. congruence.
Qed.

Lemma collide_site_inv (i j k : Z) (s : CollideState) :
  collide_inv g0 s -> collide_inv g0 (collide_site vs cfg i j k s).
Proof.
  intros Hs. unfold collide_site.
  destruct (_ || _); [exact Hs|].
  destruct (USE_MRT cfg); [now apply mrt_collide_inv|].
  apply (for_each_invariant (collide_dir vs i j k) (collide_inv g0)); [|exact Hs].
  intros v s' _. apply collide_dir_inv.
Qed.

Lemma collide_site_miss (i j k : Z) (s : CollideState) (y : Site) (v : nat) :
  y <> (i, j, k) -> snd (collide_site vs cfg i j k s) (y, v) = snd s (y, v).
Proof.
  intros Hy. unfold collide_site.
  destruct (_ || _); [reflexivity|].
  destruct (USE_MRT cfg); [now apply mrt_collide_miss|].
  apply (for_each_miss _ (fun _ => True) (fun s : CollideState => snd s (y, v))
           (fun _ => False)); auto.
  intros v' s' _ _ _. apply collide_dir_miss. congruence.
Qed.

Lemma collide_site_hit (i j k : Z) (s : CollideState) (v : nat) :
  USE_MRT cfg = false ->
  LatTyp g0 (i, j, k) <> 2 -> LatTyp g0 (i, j, k) <> 3 ->
  (v < nVels vs)%nat ->
  collide_inv g0 s ->
  snd (collide_site vs cfg i j k s) (i, j, k, v) = bgk_value vs g0 (i, j, k) v.
Proof.
  intros Hmrt H2 H3 Hv Hs. unfold collide_site.
  destruct Hs as [e E].
  replace (LatTyp (fst s) (i, j, k)) with (LatTyp g0 (i, j, k)) by now rewrite E.
  destruct (Z.eqb_spec (LatTyp g0 (i, j, k)) 2); [contradiction|].
  destruct (Z.eqb_spec (LatTyp g0 (i, j, k)) 3); [contradiction|].
  rewrite Hmrt. cbn [orb].
  apply (for_each_hit (collide_dir vs i j k) (collide_inv g0)
           (fun s : CollideState => snd s (i, j, k, v)) (fun v' => v' = v)).
  - intros v' s' _. apply collide_dir_inv.
  - intros v' s' _ Hs' ->. now apply collide_dir_hit.
  - intros v' s' _ _ Hne. apply collide_dir_miss. congruence.
  - intros v' _. destruct (decide (v' = v)); auto.
  - exists e. exact E.
  - exists v. split; [|reflexivity]. apply elem_of_seq. lia.
Qed.

Lemma collide_site_excluded (i j k : Z) (s : CollideState) :
  LatTyp g0 (i, j, k) = 2 \/ LatTyp g0 (i, j, k) = 3 ->
  collide_inv g0 s ->
  collide_site vs cfg i j k s = s.
Proof.
  intros Ht [e E]. unfold collide_site.
  replace (LatTyp (fst s) (i, j, k)) with (LatTyp g0 (i, j, k)) by now rewrite E.
  destruct Ht as [-> | ->]; reflexivity.
Qed.

End CollideSweep.

(** The sweep as one loop over the sites. *)
Lemma LBM_collide_sweep (vs : VelSet) (cfg : Config) (g : GridObj) :
  let s := for_each (sites (N_lim g) (M_lim g) (K_lim g))
             (fun '(i, j, k) => collide_site vs cfg i j k) (g, f g) in
  LBM_collide vs cfg g = set_f (snd s) (fst s).
Proof.
  unfold LBM_collide. rewrite for_sites_flat.
  destruct (for_each _ _ _) as [g' fn]. reflexivity.
Qed.

Lemma LBM_collide_inv (vs : VelSet) (cfg : Config) (g : GridObj) :
  exists e fn, LBM_collide vs cfg g = set_f fn (set_feq e g).
Proof.
  rewrite LBM_collide_sweep.
  assert (H : collide_inv g
                (for_each (sites (N_lim g) (M_lim g) (K_lim g))
                   (fun '(i, j, k) => collide_site vs cfg i j k) (g, f g))).
  { apply for_each_invariant.
    - intros [[i j] k] s _. apply collide_site_inv.
    - exists (feq g). apply set_feq_self. }
  destruct H as [e E]. exists e. eexists. rewrite E. reflexivity.
Qed.

(** C5. In a BGK build, the collision sweep assigns
    [f - omega (f - feq) + force_i] to every direction of every site of
    the grid whose type is neither 2 (covered by a finer grid) nor 3
    (transition site receiving from the coarser grid), with [feq] the
    equilibrium [rho w_v (1 + (c_v . u) / cs^2 + Q_v : u u / (2 cs^4))] of
    the density and the velocity of that site; the populations of the
    sites of type 2 and 3 are left as they were. *)
Theorem C5_bgk_collision (vs : VelSet) (cfg : Config) (g : GridObj) (x : Site) (v : nat) :
  (USE_MRT cfg = false ->
   dims vs = 2%nat \/ dims vs = 3%nat ->
   in_grid g x -> (v < nVels vs)%nat ->
   LatTyp g x <> CoveredByFiner -> LatTyp g x <> TransitionReceiveFromFiner ->
   f (LBM_collide vs cfg g) (x, v)
   = (f g (x, v)
      - omega g * (f g (x, v) - feq_spec vs (rho g x) (fun d => u g (x, d)) v)
      + force_i g (x, v))%Qc)
  /\ (LatTyp g x = CoveredByFiner \/ LatTyp g x = TransitionReceiveFromFiner ->
      f (LBM_collide vs cfg g) (x, v) = f g (x, v)).
Proof.
  rewrite LBM_collide_sweep. cbn zeta. split.
  - intros Hmrt Hd Hx Hv H2 H3.
    transitivity (bgk_value vs g x v).
    2:{ unfold bgk_value. destruct x as [[i j] k].
        rewrite (LBM_collide_feq_spec vs g i j k v Hd). ring. }
    apply (for_each_hit _ (collide_inv g)
             (fun s : CollideState => snd s (x, v)) (fun a => a = x)).
    + intros [[i j] k] s _. apply collide_site_inv.
    + intros [[i j] k] s _ Hs <-. now apply collide_site_hit.
    + intros [[i j] k] s _ _ Hne. apply collide_site_miss. congruence.
    + intros a _. destruct (decide (a = x)); auto.
    + exists (feq g). apply set_feq_self.
    + exists x. split; [|reflexivity]. now apply elem_of_sites.
  - intros Ht.
    transitivity (snd (g, f g) (x, v)); [|reflexivity].
    apply (for_each_miss _ (collide_inv g)
             (fun s : CollideState => snd s (x, v)) (fun _ => False)); auto.
    + intros [[i j] k] s _. apply collide_site_inv.
    + intros [[i j] k] s _ Hs _.
      destruct (decide ((i, j, k) = x)) as [<-|Hne].
      * now rewrite (collide_site_excluded vs cfg g).
      * apply collide_site_miss. congruence.
    + exists (feq g). apply set_feq_self.
Qed.

Lemma C5_bgk_collision_witness :
  f (LBM_collide D2Q9 (plain_cfg 0) relaxing_row) ((1, 0, 0)%Z, 4%nat)
  = (f relaxing_row ((1, 0, 0)%Z, 4%nat)
     - omega relaxing_row
       * (f relaxing_row ((1, 0, 0)%Z, 4%nat)
          - feq_spec D2Q9 (rho relaxing_row (1, 0, 0)%Z)
              (fun d => u relaxing_row ((1, 0, 0)%Z, d)) 4)
     + force_i relaxing_row ((1, 0, 0)%Z, 4%nat))%Qc
  /\ f (LBM_collide D2Q9 (plain_cfg 0) fine_block) ((0, 0, 0)%Z, 3%nat)
     = f fine_block ((0, 0, 0)%Z, 3%nat).
Proof.
  split.
  - apply (C5_bgk_collision D2Q9 (plain_cfg 0) relaxing_row (1, 0, 0) 4).
    + reflexivity.
    + left. reflexivity.
    + vm_compute. intuition discriminate.
    + vm_compute. lia.
    + discriminate.
    + discriminate.
  - apply (C5_bgk_collision D2Q9 (plain_cfg 0) fine_block (0, 0, 0) 3).
    right. reflexivity.
Defined.

(** C9 (as the code has it). A collision sweep, BGK or MRT, assigns the
    populations [f] and the stored equilibrium [feq] and nothing else:
    density, velocity, both force fields, the site types, the
    time-averages, the tick counter and the geometry are the same before
    and after. *)
Theorem C9_collision_frame (vs : VelSet) (cfg : Config) (g : GridObj) :
  let g' := LBM_collide vs cfg g in
  rho g' = rho g /\ u g' = u g
  /\ force_i g' = force_i g /\ force_xyz g' = force_xyz g
  /\ LatTyp g' = LatTyp g
  /\ rho_timeav g' = rho_timeav g /\ ui_timeav g' = ui_timeav g
  /\ uiuj_timeav g' = uiuj_timeav g
  /\ t g' = t g /\ level g' = level g /\ region_number g' = region_number g
  /\ omega g' = omega g /\ mrt_omega g' = mrt_omega g
  /\ N_lim g' = N_lim g /\ M_lim g' = M_lim g /\ K_lim g' = K_lim g
  /\ CoarseLimsX g' = CoarseLimsX g /\ CoarseLimsY g' = CoarseLimsY g
  /\ CoarseLimsZ g' = CoarseLimsZ g.
Proof.
  destruct (LBM_collide_inv vs cfg g) as (e & fn & E).
  cbn zeta. rewrite E. repeat split.
Qed.

(** C9 as stated fails: the sweep stores the equilibrium it computes, so
    the stored field [feq] differs after it. *)
Lemma C9_feq_is_written :
  feq (LBM_collide D2Q9 (plain_cfg 0) fluid_row) ((0, 0, 0)%Z, 0%nat)
  <> feq fluid_row ((0, 0, 0)%Z, 0%nat).
Proof.
  intros H. apply (f_equal this) in H. vm_compute in H. discriminate.
Qed.

(** ** Macroscopic recovery *)

(** Skip the assignments to other slots in front of a lookup. *)
Ltac skip_inserts :=
  repeat (etransitivity;
          [first [apply lookup_insert4_ne | apply lookup_insert3_ne]; congruence|]).


(** A loop that visits [x] once: [Q1] holds until the trip of [x], which
    establishes [Q2], and the other trips keep both. *)
Lemma for_each_two_phase {A S : Type} `{EqDecision A} (body : A -> S -> S) (x : A)
  (Q1 Q2 : S -> Prop) (l : list A) (s : S) :
  NoDup l -> x ∈ l ->
  (forall a s, a ∈ l -> a <> x -> Q1 s -> Q1 (body a s)) ->
  (forall s, Q1 s -> Q2 (body x s)) ->
  (forall a s, a ∈ l -> a <> x -> Q2 s -> Q2 (body a s)) ->
  Q1 s -> Q2 (for_each l body s).
Proof.
  revert s. induction l as [|a l IH]; intros s Hnd Hx H1 H12 H2 Hs.
  - inversion Hx.
  - apply NoDup_cons in Hnd as [Ha Hnd]. rewrite for_each_cons.
    destruct (decide (a = x)) as [->|Hne].
    + apply for_each_invariant; [|now apply H12].
      intros b s' Hb. apply H2; [now right|]. intros ->. contradiction.
    + apply IH; try assumption.
      * apply elem_of_cons in Hx as [->|Hx]; [contradiction|exact Hx].
      * intros b s' Hb. apply H1. now right.
      * intros b s' Hb. apply H2. now right.
      * apply H1; [now left|assumption..].
Qed.

Lemma NoDup_zrange (n : Z) : NoDup (zrange n).
Proof.
  unfold zrange. apply NoDup_fmap_2; [|apply NoDup_seq].
  intros a b. lia.
Qed.

Lemma NoDup_zrange_incl (lo hi : Z) : NoDup (zrange_incl lo hi).
Proof.
  unfold zrange_incl. apply NoDup_fmap_2; [|apply NoDup_seq].
  intros a b. lia.
Qed.

Lemma NoDup_triples (l1 l2 l3 : list Z) :
  NoDup l1 -> NoDup l2 -> NoDup l3 ->
  NoDup (i ← l1; j ← l2; k ← l3; [(i, j, k)]).
Proof.
  intros H1 H2 H3. apply NoDup_bind; [| |exact H1].
  - intros i1 i2 y _ _ Hy1 Hy2.
    apply list_elem_of_bind in Hy1 as (j1 & Hy1 & _).
    apply list_elem_of_bind in Hy1 as (k1 & Hy1 & _).
    apply list_elem_of_bind in Hy2 as (j2 & Hy2 & _).
    apply list_elem_of_bind in Hy2 as (k2 & Hy2 & _).
    apply list_elem_of_singleton in Hy1, Hy2. congruence.
  - intros i _. apply NoDup_bind; [| |exact H2].
    + intros j1 j2 y _ _ Hy1 Hy2.
      apply list_elem_of_bind in Hy1 as (k1 & Hy1 & _).
      apply list_elem_of_bind in Hy2 as (k2 & Hy2 & _).
      apply list_elem_of_singleton in Hy1, Hy2. congruence.
    + intros j _. apply NoDup_bind; [| |exact H3].
      * intros k1 k2 y _ _ Hy1 Hy2.
        apply list_elem_of_singleton in Hy1, Hy2. congruence.
      * intros k _. apply NoDup_singleton.
Qed.

Lemma NoDup_sites (N M K : Z) : NoDup (sites N M K).
Proof. apply NoDup_triples; apply NoDup_zrange. Qed.

Lemma NoDup_region_sites (X Y Zl : Z * Z) : NoDup (region_sites X Y Zl).
Proof. apply NoDup_triples; apply NoDup_zrange_incl. Qed.

Section MacroSite.

Variable vs : VelSet.

Lemma macro_rho_u_frame (i j k : Z) (g : GridObj) :
  exists r u', macro_rho_u vs i j k g = set_u u' (set_rho r g).
Proof.
  unfold macro_rho_u.
  destruct (LatTyp g (i, j, k) =? 2).
  { destruct (dims vs =? 3)%nat; eexists; eexists; reflexivity. }
  destruct (_ || _).
  { destruct (dims vs =? 3)%nat; eexists; eexists; reflexivity. }
  destruct (for_each _ _ _) as [[[fux fuy] fuz] rho_temp].
  destruct (dims vs =? 3)%nat; eexists; eexists; reflexivity.
Qed.

Lemma macro_rho_u_other (i j k : Z) (g : GridObj) (y : Site) :
  y <> (i, j, k) ->
  rho (macro_rho_u vs i j k g) y = rho g y
  /\ forall d, u (macro_rho_u vs i j k g) (y, d) = u g (y, d).
Proof.
  intros Hy. unfold macro_rho_u, write_u, write_rho.
  destruct (LatTyp g (i, j, k) =? 2).
  { destruct (dims vs =? 3)%nat; cbn;
      (split;
       [apply lookup_insert3_ne; congruence
       |intros d; skip_inserts; reflexivity]). }
  destruct (_ || _).
  { destruct (dims vs =? 3)%nat; cbn;
      (split;
       [apply lookup_insert3_ne; congruence
       |intros d; skip_inserts; reflexivity]). }
  destruct (for_each _ _ _) as [[[fux fuy] fuz] rho_temp].
  destruct (dims vs =? 3)%nat; cbn;
    (split;
     [apply lookup_insert3_ne; congruence
     |intros d; skip_inserts; reflexivity]).
Qed.

Lemma macro_rho_u_solid (i j k : Z) (g : GridObj) :
  dims vs = 2%nat \/ dims vs = 3%nat ->
  LatTyp g (i, j, k) = Solid \/ LatTyp g (i, j, k) = SolidVariant ->
  rho (macro_rho_u vs i j k g) (i, j, k) = 1%Qc
  /\ forall d, (d < dims vs)%nat -> u (macro_rho_u vs i j k g) (i, j, k, d) = 0%Qc.
Proof.
  intros Hd Ht. unfold macro_rho_u, write_u, write_rho.
  replace (LatTyp g (i, j, k) =? 2) with false
    by (destruct Ht as [-> | ->]; reflexivity).
  replace ((LatTyp g (i, j, k) =? 0) || (LatTyp g (i, j, k) =? 5)) with true
    by (destruct Ht as [-> | ->]; reflexivity).
  destruct Hd as [Hd|Hd]; rewrite Hd; cbn; (split; [apply lookup_insert3|]);
    intros d Hlt.
  - destruct d as [|[|d]]; [| |lia].
    + skip_inserts. apply lookup_insert4.
    + apply lookup_insert4.
  - destruct d as [|[|[|d]]]; [| | |lia].
    + skip_inserts. apply lookup_insert4.
    + skip_inserts. apply lookup_insert4.
    + apply lookup_insert4.
Qed.

End MacroSite.

Lemma set_timeav_self (ra : IVector3 Qc) (g : GridObj) :
  set_rho_timeav ra g
  = set_uiuj_timeav (uiuj_timeav g) (set_ui_timeav (ui_timeav g) (set_rho_timeav ra g)).
Proof. destruct g. reflexivity. Qed.

Section MacroTimeav.

Variable vs : VelSet.

(** The time-average pass of site [(i,j,k)] assigns the three
    time-average arrays, at that site only. *)
Lemma macro_timeav_frame (i j k : Z) (g : GridObj) :
  exists ra ua uua,
    macro_timeav vs i j k g
    = set_uiuj_timeav uua (set_ui_timeav ua (set_rho_timeav ra g))
    /\ forall y : Site, y <> (i, j, k) ->
       ra y = rho_timeav g y
       /\ forall d, ua (y, d) = ui_timeav g (y, d) /\ uua (y, d) = uiuj_timeav g (y, d).
Proof.
  unfold macro_timeav.
  set (J := fun s : nat * GridObj =>
    exists ra ua uua,
      snd s = set_uiuj_timeav uua (set_ui_timeav ua (set_rho_timeav ra g))
      /\ forall y : Site, y <> (i, j, k) ->
         ra y = rho_timeav g y
         /\ forall d, ua (y, d) = ui_timeav g (y, d)
                      /\ uua (y, d) = uiuj_timeav g (y, d)).
  apply (for_each_invariant _ J).
  - intros p [c g1] _ HJ.
    apply (for_each_invariant _ J).
    + intros q [c' g2] _ (ra & ua & uua & E & H). cbn [snd] in E. subst g2.
      exists ra, ua. eexists. split; [reflexivity|].
      intros y Hy. destruct (H y Hy) as [H1 H2]. split; [exact H1|].
      intros d. destruct (H2 d) as [H3 H4]. split; [exact H3|].
      cbn. skip_inserts. exact H4.
    + destruct HJ as (ra & ua & uua & E & H). cbn [snd] in E. subst g1.
      exists ra. eexists. exists uua. split; [reflexivity|].
      intros y Hy. destruct (H y Hy) as [H1 H2]. split; [exact H1|].
      intros d. destruct (H2 d) as [H3 H4]. split; [|exact H4].
      cbn. skip_inserts. exact H3.
  - exists (<[ (i, j, k) :=
                timeav_update (rho_timeav g (i, j, k)) (t g) (rho g (i, j, k)) ]>
              (rho_timeav g)), (ui_timeav g), (uiuj_timeav g). split.
    + cbn [snd]. apply set_timeav_self.
    + intros y Hy. split; [|intros d; split; reflexivity].
      apply lookup_insert3_ne. congruence.
Qed.

(** The values it assigns at its own site. *)
Lemma macro_timeav_at (i j k : Z) (g : GridObj) :
  dims vs = 2%nat \/ dims vs = 3%nat ->
  let g' := macro_timeav vs i j k g in
  rho_timeav g' (i, j, k)
  = timeav_update (rho_timeav g (i, j, k)) (t g) (rho g (i, j, k))
  /\ (forall d, (d < dims vs)%nat ->
      ui_timeav g' (i, j, k, d)
      = timeav_update (ui_timeav g (i, j, k, d)) (t g) (u g (i, j, k, d)))
  /\ (forall p q, (p <= q < dims vs)%nat ->
      uiuj_timeav g' (i, j, k, ta_index vs p q)
      = timeav_update (uiuj_timeav g (i, j, k, ta_index vs p q)) (t g)
          (u g (i, j, k, p) * u g (i, j, k, q))%Qc).
Proof.
  intros Hd. unfold macro_timeav, ta_index.
  destruct Hd as [Hd|Hd]; rewrite Hd;
    cbv beta iota zeta delta [for_each fold_left seq Nat.sub snd fst
         rho_timeav ui_timeav uiuj_timeav rho u t
         set_rho_timeav set_ui_timeav set_uiuj_timeav];
    (split; [apply lookup_insert3|]); split.
  - intros d Hlt. destruct d as [|[|d]]; [| |lia].
    all: skip_inserts; (etransitivity; [apply lookup_insert4|]).
    all: f_equal; skip_inserts; reflexivity.
  - intros p q Hpq.
    assert (Hc : ((p = 0 /\ q = 0) \/ (p = 0 /\ q = 1) \/ (p = 1 /\ q = 1))%nat) by lia.
    destruct Hc as [[-> ->]|[[-> ->]|[-> ->]]]; cbn [Nat.mul Nat.sub Nat.add Nat.div Nat.divmod fst].
    all: skip_inserts; (etransitivity; [apply lookup_insert4|]).
    all: f_equal; skip_inserts; reflexivity.
  - intros d Hlt. destruct d as [|[|[|d]]]; [| | |lia].
    all: skip_inserts; (etransitivity; [apply lookup_insert4|]).
    all: f_equal; skip_inserts; reflexivity.
  - intros p q Hpq.
    assert (Hc : ((p = 0 /\ q = 0) \/ (p = 0 /\ q = 1) \/ (p = 0 /\ q = 2)
                 \/ (p = 1 /\ q = 1) \/ (p = 1 /\ q = 2) \/ (p = 2 /\ q = 2))%nat) by lia.
    destruct Hc as [[-> ->]|[[-> ->]|[[-> ->]|[[-> ->]|[[-> ->]|[-> ->]]]]]]; cbn [Nat.mul Nat.sub Nat.add Nat.div Nat.divmod fst].
    all: skip_inserts; (etransitivity; [apply lookup_insert4|]).
    all: f_equal; skip_inserts; reflexivity.
Qed.

End MacroTimeav.

Section MacroSweep.

Variable vs : VelSet.

(** What one trip of the macroscopic sweep leaves alone. *)
Lemma macro_trip_frame (i j k : Z) (g : GridObj) :
  let g' := macro_timeav vs i j k (macro_rho_u vs i j k g) in
  LatTyp g' = LatTyp g /\ t g' = t g
  /\ rho g' = rho (macro_rho_u vs i j k g) /\ u g' = u (macro_rho_u vs i j k g).
Proof.
  cbn zeta.
  destruct (macro_timeav_frame vs i j k (macro_rho_u vs i j k g))
    as (ra & ua & uua & -> & _).
  destruct (macro_rho_u_frame vs i j k g) as (r & u' & ->).
  repeat split.
Qed.

Lemma macro_trip_other (i j k : Z) (g : GridObj) (y : Site) :
  y <> (i, j, k) ->
  let g' := macro_timeav vs i j k (macro_rho_u vs i j k g) in
  rho g' y = rho g y
  /\ rho_timeav g' y = rho_timeav g y
  /\ forall d, u g' (y, d) = u g (y, d)
               /\ ui_timeav g' (y, d) = ui_timeav g (y, d)
               /\ uiuj_timeav g' (y, d) = uiuj_timeav g (y, d).
Proof.
  intros Hy. cbn zeta.
  destruct (macro_trip_frame i j k g) as (_ & _ & Er & Eu). cbn zeta in Er, Eu.
  rewrite Er, Eu.
  destruct (macro_rho_u_other vs i j k g y Hy) as [Hr Hu].
  destruct (macro_timeav_frame vs i j k (macro_rho_u vs i j k g))
    as (ra & ua & uua & -> & H).
  destruct (H y Hy) as [H1 H2].
  destruct (macro_rho_u_frame vs i j k g) as (r & u' & E). rewrite E in *.
  split; [exact Hr|]. split; [exact H1|].
  intros d. destruct (H2 d) as [H3 H4]. split; [apply Hu|]. split; assumption.
Qed.

Lemma LBM_macro_sweep (g : GridObj) :
  LBM_macro vs g
  = for_each (sites (N_lim g) (M_lim g) (K_lim g))
      (fun '(i, j, k) g => macro_timeav vs i j k (macro_rho_u vs i j k g)) g.
Proof. unfold LBM_macro. apply for_sites_flat. Qed.

Lemma LBM_macro_solid (g : GridObj) (x : Site) :
  dims vs = 2%nat \/ dims vs = 3%nat ->
  in_grid g x ->
  LatTyp g x = Solid \/ LatTyp g x = SolidVariant ->
  rho (LBM_macro vs g) x = 1%Qc
  /\ forall d, (d < dims vs)%nat -> u (LBM_macro vs g) (x, d) = 0%Qc.
Proof.
  intros Hd Hx Ht. rewrite LBM_macro_sweep.
  apply (for_each_two_phase _ x
           (fun s => LatTyp s = LatTyp g)
           (fun s => rho s x = 1%Qc
                     /\ forall d, (d < dims vs)%nat -> u s (x, d) = 0%Qc)).
  - apply NoDup_sites.
  - now apply elem_of_sites.
  - intros [[i j] k] s _ _ Hs.
    destruct (macro_trip_frame i j k s) as (-> & _). exact Hs.
  - destruct x as [[i j] k]. intros s Hs.
    destruct (macro_trip_frame i j k s) as (_ & _ & -> & ->).
    apply macro_rho_u_solid; [exact Hd|]. now rewrite Hs.
  - intros [[i j] k] s _ Hne [Hr Hu].
    destruct (macro_trip_other i j k s x) as (-> & _ & H); [congruence|].
    split; [exact Hr|]. intros d Hlt. destruct (H d) as [-> _]. now apply Hu.
  - reflexivity.
Qed.

Lemma LBM_macro_timeav (g : GridObj) (x : Site) :
  dims vs = 2%nat \/ dims vs = 3%nat ->
  in_grid g x ->
  let g' := LBM_macro vs g in
  rho_timeav g' x = timeav_update (rho_timeav g x) (t g) (rho g' x)
  /\ (forall d, (d < dims vs)%nat ->
      ui_timeav g' (x, d) = timeav_update (ui_timeav g (x, d)) (t g) (u g' (x, d)))
  /\ (forall p q, (p <= q < dims vs)%nat ->
      uiuj_timeav g' (x, ta_index vs p q)
      = timeav_update (uiuj_timeav g (x, ta_index vs p q)) (t g)
          (u g' (x, p) * u g' (x, q))%Qc).
Proof.
  intros Hd Hx. cbn zeta. rewrite LBM_macro_sweep.
  apply (for_each_two_phase _ x
           (fun s => t s = t g /\ rho_timeav s x = rho_timeav g x
                     /\ forall d, ui_timeav s (x, d) = ui_timeav g (x, d)
                                  /\ uiuj_timeav s (x, d) = uiuj_timeav g (x, d))
           (fun s =>
              rho_timeav s x = timeav_update (rho_timeav g x) (t g) (rho s x)
              /\ (forall d, (d < dims vs)%nat ->
                  ui_timeav s (x, d)
                  = timeav_update (ui_timeav g (x, d)) (t g) (u s (x, d)))
              /\ (forall p q, (p <= q < dims vs)%nat ->
                  uiuj_timeav s (x, ta_index vs p q)
                  = timeav_update (uiuj_timeav g (x, ta_index vs p q)) (t g)
                      (u s (x, p) * u s (x, q))%Qc))).
  - apply NoDup_sites.
  - now apply elem_of_sites.
  - intros [[i j] k] s _ Hne (Ht & Hr & H).
    destruct (macro_trip_frame i j k s) as (_ & -> & _).
    destruct (macro_trip_other i j k s x) as (_ & -> & H'); [congruence|].
    split; [exact Ht|]. split; [exact Hr|].
    intros d. destruct (H' d) as (_ & -> & ->). apply H.
  - destruct x as [[i j] k]. intros s (Ht & Hr & H). cbv beta iota.
    destruct (macro_trip_frame i j k s) as (_ & _ & -> & ->).
    destruct (macro_timeav_at vs i j k (macro_rho_u vs i j k s) Hd) as (E1 & E2 & E3).
    cbn zeta in E1, E2, E3.
    destruct (macro_rho_u_frame vs i j k s) as (r & u' & E).
    assert (Ht' : t (macro_rho_u vs i j k s) = t g) by now rewrite E.
    assert (Hr' : rho_timeav (macro_rho_u vs i j k s) (i, j, k) = rho_timeav g (i, j, k))
      by now rewrite E.
    assert (H' : forall d,
               ui_timeav (macro_rho_u vs i j k s) (i, j, k, d) = ui_timeav g (i, j, k, d)
               /\ uiuj_timeav (macro_rho_u vs i j k s) (i, j, k, d)
                  = uiuj_timeav g (i, j, k, d))
      by (rewrite E; exact H).
    rewrite Ht', Hr' in E1. split; [exact E1|]. split.
    + intros d Hlt. rewrite (E2 d Hlt), Ht'. destruct (H' d) as [-> _]. reflexivity.
    + intros p q Hpq. rewrite (E3 p q Hpq), Ht'.
      destruct (H' (ta_index vs p q)) as [_ ->]. reflexivity.
  - intros [[i j] k] s _ Hne (Hr & Hu & Huu).
    destruct (macro_trip_other i j k s x) as (-> & -> & H'); [congruence|].
    split; [exact Hr|]. split.
    + intros d Hlt. destruct (H' d) as (-> & -> & _). now apply Hu.
    + intros p q Hpq. destruct (H' (ta_index vs p q)) as (_ & _ & ->).
      destruct (H' p) as (-> & _). destruct (H' q) as (-> & _). now apply Huu.
  - repeat split.
Qed.

End MacroSweep.

(** An [int] operation whose value is an [int] leaves that value. *)
Lemma int_wrap_small (z : Z) : -2147483648 <= z <= INT_MAX -> int_wrap z = z.
Proof.
  unfold int_wrap, INT_MAX. intros Hz.
  rewrite Z.mod_small by lia. lia.
Qed.

(** Below [INT_MAX] the update is the incremental mean. *)
Lemma timeav_update_small (avg : Qc) (t_ : Z) (x : Qc) :
  0 <= t_ < INT_MAX ->
  timeav_update avg t_ x = ((avg * Z2Qc t_ + x) / Z2Qc (t_ + 1))%Qc.
Proof.
  intros Ht. unfold timeav_update. cbv zeta.
  rewrite int_wrap_small by (unfold INT_MAX in *; lia). reflexivity.
Qed.

(** The incremental mean of a constant is that constant. *)
Lemma timeav_update_const (v : Qc) (t_ : Z) :
  0 <= t_ < INT_MAX -> timeav_update v t_ v = v.
Proof.
  intros Ht. rewrite timeav_update_small by exact Ht. destruct Ht as [Ht _].
  assert (E : Z2Qc (t_ + 1) = (Z2Qc t_ + 1)%Qc).
  { apply Qc_is_canon. unfold Z2Qc. cbn. rewrite !Qred_correct.
    rewrite inject_Z_plus. reflexivity. }
  assert (Hne : Z2Qc (t_ + 1) <> 0%Qc).
  { intros H. apply (f_equal this) in H. unfold Z2Qc in H. cbn in H.
    assert (H' : (inject_Z (t_ + 1) == 0)%Q) by (rewrite <- Qred_correct, H; reflexivity).
    unfold Qeq in H'. cbn in H'. lia. }
  rewrite <- (Qcmult_1_r v) at 2.
  replace (v * Z2Qc t_ + v * 1)%Qc with (v * Z2Qc (t_ + 1))%Qc by (rewrite E; ring).
  unfold Qcdiv. rewrite <- Qcmult_assoc, Qcmult_inv_r by exact Hne. ring.
Qed.

Lemma timeav_feed_const (v : Qc) (xs : list Qc) (t_ : Z) :
  0 <= t_ -> t_ + Z.of_nat (length xs) <= INT_MAX ->
  Forall (fun x => x = v) xs -> timeav_feed v t_ xs = v.
Proof.
  revert t_. induction xs as [|x xs IH]; intros t_ Ht Hb Hxs.
  - reflexivity.
  - inversion Hxs; subst. cbn [timeav_feed]. cbn [length] in Hb.
    rewrite timeav_update_const by lia.
    apply IH; [lia|lia|assumption].
Qed.

(** C7. Macroscopic recovery of a site of type 0 (solid) or 5 (solid
    variant) yields density 1 and zero velocity whatever its populations
    are, both in the sweep over the grid and through the single-site
    entry point. *)
Theorem C7_solid_macro (vs : VelSet) (g : GridObj) (i j k : Z) :
  dims vs = 2%nat \/ dims vs = 3%nat ->
  LatTyp g (i, j, k) = Solid \/ LatTyp g (i, j, k) = SolidVariant ->
  (in_grid g (i, j, k) ->
   rho (LBM_macro vs g) (i, j, k) = 1%Qc
   /\ forall d, (d < dims vs)%nat -> u (LBM_macro vs g) (i, j, k, d) = 0%Qc)
  /\ (rho (LBM_macro_site vs i j k g) (i, j, k) = 1%Qc
      /\ forall d, (d < dims vs)%nat ->
           u (LBM_macro_site vs i j k g) (i, j, k, d) = 0%Qc).
Proof.
  intros Hd Ht. split.
  - intros Hx. now apply LBM_macro_solid.
  - unfold LBM_macro_site. now apply macro_rho_u_solid.
Qed.

Lemma C7_solid_macro_witness :
  (rho (LBM_macro D2Q9 solid_row) (1, 0, 0) = 1%Qc
   /\ u (LBM_macro D2Q9 solid_row) (1, 0, 0, 1%nat) = 0%Qc)
  /\ (rho (LBM_macro_site D2Q9 1 0 0 solid_row) (1, 0, 0) = 1%Qc
      /\ u (LBM_macro_site D2Q9 1 0 0 solid_row) (1, 0, 0, 1%nat) = 0%Qc).
Proof.
  destruct (C7_solid_macro D2Q9 solid_row 1 0 0) as [H1 H2].
  - left. reflexivity.
  - right. reflexivity.
  - destruct H1 as [Hr Hu].
    + vm_compute. intuition discriminate.
    + destruct H2 as [Hr' Hu']. split; split.
      * exact Hr.
      * apply Hu. cbn. lia.
      * exact Hr'.
      * apply Hu'. cbn. lia.
Defined.

(** C8 (as the code has it). While the tick counter [t] is below
    [INT_MAX], the macroscopic sweep at tick [t] replaces every running
    average by [(avg * t + x) / (t + 1)], where [x] is the new density,
    the new velocity component, or the product of two new velocity
    components (one slot per pair [p <= q]); and feeding the same value
    [v] into this update tick after tick, starting from the average [v],
    leaves [v] as long as the ticks stay within the range of an [int]. *)
Theorem C8_time_average (vs : VelSet) (g : GridObj) (x : Site) :
  dims vs = 2%nat \/ dims vs = 3%nat ->
  in_grid g x ->
  0 <= t g < INT_MAX ->
  let g' := LBM_macro vs g in
  (rho_timeav g' x
   = ((rho_timeav g x * Z2Qc (t g) + rho g' x) / Z2Qc (t g + 1))%Qc
   /\ (forall d, (d < dims vs)%nat ->
       ui_timeav g' (x, d)
       = ((ui_timeav g (x, d) * Z2Qc (t g) + u g' (x, d)) / Z2Qc (t g + 1))%Qc)
   /\ (forall p q, (p <= q < dims vs)%nat ->
       uiuj_timeav g' (x, ta_index vs p q)
       = ((uiuj_timeav g (x, ta_index vs p q) * Z2Qc (t g)
           + u g' (x, p) * u g' (x, q)) / Z2Qc (t g + 1))%Qc))
  /\ (forall (v : Qc) (t_ : Z) (xs : list Qc),
      0 <= t_ -> t_ + Z.of_nat (length xs) <= INT_MAX ->
      Forall (fun x => x = v) xs ->
      (t_ < INT_MAX -> timeav_update v t_ v = v) /\ timeav_feed v t_ xs = v).
Proof.
  intros Hd Hx Ht. split.
  - destruct (LBM_macro_timeav vs g x Hd Hx) as (H1 & H2 & H3). cbn zeta in *.
    split; [|split].
    + rewrite H1. now apply timeav_update_small.
    + intros d Hlt. rewrite (H2 d Hlt). now apply timeav_update_small.
    + intros p q Hpq. rewrite (H3 p q Hpq). now apply timeav_update_small.
  - intros v t_ xs Ht0 Hb Hxs. split.
    + intros Hlt. apply timeav_update_const. lia.
    + now apply timeav_feed_const.
Qed.

Lemma C8_time_average_witness :
  rho_timeav (LBM_macro D2Q9 fluid_row) (1, 0, 0)
  = ((rho_timeav fluid_row (1, 0, 0)%Z * Z2Qc (t fluid_row)
      + rho (LBM_macro D2Q9 fluid_row) (1, 0, 0)%Z) / Z2Qc (t fluid_row + 1))%Qc
  /\ timeav_feed (Z2Qc 5) 3 [Z2Qc 5; Z2Qc 5; Z2Qc 5] = Z2Qc 5.
Proof.
  destruct (C8_time_average D2Q9 fluid_row (1, 0, 0)) as [H1 H2].
  - left. reflexivity.
  - vm_compute. intuition discriminate.
  - vm_compute. split; [discriminate|reflexivity].
  - split.
    + apply H1.
    + apply (H2 (Z2Qc 5) 3 [Z2Qc 5; Z2Qc 5; Z2Qc 5]).
      * lia.
      * vm_compute. discriminate.
      * repeat constructor.
Defined.

(** C8 as stated fails at the last tick an [int] counts: there [t + 1]
    wraps to [INT_MIN], and the running average 1 of a solid site, whose
    density is 1 again, becomes -1 instead of staying
    [(1 * t + 1) / (t + 1) = 1]. *)
Lemma C8_tick_overflow :
  rho_timeav (LBM_macro D2Q9 late_row) (0, 0, 0)
  <> ((rho_timeav late_row (0, 0, 0)%Z * Z2Qc (t late_row)
       + rho (LBM_macro D2Q9 late_row) (0, 0, 0)%Z) / Z2Qc (t late_row + 1))%Qc.
Proof.
  intros H. apply (f_equal this) in H. vm_compute in H. discriminate.
Qed.

(** ** Refinement coupling *)

Lemma set_f_self (g : GridObj) : g = set_f (f g) g.
Proof. destruct g. reflexivity. Qed.

(** A coarse site covers 2^dims fine sites. *)
Lemma covered_length (vs : VelSet) (fGrid : GridObj) (x : Site) :
  dims vs = 2%nat \/ dims vs = 3%nat ->
  length (covered vs fGrid x) = (2 ^ dims vs)%nat.
Proof.
  intros Hd. destruct x as [[i j] k]. unfold covered, getFineIndices, siblings.
  destruct Hd as [-> | ->]; reflexivity.
Qed.

(** Two coarse sites of a region cover disjoint sets of fine sites. *)
Lemma covered_disjoint (vs : VelSet) (fGrid : GridObj) (a x s : Site) :
  dims vs = 2%nat \/ dims vs = 3%nat ->
  region_ok vs fGrid ->
  in_region fGrid a -> in_region fGrid x ->
  s ∈ covered vs fGrid a -> s ∈ covered vs fGrid x -> a = x.
Proof.
  intros Hd Hok Ha Hx Hsa Hsx.
  destruct a as [[i j] k], x as [[i' j'] k'], s as [[si sj] sk].
  unfold covered, getFineIndices, siblings in Hsa, Hsx.
  unfold in_region in Ha, Hx. unfold region_ok in Hok.
  assert (Hk : dims vs = 2%nat -> k = k').
  { intros E. destruct Hok as [Hok|Hok]; [congruence|lia]. }
  apply list_elem_of_In in Hsa, Hsx.
  destruct Hd as [Hd|Hd]; rewrite Hd in *; cbn [Nat.eqb In] in Hsa, Hsx.
  - specialize (Hk eq_refl). destruct_or!; try contradiction; simplify_eq;
      (assert (i = i') by lia); (assert (j = j') by lia); congruence.
  - clear Hk. destruct_or!; try contradiction; simplify_eq;
      (assert (i = i') by lia); (assert (j = j') by lia); (assert (k = k') by lia);
      congruence.
Qed.

Section Explode.

Variable vs : VelSet.

(** The coarse grid and the fine grid before the explosion. *)
Variable g fG0 : GridObj.

Lemma write_f_inv (s : Site) (v : nat) (x : Qc) (fG : GridObj) :
  (exists fn, fG = set_f fn fG0) -> exists fn, write_f s v x fG = set_f fn fG0.
Proof. intros [fn ->]. eexists. reflexivity. Qed.

Lemma explode_site_inv (i j k : Z) (fG : GridObj) :
  (exists fn, fG = set_f fn fG0) ->
  exists fn, explode_site vs g i j k fG = set_f fn fG0.
Proof.
  intros H. unfold explode_site.
  destruct (LatTyp g (i, j, k) =? 4); [|exact H].
  cbn. destruct (LatTyp fG _ =? 3); [|exact H].
  apply (for_each_invariant _ (fun fG => exists fn, fG = set_f fn fG0)); [|exact H].
  intros v fG1 _ H1.
  apply (for_each_invariant _ (fun fG => exists fn, fG = set_f fn fG0)); [|exact H1].
  intros s fG2 _. apply write_f_inv.
Qed.

(** The gate of the explosion of coarse site [x]. *)
Lemma explode_site_gated (x : Site) (fG : GridObj) (s : Site) (v : nat) :
  (exists fn, fG = set_f fn fG0) ->
  LatTyp g x = TransitionToCoarser ->
  LatTyp fG0 (first_sibling fG0 x) = TransitionReceiveFromFiner ->
  s ∈ covered vs fG0 x -> (v < nVels vs)%nat ->
  f ((let '(i, j, k) := x in explode_site vs g i j k) fG) (s, v) = f g (x, v).
Proof.
  intros [fn ->] H4 H3 Hs Hv. destruct x as [[i j] k].
  unfold explode_site. rewrite H4. cbn [Z.eqb Pos.eqb].
  unfold first_sibling in H3. unfold covered in Hs.
  cbn [CoarseLimsX CoarseLimsY CoarseLimsZ set_f LatTyp].
  destruct (getFineIndices _ _ _ _ _ _) as [[fi fj] fk].
  rewrite H3. cbn [Z.eqb Pos.eqb].
  apply (for_each_hit _ (fun _ => True) (fun fG : GridObj => f fG (s, v))
           (fun v' => v' = v)); auto.
  - intros v' fG _ _ ->.
    apply (for_each_hit _ (fun _ => True) (fun fG : GridObj => f fG (s, v))
             (fun s' => s' = s)); auto.
    + intros s' fG' _ _ ->. apply lookup_insert4.
    + intros s' fG' _ _ Hne. apply lookup_insert4_ne. congruence.
    + intros s' _. destruct (decide (s' = s)); auto.
    + exists s. split; [exact Hs|reflexivity].
  - intros v' fG _ _ Hne.
    apply (for_each_miss _ (fun _ => True) (fun fG : GridObj => f fG (s, v))
             (fun _ => False)); auto.
    intros s' fG' _ _ _. apply lookup_insert4_ne. congruence.
  - intros v' _. destruct (decide (v' = v)); auto.
  - exists v. split; [|reflexivity]. apply elem_of_seq. lia.
Qed.

Lemma explode_site_closed (x : Site) (fG : GridObj) (q : Site * nat) :
  (exists fn, fG = set_f fn fG0) ->
  LatTyp g x <> TransitionToCoarser
  \/ LatTyp fG0 (first_sibling fG0 x) <> TransitionReceiveFromFiner
  \/ q.1 ∉ covered vs fG0 x ->
  f ((let '(i, j, k) := x in explode_site vs g i j k) fG) q = f fG q.
Proof.
  intros [fn ->] H. destruct x as [[i j] k]. unfold explode_site.
  destruct (Z.eqb_spec (LatTyp g (i, j, k)) 4) as [E4|N4]; [|reflexivity].
  unfold first_sibling, covered in H.
  cbn [CoarseLimsX CoarseLimsY CoarseLimsZ set_f LatTyp].
  destruct (getFineIndices _ _ _ _ _ _) as [[fi fj] fk].
  destruct (Z.eqb_spec (LatTyp fG0 (fi, fj, fk)) 3) as [E3|N3]; [|reflexivity].
  destruct H as [H|[H|H]]; [contradiction..|].
  apply (for_each_miss _ (fun _ => True) (fun fG : GridObj => f fG q)
           (fun _ => False)); auto.
  intros v' fG _ _ _.
  apply (for_each_miss _ (fun _ => True) (fun fG : GridObj => f fG q)
           (fun _ => False)); auto.
  intros s' fG' Hs' _ _. apply lookup_insert4_ne.
  intros E. apply H. rewrite <- E. exact Hs'.
Qed.

End Explode.

Lemma LBM_explode_sweep (vs : VelSet) (g fGrid : GridObj) :
  LBM_explode vs g fGrid
  = for_each (region_sites (CoarseLimsX fGrid) (CoarseLimsY fGrid) (CoarseLimsZ fGrid))
      (fun '(i, j, k) => explode_site vs g i j k) fGrid.
Proof. unfold LBM_explode. apply for_region_flat. Qed.

(** C2 (as the code has it). For a coarse site of type 4 (transition to
    the finer grid) inside the region of a child, the explosion is gated
    by the type of the first covered fine sibling alone: if that sibling
    has type 3 (receiving), every population component of the coarse site
    is copied unchanged into each of the 2^dims covered siblings, whatever
    their own types are; otherwise none of them is changed. *)
Theorem C2_explode (vs : VelSet) (g fGrid : GridObj) (x s : Site) (v : nat) :
  dims vs = 2%nat \/ dims vs = 3%nat ->
  region_ok vs fGrid ->
  in_region fGrid x ->
  LatTyp g x = TransitionToCoarser ->
  s ∈ covered vs fGrid x -> (v < nVels vs)%nat ->
  length (covered vs fGrid x) = (2 ^ dims vs)%nat
  /\ f (LBM_explode vs g fGrid) (s, v)
     = if LatTyp fGrid (first_sibling fGrid x) =? TransitionReceiveFromFiner
       then f g (x, v) else f fGrid (s, v).
Proof.
  intros Hd Hok Hx H4 Hs Hv. split; [now apply covered_length|].
  rewrite LBM_explode_sweep.
  destruct (Z.eqb_spec (LatTyp fGrid (first_sibling fGrid x)) TransitionReceiveFromFiner)
    as [E3|N3].
  - apply (for_each_hit _ (fun fG => exists fn, fG = set_f fn fGrid)
             (fun fG : GridObj => f fG (s, v)) (fun a => a = x)).
    + intros [[i j] k] fG _. apply explode_site_inv.
    + intros a fG _ HfG ->.
      apply (explode_site_gated vs g fGrid x fG s v); assumption.
    + intros a fG Ha HfG Hne.
      assert (Hcl := explode_site_closed vs g fGrid a fG (s, v) HfG).
      destruct a as [[i j] k]. apply Hcl. right. right. cbn [fst].
      intros Hsa. apply Hne.
      apply (covered_disjoint vs fGrid (i, j, k) x s); try assumption.
      now apply elem_of_region_sites.
    + intros a _. destruct (decide (a = x)); auto.
    + exists (f fGrid). apply set_f_self.
    + exists x. split; [|reflexivity]. now apply elem_of_region_sites.
  - apply (for_each_miss _ (fun fG => exists fn, fG = set_f fn fGrid)
             (fun fG : GridObj => f fG (s, v)) (fun _ => False)); auto.
    + intros [[i j] k] fG _. apply explode_site_inv.
    + intros a fG Ha HfG _.
      assert (Hcl := explode_site_closed vs g fGrid a fG (s, v) HfG).
      destruct a as [[i j] k]. apply Hcl.
      destruct (decide ((i, j, k) = x)) as [->|Hne]; [right; left; exact N3|].
      right. right. cbn [fst]. intros Hsa. apply Hne.
      apply (covered_disjoint vs fGrid (i, j, k) x s); try assumption.
      now apply elem_of_region_sites.
    + exists (f fGrid). apply set_f_self.
Qed.

Lemma C2_explode_witness :
  length (covered D2Q9 fine_block (0, 0, 0)) = 4%nat
  /\ f (LBM_explode D2Q9 coarse_cell fine_block) (1, 1, 0, 2%nat)
     = f coarse_cell (0, 0, 0, 2%nat).
Proof.
  apply (C2_explode D2Q9 coarse_cell fine_block (0, 0, 0) (1, 1, 0) 2).
  - left. reflexivity.
  - right. reflexivity.
  - vm_compute. intuition discriminate.
  - reflexivity.
  - vm_compute. do 3 right. left.
  - vm_compute. lia.
Defined.

(** C2 as stated fails: a covered sibling that does not carry type 3 is
    overwritten when the first sibling carries it. *)
Lemma C2_untagged_sibling_overwritten :
  LatTyp coarse_cell (0, 0, 0) = TransitionToCoarser
  /\ in_region fine_block (0, 0, 0)
  /\ (1, 0, 0) ∈ covered D2Q9 fine_block (0, 0, 0)
  /\ LatTyp fine_block (1, 0, 0) <> TransitionReceiveFromFiner
  /\ f (LBM_explode D2Q9 coarse_cell fine_block) (1, 0, 0, 0%nat)
     <> f fine_block (1, 0, 0, 0%nat).
Proof.
  split; [reflexivity|]. split; [vm_compute; intuition discriminate|].
  split; [vm_compute; right; left|]. split; [discriminate|].
  intros H. apply (f_equal this) in H. vm_compute in H. discriminate.
Qed.

(** The quotient the coalesce computes is the mean over the covered
    siblings. *)
Lemma sibling_mean (vs : VelSet) (fGrid : GridObj) (i j k : Z) (v : nat) :
  dims vs = 2%nat \/ dims vs = 3%nat ->
  (let '(fi, fj, fk) := first_sibling fGrid (i, j, k) in
   sibling_sum vs fGrid fi fj fk v / Qcpower (Z2Qc 2) (dims vs))%Qc
  = mean (map (fun s => f fGrid (s, v)) (covered vs fGrid (i, j, k))).
Proof.
  intros Hd. unfold first_sibling, covered, getFineIndices, sibling_sum, siblings, mean.
  destruct Hd as [Hd|Hd]; rewrite Hd; cbn [Nat.eqb map length fold_right for_each fold_left];
    unfold Qcdiv; f_equal; try ring; f_equal; apply Qc_is_canon; reflexivity.
Qed.

Section Coalesce.

Variable vs : VelSet.

(** The fine grid, and the coarse grid before the coalesce. *)
Variable fGrid g0 : GridObj.

(** The value the coalesce leaves in direction [v] of coarse site [x]. *)
Lemma coalesce_site_inv (i j k : Z) (g : GridObj) :
  (exists fn, g = set_f fn g0) ->
  exists fn, coalesce_site vs fGrid i j k g = set_f fn g0.
Proof.
  intros H. unfold coalesce_site.
  destruct (_ || _); [|exact H].
  destruct (getFineIndices _ _ _ _ _ _) as [[fi fj] fk].
  apply (for_each_invariant _ (fun g => exists fn, g = set_f fn g0)); [|exact H].
  intros v g1 _ [fn ->]. destruct (decide _); eexists; reflexivity.
Qed.

Lemma coalesce_site_other (i j k : Z) (g : GridObj) (q : Site * nat) :
  q.1 <> (i, j, k) -> f (coalesce_site vs fGrid i j k g) q = f g q.
Proof.
  intros Hq. unfold coalesce_site.
  destruct (_ || _); [|reflexivity].
  destruct (getFineIndices _ _ _ _ _ _) as [[fi fj] fk].
  apply (for_each_miss _ (fun _ => True) (fun g : GridObj => f g q)
           (fun _ => False)); auto.
  intros v g1 _ _ _. destruct (decide _); [|reflexivity].
  apply lookup_insert4_ne. intros E. apply Hq. now rewrite <- E.
Qed.

Lemma coalesce_site_at (i j k : Z) (g : GridObj) (v : nat) :
  (exists fn, g = set_f fn g0) ->
  LatTyp g0 (i, j, k) = TransitionToCoarser \/ LatTyp g0 (i, j, k) = SolidVariant ->
  (v < nVels vs)%nat ->
  f (coalesce_site vs fGrid i j k g) (i, j, k, v)
  = if decide (f g (i, j, k, v) = 0%Qc)
    then (let '(fi, fj, fk) := first_sibling fGrid (i, j, k) in
          sibling_sum vs fGrid fi fj fk v / Qcpower (Z2Qc 2) (dims vs))%Qc
    else f g (i, j, k, v).
Proof.
  intros [fn ->] Ht Hv. unfold coalesce_site, first_sibling.
  cbn [LatTyp set_f].
  replace ((LatTyp g0 (i, j, k) =? 4) || (LatTyp g0 (i, j, k) =? 5)) with true
    by (destruct Ht as [-> | ->]; reflexivity).
  destruct (getFineIndices _ _ _ _ _ _) as [[fi fj] fk].
  set (val := (sibling_sum vs fGrid fi fj fk v / Qcpower (Z2Qc 2) (dims vs))%Qc).
  set (old := f (set_f fn g0) (i, j, k, v)).
  apply (for_each_two_phase _ v
           (fun g : GridObj => f g (i, j, k, v) = old)
           (fun g : GridObj =>
              f g (i, j, k, v) = if decide (old = 0%Qc) then val else old)).
  - apply NoDup_seq.
  - apply elem_of_seq. lia.
  - intros v' g _ Hne Hg. destruct (decide (f g (i, j, k, v') = 0%Qc)); [|exact Hg].
    etransitivity; [|exact Hg]. apply lookup_insert4_ne. congruence.
  - intros g Hg. rewrite Hg. destruct (decide (old = 0%Qc)); [|exact Hg].
    apply lookup_insert4.
  - intros v' g _ Hne Hg. destruct (decide (f g (i, j, k, v') = 0%Qc)); [|exact Hg].
    etransitivity; [|exact Hg]. apply lookup_insert4_ne. congruence.
  - reflexivity.
Qed.

End Coalesce.

Lemma LBM_coalesce_sweep (vs : VelSet) (g fGrid : GridObj) :
  LBM_coalesce vs g fGrid
  = for_each (region_sites (CoarseLimsX fGrid) (CoarseLimsY fGrid) (CoarseLimsZ fGrid))
      (fun '(i, j, k) => coalesce_site vs fGrid i j k) g.
Proof. unfold LBM_coalesce. apply for_region_flat. Qed.

(** The coalesce at one slot of a coarse site of the region. *)
Lemma LBM_coalesce_at (vs : VelSet) (g fGrid : GridObj) (x : Site) (v : nat) :
  dims vs = 2%nat \/ dims vs = 3%nat ->
  in_region fGrid x ->
  LatTyp g x = TransitionToCoarser \/ LatTyp g x = SolidVariant ->
  (v < nVels vs)%nat ->
  f (LBM_coalesce vs g fGrid) (x, v)
  = if decide (f g (x, v) = 0%Qc)
    then mean (map (fun s => f fGrid (s, v)) (covered vs fGrid x))
    else f g (x, v).
Proof.
  intros Hd Hx Ht Hv. rewrite LBM_coalesce_sweep.
  apply (for_each_two_phase _ x
           (fun s : GridObj => (exists fn, s = set_f fn g) /\ f s (x, v) = f g (x, v))
           (fun s : GridObj =>
              f s (x, v)
              = if decide (f g (x, v) = 0%Qc)
                then mean (map (fun s => f fGrid (s, v)) (covered vs fGrid x))
                else f g (x, v))).
  - apply NoDup_region_sites.
  - now apply elem_of_region_sites.
  - intros [[i j] k] s _ Hne [Hs Hf]. split.
    + now apply coalesce_site_inv.
    + rewrite coalesce_site_other by (cbn; congruence). exact Hf.
  - destruct x as [[i j] k]. intros s [Hs Hf]. cbv beta iota.
    rewrite (coalesce_site_at vs fGrid g i j k s v Hs Ht Hv), Hf.
    destruct (decide _); [|reflexivity]. now apply sibling_mean.
  - intros [[i j] k] s _ Hne Hf.
    rewrite coalesce_site_other by (cbn; congruence). exact Hf.
  - split; [exists (f g); apply set_f_self|reflexivity].
Qed.

(** The cells the code averages are the cells the specification names. *)
Lemma covered_fine_cells (vs : VelSet) (fGrid : GridObj) (x : Site) :
  dims vs = 2%nat \/ dims vs = 3%nat ->
  covered vs fGrid x = fine_cells vs fGrid x.
Proof.
  intros Hd. destruct x as [[i j] k].
  unfold covered, fine_cells, getFineIndices, siblings.
  destruct Hd as [-> | ->]; cbn [Nat.eqb]; cbn;
    repeat (f_equal; try (f_equal; lia)).
Qed.

Lemma site_eq (a b e a' b' e' : Z) :
  a = a' -> b = b' -> e = e' -> (a, b, e) = (a', b', e').
Proof. congruence. Qed.

Ltac nodup_cells :=
  repeat (apply NoDup_cons_2;
          [rewrite ?elem_of_cons, elem_of_nil; intros H; destruct_or!;
           first [contradiction | injection H; intros; lia] |]);
  apply NoDup_nil_2.

Ltac pick_cell := repeat first [left; apply site_eq; lia | right].

(** They are 2^dims different cells, those whose halved indices are the
    offsets of the coarse cell. *)
Lemma fine_cells_spec (vs : VelSet) (fGrid : GridObj) (x : Site) :
  dims vs = 2%nat \/ dims vs = 3%nat ->
  NoDup (fine_cells vs fGrid x)
  /\ length (fine_cells vs fGrid x) = (2 ^ dims vs)%nat
  /\ forall s, s ∈ fine_cells vs fGrid x <-> covers vs fGrid x s.
Proof.
  intros Hd. destruct x as [[i j] k]. unfold fine_cells, covers.
  destruct Hd as [-> | ->]; cbn [Nat.eqb]; cbn [mbind list_bind mret list_ret app];
    cbn -[Z.mul Z.add Z.sub Z.div];
    (split; [|split; [reflexivity|]]).
  - nodup_cells.
  - intros [[a b] e]. rewrite !elem_of_cons, elem_of_nil. split.
    + intros H. destruct_or!; try contradiction; injection H; intros; subst;
        (split; [|split]);
        first [reflexivity | symmetry; apply Z.div_unique with (r := 0); lia
              | symmetry; apply Z.div_unique with (r := 1); lia].
    + intros (Ha & Hb & ->).
      assert (Ha' := Z.div_mod a 2 ltac:(lia)).
      assert (Hb' := Z.div_mod b 2 ltac:(lia)).
      assert (Ham := Z.mod_pos_bound a 2 ltac:(lia)).
      assert (Hbm := Z.mod_pos_bound b 2 ltac:(lia)).
      assert (Ca : a mod 2 = 0 \/ a mod 2 = 1) by lia.
      assert (Cb : b mod 2 = 0 \/ b mod 2 = 1) by lia.
      destruct Ca as [Ca|Ca], Cb as [Cb|Cb]; pick_cell.
  - nodup_cells.
  - intros [[a b] e]. rewrite !elem_of_cons, elem_of_nil. split.
    + intros H. destruct_or!; try contradiction; injection H; intros; subst;
        (split; [|split]);
        first [symmetry; apply Z.div_unique with (r := 0); lia
              | symmetry; apply Z.div_unique with (r := 1); lia].
    + intros (Ha & Hb & He).
      assert (Ha' := Z.div_mod a 2 ltac:(lia)).
      assert (Hb' := Z.div_mod b 2 ltac:(lia)).
      assert (He' := Z.div_mod e 2 ltac:(lia)).
      assert (Ham := Z.mod_pos_bound a 2 ltac:(lia)).
      assert (Hbm := Z.mod_pos_bound b 2 ltac:(lia)).
      assert (Hem := Z.mod_pos_bound e 2 ltac:(lia)).
      assert (Ca : a mod 2 = 0 \/ a mod 2 = 1) by lia.
      assert (Cb : b mod 2 = 0 \/ b mod 2 = 1) by lia.
      assert (Ce : e mod 2 = 0 \/ e mod 2 = 1) by lia.
      destruct Ca as [Ca|Ca], Cb as [Cb|Cb], Ce as [Ce|Ce]; pick_cell.
Qed.

(** C4. For a coarse site of type 4 (transition) or 5 (solid variant)
    inside the region of a child and for every direction, the coalesce
    replaces a population equal to 0 by the arithmetic mean of that
    component over the covered fine siblings, and leaves a population
    different from 0 as it was.  The covered siblings are [2^dims]
    different fine cells: those whose halved indices are the offsets of
    the coarse site in the region (third index 0 on a 2D lattice). *)
Theorem C4_coalesce (vs : VelSet) (g fGrid : GridObj) (x : Site) (v : nat) :
  dims vs = 2%nat \/ dims vs = 3%nat ->
  in_region fGrid x ->
  LatTyp g x = TransitionToCoarser \/ LatTyp g x = SolidVariant ->
  (v < nVels vs)%nat ->
  let cells := fine_cells vs fGrid x in
  (NoDup cells
   /\ length cells = (2 ^ dims vs)%nat
   /\ forall s, s ∈ cells <-> covers vs fGrid x s)
  /\ (f g (x, v) = 0%Qc ->
      f (LBM_coalesce vs g fGrid) (x, v)
      = mean (map (fun s => f fGrid (s, v)) cells))
  /\ (f g (x, v) <> 0%Qc ->
      f (LBM_coalesce vs g fGrid) (x, v) = f g (x, v)).
Proof.
  intros Hd Hx Ht Hv cells. split; [now apply fine_cells_spec|].
  rewrite (LBM_coalesce_at vs g fGrid x v Hd Hx Ht Hv).
  unfold cells. rewrite <- (covered_fine_cells vs fGrid x Hd).
  split; intros H; destruct (decide _); congruence.
Qed.

Lemma C4_coalesce_witness :
  f (LBM_coalesce D2Q9 streamed_coarse_cell varied_block) (0, 0, 0, 8%nat) = Z2Qc 64
  /\ f (LBM_coalesce D2Q9 streamed_coarse_cell varied_block) (0, 0, 0, 3%nat)
     = f streamed_coarse_cell (0, 0, 0, 3%nat).
Proof.
  destruct (C4_coalesce D2Q9 streamed_coarse_cell varied_block (0, 0, 0) 8)
    as (_ & H2 & _).
  - left. reflexivity.
  - vm_compute. intuition discriminate.
  - left. reflexivity.
  - vm_compute. lia.
  - split.
    + rewrite H2 by (apply Qc_is_canon; reflexivity).
      apply Qc_is_canon. reflexivity.
    + destruct (C4_coalesce D2Q9 streamed_coarse_cell varied_block (0, 0, 0) 3)
        as (_ & _ & H3).
      * left. reflexivity.
      * vm_compute. intuition discriminate.
      * left. reflexivity.
      * vm_compute. lia.
      * apply H3. intros E. apply (f_equal this) in E. vm_compute in E. discriminate.
Defined.

(** ** Streaming *)

Lemma wraps_rem (N i cx : Z) :
  0 <= i < N -> -1 <= cx <= 1 -> wraps N i cx (Z.rem (i + cx + N) N).
Proof.
  intros Hi Hc. unfold wraps.
  rewrite Z.rem_mod_nonneg by lia.
  assert (Hm := Z.mod_pos_bound (i + cx + N) N ltac:(lia)).
  split; [lia|].
  destruct (Z.eq_dec (i + cx) N) as [E|NE].
  { right. left. split; [exact E|]. rewrite E.
    replace (N + N) with (0 + 2 * N) by lia. rewrite Z.mod_add by lia.
    apply Z.mod_0_l. lia. }
  destruct (Z.eq_dec (i + cx) (-1)) as [E|NE'].
  { right. right. split; [exact E|]. rewrite E.
    replace (-1 + N) with (N - 1) by lia. apply Z.mod_small. lia. }
  left. split; [lia|].
  replace (i + cx + N) with (i + cx + 1 * N) by lia.
  rewrite Z.mod_add by lia. apply Z.mod_small. lia.
Qed.

Lemma off_grid_true (vs : VelSet) (g : GridObj) (dx dy dz : Z) :
  off_grid vs g dx dy dz = true
  <-> (dx < 0 \/ N_lim g <= dx) \/ (dy < 0 \/ M_lim g <= dy)
      \/ (dims vs = 3%nat /\ (dz < 0 \/ K_lim g <= dz)).
Proof.
  unfold off_grid.
  rewrite !orb_true_iff, andb_true_iff, orb_true_iff, Nat.eqb_eq,
    !Z.leb_le, !Z.ltb_lt.
  tauto.
Qed.

Lemma off_grid_false (vs : VelSet) (g : GridObj) (dx dy dz : Z) :
  off_grid vs g dx dy dz = false
  <-> 0 <= dx < N_lim g /\ 0 <= dy < M_lim g
      /\ (dims vs = 3%nat -> 0 <= dz < K_lim g).
Proof.
  rewrite <- not_true_iff_false, off_grid_true. lia.
Qed.

(** The three coordinates of the wrapped destination. *)
Lemma periodic_dest_wraps (vs : VelSet) (g : GridObj) (i j k : Z) (v : nat) :
  VelSet_ok vs -> in_grid g (i, j, k) -> (v < nVels vs)%nat ->
  exists a b e,
    periodic_dest vs g (i, j, k) v = (a, b, e)
    /\ wraps (N_lim g) i (c vs 0 v) a
    /\ wraps (M_lim g) j (c vs 1 v) b
    /\ wraps (K_lim g) k (c vs 2 v) e.
Proof.
  intros Hok (Hi & Hj & Hk) Hv. eexists _, _, _. split; [reflexivity|].
  repeat split; apply wraps_rem; try assumption; now apply (c_unit vs Hok).
Qed.

Lemma periodic_dest_in_grid (vs : VelSet) (g : GridObj) (x : Site) (v : nat) :
  VelSet_ok vs -> in_grid g x -> (v < nVels vs)%nat ->
  in_grid g (periodic_dest vs g x v).
Proof.
  intros Hok Hx Hv. destruct x as [[i j] k].
  destruct (periodic_dest_wraps vs g i j k v Hok Hx Hv)
    as (a & b & e & -> & Ha & Hb & He).
  unfold wraps in *. cbn. lia.
Qed.

(** Wrapping there and back. *)
Lemma periodic_dest_back (vs : VelSet) (g : GridObj) (x : Site) (v : nat) :
  VelSet_ok vs -> in_grid g x -> (v < nVels vs)%nat ->
  periodic_dest vs g (periodic_dest vs g x v) (getOpposite vs v) = x.
Proof.
  intros Hok Hx Hv. destruct x as [[i j] k].
  assert (Hpd := periodic_dest_in_grid vs g (i, j, k) v Hok Hx Hv).
  destruct (periodic_dest_wraps vs g i j k v Hok Hx Hv)
    as (a & b & e & E & Ha & Hb & He).
  rewrite E in *.
  destruct (periodic_dest_wraps vs g a b e (getOpposite vs v) Hok Hpd
              (opp_lt vs Hok v Hv))
    as (a' & b' & e' & -> & Ha' & Hb' & He').
  rewrite !(opp_c vs Hok) in * by assumption.
  assert (H0 := c_unit vs Hok 0 v Hv). assert (H1 := c_unit vs Hok 1 v Hv).
  assert (H2 := c_unit vs Hok 2 v Hv).
  unfold wraps, in_grid in *.
  f_equal; [f_equal|]; lia.
Qed.

(** An off-grid destination stays off-grid seen from the other side. *)
Lemma periodic_dest_off_grid (vs : VelSet) (g : GridObj) (x : Site) (v : nat) :
  VelSet_ok vs -> in_grid g x -> (v < nVels vs)%nat ->
  dest_off_grid vs g x v = true ->
  dest_off_grid vs g (periodic_dest vs g x v) (getOpposite vs v) = true.
Proof.
  intros Hok Hx Hv Hoff. destruct x as [[i j] k].
  destruct (periodic_dest_wraps vs g i j k v Hok Hx Hv)
    as (a & b & e & -> & Ha & Hb & He).
  unfold dest_off_grid, dest in *. apply off_grid_true in Hoff. apply off_grid_true.
  rewrite !(opp_c vs Hok) by assumption.
  assert (H0 := c_unit vs Hok 0 v Hv). assert (H1 := c_unit vs Hok 1 v Hv).
  assert (H2 := c_unit vs Hok 2 v Hv).
  unfold wraps, in_grid in *. lia.
Qed.

(** Two sites of the grid with the same wrapped destination are the same
    site. *)
Lemma periodic_dest_inj (vs : VelSet) (g : GridObj) (x y : Site) (v : nat) :
  VelSet_ok vs -> in_grid g x -> in_grid g y -> (v < nVels vs)%nat ->
  periodic_dest vs g x v = periodic_dest vs g y v -> x = y.
Proof.
  intros Hok Hx Hy Hv E.
  rewrite <- (periodic_dest_back vs g x v), <- (periodic_dest_back vs g y v), E
    by assumption.
  reflexivity.
Qed.

(** A destination inside the grid is its own wrapped destination. *)
Lemma periodic_dest_on_grid (vs : VelSet) (g : GridObj) (x : Site) (v : nat) :
  VelSet_ok vs -> in_grid g x -> (v < nVels vs)%nat ->
  in_grid g (dest vs x v) -> periodic_dest vs g x v = dest vs x v.
Proof.
  intros Hok Hx Hv Hd. destruct x as [[i j] k].
  destruct (periodic_dest_wraps vs g i j k v Hok Hx Hv)
    as (a & b & e & -> & Ha & Hb & He).
  unfold dest, wraps, in_grid in *. f_equal; [f_equal|]; lia.
Qed.

Lemma dest_opposite (vs : VelSet) (x : Site) (v : nat) :
  VelSet_ok vs -> (v < nVels vs)%nat ->
  dest vs (dest vs x v) (getOpposite vs v) = x.
Proof.
  intros Hok Hv. destruct x as [[i j] k]. unfold dest.
  rewrite !(opp_c vs Hok) by assumption. f_equal; [f_equal|]; lia.
Qed.

Lemma dest_inj (vs : VelSet) (x y : Site) (v : nat) :
  dest vs x v = dest vs y v -> x = y.
Proof.
  destruct x as [[i j] k], y as [[i' j'] k']. unfold dest.
  intros E. injection E as E1 E2 E3. f_equal; [f_equal|]; lia.
Qed.

Lemma in_grid_on_grid (vs : VelSet) (g : GridObj) (x : Site) :
  in_grid g x -> (let '(i, j, k) := x in off_grid vs g i j k) = false.
Proof.
  destruct x as [[i j] k]. intros (Hi & Hj & Hk). apply off_grid_false. lia.
Qed.

(** One trip of the direction loop is the assignment [stream_write]
    describes; on a site of type 2 the loop is left. *)
Lemma stream_dir_write (vs : VelSet) (cfg : Config) (ext : External) (g : GridObj)
  (i j k : Z) (v : nat) (f_new : IVector4 Qc) :
  stream_dir vs cfg ext g i j k v f_new
  = if LatTyp g (i, j, k) =? 2 then None
    else Some (apply_write (stream_write vs cfg ext g (i, j, k) v) f_new).
Proof.
  unfold stream_dir, stream_write, dest_off_grid, streams_periodically,
    mpi_diverted, dest, periodic_dest, apply_write.
  destruct (LatTyp g (i, j, k) =? 2); [reflexivity|].
  destruct (INLET_ON cfg && INLET_DO_NOTHING cfg && (LatTyp g (i, j, k) =? 7));
    [reflexivity|].
  destruct (off_grid vs g _ _ _).
  - destruct (PERIODIC_BOUNDARIES cfg && negb (BUILD_FOR_MPI cfg)); [|reflexivity].
    cbn [andb]. destruct (_ && _); reflexivity.
  - destruct (BUILD_FOR_MPI cfg && _).
    + destruct (PERIODIC_BOUNDARIES cfg); [|reflexivity].
      cbn [andb]. destruct (_ && _); reflexivity.
    + destruct (_ && _); [reflexivity|]. destruct (_ && _); reflexivity.
Qed.

(** The direction loop of one site. *)
Lemma stream_site_writes (vs : VelSet) (cfg : Config) (ext : External) (g : GridObj)
  (i j k : Z) (l : list nat) (f_new : IVector4 Qc) :
  for_break l (stream_dir vs cfg ext g i j k) f_new
  = for_each l (fun v => apply_write (stream_write vs cfg ext g (i, j, k) v)) f_new.
Proof.
  revert f_new. induction l as [|v l IH]; intros f_new; [reflexivity|].
  cbn [for_break]. rewrite for_each_cons, stream_dir_write.
  destruct (LatTyp g (i, j, k) =? 2) eqn:E2.
  - symmetry.
    apply (for_each_invariant _ (fun fn => fn = f_new)); [|].
    + intros v' fn _ ->. unfold stream_write. rewrite E2. reflexivity.
    + unfold stream_write. rewrite E2. reflexivity.
  - apply IH.
Qed.

(** The sweep as one loop over the trips. *)
Lemma LBM_stream_sweep (vs : VelSet) (cfg : Config) (ext : External) (g : GridObj) :
  f (LBM_stream vs cfg ext g)
  = for_each (trips vs g)
      (fun '(x, v) => apply_write (stream_write vs cfg ext g x v)) zeros4.
Proof.
  unfold LBM_stream, trips. cbn [f set_f].
  rewrite for_sites_flat, for_each_bind.
  apply for_each_ext. intros [[i j] k] fn _.
  rewrite stream_site_writes, for_each_bind.
  apply for_each_ext. intros v fn' _. reflexivity.
Qed.

(** A slot no trip assigns holds 0 after the sweep. *)
Lemma LBM_stream_unwritten (vs : VelSet) (cfg : Config) (ext : External) (g : GridObj)
  (q : Site) (d : nat) :
  (forall x v val, (x, v) ∈ trips vs g ->
     stream_write vs cfg ext g x v <> Some (q, d, val)) ->
  f (LBM_stream vs cfg ext g) (q, d) = 0%Qc.
Proof.
  intros Hno. rewrite LBM_stream_sweep.
  transitivity (zeros4 (q, d)); [|reflexivity].
  apply (for_each_miss _ (fun _ => True) (fun fn : IVector4 Qc => fn (q, d))
           (fun _ => False)); auto.
  intros [x v] fn Hin _ _. unfold apply_write.
  destruct (stream_write vs cfg ext g x v) as [[[q' d'] val]|] eqn:E; [|reflexivity].
  apply lookup_insert4_ne. intros E'. simplify_eq.
  now apply (Hno x v val).
Qed.

(** A slot that some trip assigns, all such trips assigning [r], holds [r]
    after the sweep. *)
Lemma LBM_stream_written (vs : VelSet) (cfg : Config) (ext : External) (g : GridObj)
  (q : Site) (d : nat) (r : Qc) :
  (exists x v, (x, v) ∈ trips vs g /\ stream_write vs cfg ext g x v = Some (q, d, r)) ->
  (forall x v val, (x, v) ∈ trips vs g ->
     stream_write vs cfg ext g x v = Some (q, d, val) -> val = r) ->
  f (LBM_stream vs cfg ext g) (q, d) = r.
Proof.
  intros (x0 & v0 & Hin0 & E0) Hall. rewrite LBM_stream_sweep.
  apply (for_each_hit _ (fun _ => True) (fun fn : IVector4 Qc => fn (q, d))
           (fun a : Site * nat =>
              exists val, stream_write vs cfg ext g a.1 a.2 = Some (q, d, val))); auto.
  - intros [x v] fn Hin _ [val E]. cbn [fst snd] in E. rewrite E.
    cbn [apply_write]. rewrite lookup_insert4. now apply (Hall x v).
  - intros [x v] fn Hin _ Hno. unfold apply_write.
    destruct (stream_write vs cfg ext g x v) as [[[q' d'] val]|] eqn:E; [|reflexivity].
    apply lookup_insert4_ne. intros E'. simplify_eq.
    apply Hno. exists val. exact E.
  - intros [x v] _. cbn [fst snd].
    destruct (stream_write vs cfg ext g x v) as [[[q' d'] val]|] eqn:E.
    + destruct (decide ((q', d') = (q, d))) as [E'|N].
      * simplify_eq. left. now exists val.
      * right. intros [val' E']. congruence.
    + right. intros [val' E']. discriminate.
  - exists (x0, v0). split; [exact Hin0|]. now exists r.
Qed.

(** The cases in which a trip assigns a slot. *)
Lemma stream_write_inv (vs : VelSet) (cfg : Config) (ext : External) (g : GridObj)
  (x q : Site) (v d : nat) (val : Qc) :
  stream_write vs cfg ext g x v = Some (q, d, val) ->
  (LatTyp g x = DoNothingInlet /\ q = x /\ d = v /\ val = f g (x, v))
  \/ (dest_off_grid vs g x v = true /\ streams_periodically vs cfg g x v = true
      /\ q = periodic_dest vs g x v /\ d = v /\ val = f g (x, v))
  \/ (dest_off_grid vs g x v = true /\ streams_periodically vs cfg g x v = false
      /\ q = x /\ d = getOpposite vs v /\ val = f g (x, getOpposite vs v))
  \/ (dest_off_grid vs g x v = false /\ mpi_diverted vs cfg ext g x v = true
      /\ q = dest vs x v /\ d = v)
  \/ (dest_off_grid vs g x v = false /\ mpi_diverted vs cfg ext g x v = false
      /\ ~ (LatTyp g x = TransitionToCoarser
            /\ LatTyp g (dest vs x v) = TransitionToCoarser)
      /\ q = dest vs x v /\ d = v /\ val = f g (x, v)).
Proof.
  unfold stream_write.
  destruct (LatTyp g x =? 2); [discriminate|].
  destruct (INLET_ON cfg && INLET_DO_NOTHING cfg && (LatTyp g x =? 7)) eqn:E7.
  { intros E. simplify_eq. left.
    apply andb_true_iff in E7 as [_ E7]. apply Z.eqb_eq in E7. auto. }
  destruct (dest_off_grid vs g x v).
  { destruct (streams_periodically vs cfg g x v); intros E; simplify_eq.
    - right. left. repeat split; reflexivity.
    - do 2 right. left. repeat split; reflexivity. }
  destruct (mpi_diverted vs cfg ext g x v).
  { destruct (PERIODIC_BOUNDARIES cfg
              && ((LatTyp g x =? 1) && (LatTyp g (dest vs x v) =? 1)));
      intros E; simplify_eq; do 3 right; left; repeat split; reflexivity. }
  destruct ((LatTyp g x =? 4) && (LatTyp g (dest vs x v) =? 4)) eqn:E4;
    [discriminate|].
  destruct (INLET_ON cfg && INLET_DO_NOTHING cfg && (LatTyp g (dest vs x v) =? 7));
    [discriminate|].
  intros E. simplify_eq. do 4 right.
  repeat split; try reflexivity.
  intros [H1 H2]. rewrite H1, H2 in E4. discriminate.
Qed.

Section StreamSweep.

Variable vs : VelSet.
Variable cfg : Config.
Variable ext : External.
Variable g : GridObj.

Hypothesis vs_ok : VelSet_ok vs.

(** No site of the grid streams on-grid into the wrapped destination of an
    off-grid trip. *)
Lemma off_grid_no_source (s x : Site) (v : nat) :
  in_grid g s -> in_grid g x -> (v < nVels vs)%nat ->
  dest_off_grid vs g s v = true ->
  dest vs x v <> periodic_dest vs g s v.
Proof.
  intros Hs Hx Hv Hoff E. destruct s as [[i j] k], x as [[i' j'] k'].
  destruct (periodic_dest_wraps vs g i j k v vs_ok Hs Hv)
    as (a & b & e & Epd & Ha & Hb & He).
  rewrite Epd in E. unfold dest_off_grid, dest in *. apply off_grid_true in Hoff.
  injection E as E1 E2 E3.
  assert (H0 := c_unit vs vs_ok 0 v Hv). assert (H1 := c_unit vs vs_ok 1 v Hv).
  assert (H2 := c_unit vs vs_ok 2 v Hv).
  unfold wraps, in_grid in *. lia.
Qed.

(** The periodic test seen from the wrapped destination. *)
Lemma streams_periodically_back (s : Site) (v : nat) :
  in_grid g s -> (v < nVels vs)%nat ->
  streams_periodically vs cfg g (periodic_dest vs g s v) (getOpposite vs v)
  = streams_periodically vs cfg g s v.
Proof.
  intros Hs Hv. unfold streams_periodically.
  rewrite periodic_dest_back by assumption.
  destruct (PERIODIC_BOUNDARIES cfg), (BUILD_FOR_MPI cfg), (level g =? 0),
    (LatTyp g s =? 1), (LatTyp g (periodic_dest vs g s v) =? 1); reflexivity.
Qed.

(** The slot a skipped transition-to-transition transfer would have
    assigned is assigned by no trip. *)
Lemma stream_skipped_transfer (s : Site) (v : nat) :
  in_grid g s -> (v < nVels vs)%nat ->
  dest_off_grid vs g s v = false ->
  mpi_diverted vs cfg ext g s v = false ->
  LatTyp g s = TransitionToCoarser ->
  LatTyp g (dest vs s v) = TransitionToCoarser ->
  forall x v' val, (x, v') ∈ trips vs g ->
    stream_write vs cfg ext g x v' <> Some (dest vs s v, v, val).
Proof.
  intros Hs Hv Hon Hmpi Ts Td x v' val Hin E.
  apply elem_of_trips in Hin as [Hx Hv'].
  apply stream_write_inv in E
    as [(T7 & Eq & _)|[(Hoff & _ & Eq & Ed & _)|[(Hoff & _ & Eq & Ed & _)
       |[(_ & Hm & Eq & Ed)|(_ & _ & Hno & Eq & Ed & _)]]]].
  - rewrite Eq, T7 in Td. discriminate.
  - subst v'.
    assert (Hd : in_grid g (dest vs s v))
      by (rewrite Eq; now apply periodic_dest_in_grid).
    rewrite <- (periodic_dest_on_grid vs g s v) in Eq by assumption.
    apply periodic_dest_inj in Eq; try assumption. subst x. congruence.
  - assert (Ev : v' = getOpposite vs v) by (rewrite Ed; symmetry; now apply opp_opp).
    subst v' x. unfold dest_off_grid in Hoff.
    rewrite (dest_opposite vs s v vs_ok Hv) in Hoff.
    rewrite (in_grid_on_grid vs g s Hs) in Hoff. discriminate.
  - subst v'. apply dest_inj in Eq. subst x. congruence.
  - subst v'. apply dest_inj in Eq. subst x. now apply Hno.
Qed.

(** An off-grid trip that is streamed periodically. *)
Lemma stream_periodic (s : Site) (v : nat) :
  in_grid g s -> (v < nVels vs)%nat ->
  dest_off_grid vs g s v = true ->
  streams_periodically vs cfg g s v = true ->
  f (LBM_stream vs cfg ext g) (periodic_dest vs g s v, v) = f g (s, v).
Proof.
  intros Hs Hv Hoff Hper.
  assert (Hper' := Hper). unfold streams_periodically in Hper'.
  apply andb_true_iff in Hper' as [_ Hper'].
  apply andb_true_iff in Hper' as [_ Hper'].
  apply andb_true_iff in Hper' as [T1 T1'].
  apply Z.eqb_eq in T1, T1'.
  apply LBM_stream_written.
  - exists s, v. split; [now apply elem_of_trips|].
    unfold stream_write. rewrite T1, Hoff, Hper. cbn [Z.eqb Pos.eqb andb].
    rewrite andb_false_r. reflexivity.
  - intros x v' val Hin E. apply elem_of_trips in Hin as [Hx Hv'].
    apply stream_write_inv in E
      as [(T7 & Eq & _)|[(_ & _ & Eq & Ed & Eval)|[(_ & Hnp & Eq & Ed & _)
         |[(_ & _ & Eq & Ed)|(_ & _ & _ & Eq & Ed & _)]]]].
    + rewrite Eq, T7 in T1'. discriminate.
    + subst v'. symmetry in Eq. apply periodic_dest_inj in Eq; try assumption.
      now subst x.
    + assert (Ev : v' = getOpposite vs v)
        by (rewrite Ed; symmetry; now apply opp_opp).
      subst v' x. rewrite streams_periodically_back in Hnp by assumption.
      congruence.
    + subst v'. symmetry in Eq. now apply off_grid_no_source in Eq.
    + subst v'. symmetry in Eq. now apply off_grid_no_source in Eq.
Qed.

(** An off-grid trip that is not: the source keeps its opposite
    population. *)
Lemma stream_retain (s : Site) (v : nat) :
  in_grid g s -> (v < nVels vs)%nat ->
  LatTyp g s <> CoveredByFiner ->
  dest_off_grid vs g s v = true ->
  streams_periodically vs cfg g s v = false ->
  f (LBM_stream vs cfg ext g) (s, getOpposite vs v) = f g (s, getOpposite vs v).
Proof.
  intros Hs Hv T2 Hoff Hper.
  assert (Hov := opp_lt vs vs_ok v Hv).
  apply LBM_stream_written.
  - destruct (INLET_ON cfg && INLET_DO_NOTHING cfg && (LatTyp g s =? 7)) eqn:E7.
    + exists s, (getOpposite vs v). split; [now apply elem_of_trips|].
      unfold stream_write. rewrite E7.
      destruct (Z.eqb_spec (LatTyp g s) 2); [contradiction|reflexivity].
    + exists s, v. split; [now apply elem_of_trips|].
      unfold stream_write. rewrite E7, Hoff, Hper.
      destruct (Z.eqb_spec (LatTyp g s) 2); [contradiction|reflexivity].
  - intros x v' val Hin E. apply elem_of_trips in Hin as [Hx Hv'].
    apply stream_write_inv in E
      as [(_ & Eq & Ed & Eval)|[(_ & Hp & Eq & Ed & _)|[(_ & _ & Eq & Ed & Eval)
         |[(Hon & _ & Eq & Ed)|(Hon & _ & _ & Eq & Ed & _)]]]].
    + now subst.
    + subst v'.
      rewrite <- (streams_periodically_back x (getOpposite vs v)) in Hp
        by assumption.
      rewrite <- Eq, (opp_opp vs vs_ok v Hv) in Hp. congruence.
    + subst x. rewrite Eval, <- Ed. reflexivity.
    + subst v'.
      assert (Es : dest vs s v = x).
      { rewrite Eq. rewrite <- (opp_opp vs vs_ok v Hv) at 2.
        now apply dest_opposite. }
      unfold dest_off_grid in Hoff.
      rewrite Es, (in_grid_on_grid vs g x Hx) in Hoff. discriminate.
    + subst v'.
      assert (Es : dest vs s v = x).
      { rewrite Eq. rewrite <- (opp_opp vs vs_ok v Hv) at 2.
        now apply dest_opposite. }
      unfold dest_off_grid in Hoff.
      rewrite Es, (in_grid_on_grid vs g x Hx) in Hoff. discriminate.
Qed.

(** ... and the wrapped destination keeps the population of that
    direction, unless it is covered by a finer grid. *)
Lemma stream_retain_dest (s : Site) (v : nat) :
  in_grid g s -> (v < nVels vs)%nat ->
  LatTyp g (periodic_dest vs g s v) <> CoveredByFiner ->
  dest_off_grid vs g s v = true ->
  streams_periodically vs cfg g s v = false ->
  f (LBM_stream vs cfg ext g) (periodic_dest vs g s v, v)
  = f g (periodic_dest vs g s v, v).
Proof.
  intros Hs Hv T2 Hoff Hper.
  rewrite <- (opp_opp vs vs_ok v Hv) at 2 4.
  apply stream_retain.
  - now apply periodic_dest_in_grid.
  - now apply opp_lt.
  - exact T2.
  - now apply periodic_dest_off_grid.
  - now rewrite streams_periodically_back.
Qed.

End StreamSweep.

Lemma D2Q9_ok : VelSet_ok D2Q9.
Proof.
  split.
  - left. reflexivity.
  - intros d v Hv. cbn in Hv.
    do 4 (destruct d as [|d]; [do 9 (destruct v as [|v]; [cbn; lia|]); lia|]).
    do 9 (destruct v as [|v]; [cbn; lia|]). lia.
  - intros v Hv. cbn in Hv |- *.
    do 9 (destruct v as [|v]; [cbn; lia|]). lia.
  - intros d v Hv. cbn in Hv.
    do 4 (destruct d as [|d]; [do 9 (destruct v as [|v]; [reflexivity|]); lia|]).
    do 9 (destruct v as [|v]; [reflexivity|]). lia.
  - intros v Hv. cbn in Hv.
    do 9 (destruct v as [|v]; [reflexivity|]). lia.
Qed.

Lemma streams_periodically_true (vs : VelSet) (cfg : Config) (g : GridObj)
  (s : Site) (v : nat) :
  streams_periodically vs cfg g s v = true
  <-> PERIODIC_BOUNDARIES cfg = true /\ BUILD_FOR_MPI cfg = false /\ level g = 0
      /\ LatTyp g s = Fluid /\ LatTyp g (periodic_dest vs g s v) = Fluid.
Proof.
  unfold streams_periodically.
  rewrite !andb_true_iff, negb_true_iff, !Z.eqb_eq. unfold Fluid. tauto.
Qed.

(** C3 (as the code has it). Take a source site of the grid that is not
    covered by a finer grid, and a direction whose destination is off the
    grid.  If periodic boundaries are compiled in, the build is serial
    (not MPI), the grid is level 0 and both the source and the wrapped
    destination are fluid, then after the sweep the wrapped destination
    holds the population of the source in that direction.  In every other
    case the source holds its own previous population in the opposite
    direction after the sweep, and so does the wrapped destination in the
    direction itself unless it is covered by a finer grid. *)
Theorem C3_off_grid_streaming (vs : VelSet) (cfg : Config) (ext : External)
  (g : GridObj) (s : Site) (v : nat) :
  VelSet_ok vs -> in_grid g s -> (v < nVels vs)%nat ->
  LatTyp g s <> CoveredByFiner ->
  dest_off_grid vs g s v = true ->
  let g' := LBM_stream vs cfg ext g in
  let d := periodic_dest vs g s v in
  let periodic :=
    PERIODIC_BOUNDARIES cfg = true /\ BUILD_FOR_MPI cfg = false /\ level g = 0
    /\ LatTyp g s = Fluid /\ LatTyp g d = Fluid in
  (periodic -> f g' (d, v) = f g (s, v))
  /\ (~ periodic ->
      f g' (s, getOpposite vs v) = f g (s, getOpposite vs v)
      /\ (LatTyp g d <> CoveredByFiner -> f g' (d, v) = f g (d, v))).
Proof.
  intros Hok Hs Hv T2 Hoff. cbn zeta. split.
  - intros Hp. apply stream_periodic; try assumption.
    now apply streams_periodically_true.
  - intros Hnp.
    assert (Hper : streams_periodically vs cfg g s v = false).
    { apply not_true_iff_false. intros H. apply Hnp.
      now apply streams_periodically_true. }
    split.
    + now apply stream_retain.
    + intros T2'. now apply stream_retain_dest.
Qed.

Lemma C3_off_grid_streaming_witness :
  f (LBM_stream D2Q9 periodic_cfg no_ext fluid_row)
    (periodic_dest D2Q9 fluid_row (1, 0, 0) 0, 0%nat)
  = f fluid_row (1, 0, 0, 0%nat)
  /\ f (LBM_stream D2Q9 (plain_cfg 0) no_ext fluid_row)
       (1, 0, 0, getOpposite D2Q9 0)
     = f fluid_row (1, 0, 0, getOpposite D2Q9 0).
Proof.
  split.
  - apply (C3_off_grid_streaming D2Q9 periodic_cfg no_ext fluid_row (1, 0, 0) 0).
    + exact D2Q9_ok.
    + vm_compute. intuition discriminate.
    + vm_compute. lia.
    + discriminate.
    + reflexivity.
    + vm_compute. intuition reflexivity.
  - apply (C3_off_grid_streaming D2Q9 (plain_cfg 0) no_ext fluid_row (1, 0, 0) 0).
    + exact D2Q9_ok.
    + vm_compute. intuition discriminate.
    + vm_compute. lia.
    + discriminate.
    + reflexivity.
    + vm_compute. intros (H & _). discriminate.
Defined.

(** C3 as stated fails in an MPI build: periodic boundaries are compiled
    in, the grid is level 0, source and wrapped destination are fluid, and
    the population is not streamed to the wrapped destination. *)
Lemma C3_mpi_build_does_not_wrap :
  PERIODIC_BOUNDARIES mpi_periodic_cfg = true
  /\ level fluid_row = 0
  /\ in_grid fluid_row (1, 0, 0)
  /\ dest_off_grid D2Q9 fluid_row (1, 0, 0) 0 = true
  /\ LatTyp fluid_row (1, 0, 0) = Fluid
  /\ LatTyp fluid_row (periodic_dest D2Q9 fluid_row (1, 0, 0) 0) = Fluid
  /\ f (LBM_stream D2Q9 mpi_periodic_cfg no_ext fluid_row)
       (periodic_dest D2Q9 fluid_row (1, 0, 0) 0, 0%nat)
     <> f fluid_row (1, 0, 0, 0%nat).
Proof.
  split; [reflexivity|]. split; [reflexivity|].
  split; [vm_compute; intuition discriminate|].
  split; [reflexivity|]. split; [reflexivity|]. split; [reflexivity|].
  intros H. apply (f_equal this) in H. vm_compute in H. discriminate.
Qed.

(** C10. The streaming sweep fills a buffer that starts as zeros, so a
    slot that no trip assigns holds 0 after the sweep.  In particular the
    slot a transition-to-transition transfer would have assigned, the
    transfer being skipped, holds 0; and the coalesce that follows finds
    that 0 and replaces it by the mean over the covered fine siblings. *)
Theorem C10_stream_zero_sentinel (vs : VelSet) (cfg : Config) (ext : External)
  (g : GridObj) :
  (forall (q : Site) (d : nat),
     (forall x v val, (x, v) ∈ trips vs g ->
        stream_write vs cfg ext g x v <> Some (q, d, val)) ->
     f (LBM_stream vs cfg ext g) (q, d) = 0%Qc)
  /\ (forall (s : Site) (v : nat),
        VelSet_ok vs -> in_grid g s -> (v < nVels vs)%nat ->
        dest_off_grid vs g s v = false ->
        mpi_diverted vs cfg ext g s v = false ->
        LatTyp g s = TransitionToCoarser ->
        LatTyp g (dest vs s v) = TransitionToCoarser ->
        f (LBM_stream vs cfg ext g) (dest vs s v, v) = 0%Qc
        /\ forall fGrid, in_region fGrid (dest vs s v) ->
             f (LBM_coalesce vs (LBM_stream vs cfg ext g) fGrid) (dest vs s v, v)
             = mean (map (fun y => f fGrid (y, v)) (covered vs fGrid (dest vs s v)))).
Proof.
  split.
  - intros q d Hno. now apply LBM_stream_unwritten.
  - intros s v Hok Hs Hv Hon Hmpi Ts Td.
    assert (H0 : f (LBM_stream vs cfg ext g) (dest vs s v, v) = 0%Qc).
    { apply LBM_stream_unwritten. now apply stream_skipped_transfer. }
    split; [exact H0|]. intros fGrid Hreg.
    rewrite LBM_coalesce_at; try assumption.
    + rewrite H0. destruct (decide _); [reflexivity|contradiction].
    + apply (dims_2_or_3 vs Hok).
    + left. exact Td.
Qed.

Lemma C10_stream_zero_sentinel_witness :
  f (LBM_stream D2Q9 (plain_cfg 1) no_ext transition_row) (dest D2Q9 (0, 0, 0) 0, 0%nat)
  = 0%Qc
  /\ f (LBM_coalesce D2Q9 (LBM_stream D2Q9 (plain_cfg 1) no_ext transition_row) fine_row)
       (dest D2Q9 (0, 0, 0) 0, 0%nat)
     = mean (map (fun y => f fine_row (y, 0%nat))
               (covered D2Q9 fine_row (dest D2Q9 (0, 0, 0) 0))).
Proof.
  destruct (C10_stream_zero_sentinel D2Q9 (plain_cfg 1) no_ext transition_row)
    as [_ H].
  destruct (H (0, 0, 0) 0%nat) as [H1 H2].
  - exact D2Q9_ok.
  - vm_compute. intuition discriminate.
  - vm_compute. lia.
  - reflexivity.
  - reflexivity.
  - reflexivity.
  - reflexivity.
  - split; [exact H1|]. apply H2. vm_compute. intuition discriminate.
Defined.

(** ** The driver *)

(** Induction on the hierarchy. *)
Lemma GridTree_ind (P : GridTree -> Prop) :
  (forall subGrid, Forall P subGrid -> P (Node subGrid)) ->
  forall tr, P tr.
Proof.
  intros H. fix IH 1. intros [subGrid]. apply H.
  induction subGrid as [|child l IHl]; constructor; [apply IH|exact IHl].
Qed.

Lemma grids_insert {T : Type} (G : Path -> T) (p : Path) (x : T) :
  (<[ p := x ]> G) p = x.
Proof. apply fn_lookup_insert. Qed.

Lemma grids_insert_ne {T : Type} (G : Path -> T) (p q : Path) (x : T) :
  p <> q -> (<[ p := x ]> G) q = G q.
Proof. apply fn_lookup_insert_ne. Qed.

Lemma grids_insert_level (G : Path -> GridObj) (p q : Path) (x : GridObj) :
  level x = level (G p) -> level ((<[ p := x ]> G) q) = level (G q).
Proof.
  intros H. destruct (decide (p = q)) as [<-|Hne].
  - now rewrite grids_insert.
  - now rewrite grids_insert_ne.
Qed.

(** *** The kernel operations leave level and tick counter alone *)

Lemma keeps_set_f_form (h : GridObj -> GridObj) :
  (forall g, exists fn e, h g = set_f fn (set_feq e g)) -> keeps h.
Proof. intros H g. destruct (H g) as (fn & e & ->). split; reflexivity. Qed.

Lemma LBM_collide_keeps (vs : VelSet) (cfg : Config) : keeps (LBM_collide vs cfg).
Proof.
  intros g. destruct (LBM_collide_inv vs cfg g) as (e & fn & ->). split; reflexivity.
Qed.

Lemma LBM_stream_keeps (vs : VelSet) (cfg : Config) (ext : External) :
  keeps (LBM_stream vs cfg ext).
Proof. intros g. split; reflexivity. Qed.

Lemma LBM_macro_keeps (vs : VelSet) : keeps (LBM_macro vs).
Proof.
  intros g. rewrite LBM_macro_sweep.
  apply (for_each_invariant _ (fun s => level s = level g /\ t s = t g)); [|auto].
  intros [[i j] k] s _ [Hl Ht].
  destruct (macro_timeav_frame vs i j k (macro_rho_u vs i j k s))
    as (ra & ua & uua & -> & _).
  destruct (macro_rho_u_frame vs i j k s) as (r & u' & ->).
  split; assumption.
Qed.

Lemma LBM_forcegrid_keeps (vs : VelSet) (cfg : Config) (reset_flag : bool) :
  keeps (LBM_forcegrid vs cfg reset_flag).
Proof.
  intros g. unfold LBM_forcegrid. destruct reset_flag; [split; reflexivity|].
  rewrite for_sites_flat.
  apply (for_each_invariant _ (fun s => level s = level g /\ t s = t g)); [|auto].
  intros [[i j] k] s _ Hs. unfold forcegrid_site.
  apply (for_each_invariant _ (fun s => level s = level g /\ t s = t g)).
  - intros v s' _ Hs'. unfold forcegrid_dir.
    destruct (negb _); [|exact Hs'].
    cbn [level t set_force_i].
    apply (for_each_invariant _ (fun s => level s = level g /\ t s = t g));
      [|exact Hs'].
    intros d s'' _ Hs''. exact Hs''.
  - destruct (GRAVITY_ON cfg); exact Hs.
Qed.

Lemma LBM_explode_keeps (vs : VelSet) (g fGrid : GridObj) :
  level (LBM_explode vs g fGrid) = level fGrid
  /\ t (LBM_explode vs g fGrid) = t fGrid.
Proof.
  rewrite LBM_explode_sweep.
  assert (H : exists fn,
             for_each (region_sites (CoarseLimsX fGrid) (CoarseLimsY fGrid)
                         (CoarseLimsZ fGrid))
               (fun '(i, j, k) => explode_site vs g i j k) fGrid
             = set_f fn fGrid).
  { apply (for_each_invariant _ (fun s => exists fn, s = set_f fn fGrid)).
    - intros [[i j] k] s _. apply explode_site_inv.
    - exists (f fGrid). apply set_f_self. }
  destruct H as [fn ->]. split; reflexivity.
Qed.

Lemma LBM_coalesce_keeps (vs : VelSet) (g fGrid : GridObj) :
  level (LBM_coalesce vs g fGrid) = level g
  /\ t (LBM_coalesce vs g fGrid) = t g.
Proof.
  rewrite LBM_coalesce_sweep.
  assert (H : exists fn,
             for_each (region_sites (CoarseLimsX fGrid) (CoarseLimsY fGrid)
                         (CoarseLimsZ fGrid))
               (fun '(i, j, k) => coalesce_site vs fGrid i j k) g
             = set_f fn g).
  { apply (for_each_invariant _ (fun s => exists fn, s = set_f fn g)).
    - intros [[i j] k] s _. apply coalesce_site_inv.
    - exists (f g). apply set_f_self. }
  destruct H as [fn ->]. split; reflexivity.
Qed.

(** *** Pieces of a call *)

Section Steps.

Variable vs : VelSet.
Variable cfg : Config.
Variable ext : External.
Variable lev : Path -> Z.

Lemma path_not_below (p : Path) (reg : nat) (k : Path) : p <> (p ++ [reg]) ++ k.
Proof.
  intros E. apply (f_equal length) in E. rewrite !length_app in E. cbn in E. lia.
Qed.

Lemma step_id (p : Path) : step lev p [] 0 (fun r => r).
Proof.
  intros r Hlev. rewrite app_nil_r, Z.add_0_r. auto.
Qed.

Lemma step_eq (p : Path) (es es' : list Event) (dt dt' : Z) (h h' : Run -> Run) :
  step lev p es dt h -> es = es' -> dt = dt' -> (forall r, h r = h' r) ->
  step lev p es' dt' h'.
Proof.
  intros H <- <- E r Hlev. rewrite <- E. now apply H.
Qed.

Lemma step_seq (p : Path) (es1 es2 : list Event) (dt1 dt2 : Z) (h1 h2 : Run -> Run) :
  step lev p es1 dt1 h1 -> step lev p es2 dt2 h2 ->
  step lev p (es1 ++ es2) (dt1 + dt2) (fun r => h2 (h1 r)).
Proof.
  intros H1 H2 r Hlev.
  destruct (H1 r Hlev) as (E1 & L1 & T1 & F1).
  destruct (H2 (h1 r) L1) as (E2 & L2 & T2 & F2).
  split; [rewrite E2, E1; symmetry; apply app_assoc|].
  split; [exact L2|]. split; [lia|].
  intros q Hq. rewrite F2, F1 by assumption. reflexivity.
Qed.

Lemma step_call (p : Path) (h : GridObj -> GridObj) :
  keeps h -> step lev p [] 0 (call p h).
Proof.
  intros Hk r Hlev. unfold call. cbn [fst snd].
  destruct (Hk (fst r p)) as [Hl Ht].
  split; [now rewrite app_nil_r|]. split.
  - intros q. rewrite grids_insert_level by exact Hl. apply Hlev.
  - split; [rewrite grids_insert; lia|].
    intros q Hq. apply grids_insert_ne. intros <-. apply (Hq []).
    now rewrite app_nil_r.
Qed.

Lemma step_kernel_op (p : Path) (op : Op) (h : GridObj -> GridObj) :
  keeps h -> step lev p [(p, op)] 0 (kernel_op p op h).
Proof.
  intros Hk r Hlev. unfold kernel_op. cbn [fst snd].
  destruct (Hk (fst r p)) as [Hl Ht].
  split; [reflexivity|]. split.
  - intros q. rewrite grids_insert_level by exact Hl. apply Hlev.
  - split; [rewrite grids_insert; lia|].
    intros q Hq. apply grids_insert_ne. intros <-. apply (Hq []).
    now rewrite app_nil_r.
Qed.

Lemma step_tick (p : Path) (dt : Z) :
  step lev p [] dt (call p (fun g => set_t (t g + dt) g)).
Proof.
  intros r Hlev. unfold call. cbn [fst snd].
  split; [now rewrite app_nil_r|]. split.
  - intros q. rewrite grids_insert_level by reflexivity. apply Hlev.
  - split; [rewrite grids_insert; reflexivity|].
    intros q Hq. apply grids_insert_ne. intros <-. apply (Hq []).
    now rewrite app_nil_r.
Qed.

Lemma step_when (p : Path) (cond : bool) (h : Run -> Run) :
  step lev p [] 0 h -> step lev p [] 0 (when cond h).
Proof.
  intros H. unfold when. destruct cond; [exact H|apply step_id].
Qed.

Lemma step_explode (p : Path) (reg : nat) :
  step lev p [(p, OpExplode reg)] 0 (explode_op vs p reg).
Proof.
  intros r Hlev. unfold explode_op. cbn [fst snd].
  destruct (LBM_explode_keeps vs (fst r p) (fst r (p ++ [reg]))) as [Hl Ht].
  split; [reflexivity|]. split.
  - intros q. rewrite grids_insert_level by exact Hl. apply Hlev.
  - split.
    + rewrite grids_insert_ne; [lia|]. intros E. symmetry in E.
      apply (path_not_below p reg []). now rewrite app_nil_r.
    + intros q Hq. apply grids_insert_ne. intros <-. now apply (Hq [reg]).
Qed.

Lemma step_coalesce (p : Path) (reg : nat) :
  step lev p [(p, OpCoalesce reg)] 0 (coalesce_op vs p reg).
Proof.
  intros r Hlev. unfold coalesce_op. cbn [fst snd].
  destruct (LBM_coalesce_keeps vs (fst r p) (fst r (p ++ [reg]))) as [Hl Ht].
  split; [reflexivity|]. split.
  - intros q. rewrite grids_insert_level by exact Hl. apply Hlev.
  - split; [rewrite grids_insert; lia|].
    intros q Hq. apply grids_insert_ne. intros <-. apply (Hq []).
    now rewrite app_nil_r.
Qed.

(** A call on a child is a piece of the call on its parent. *)
Lemma step_child (p : Path) (reg : nat) (es : list Event) (dt : Z) (h : Run -> Run) :
  step lev (p ++ [reg]) es dt h -> step lev p es 0 h.
Proof.
  intros H r Hlev. destruct (H r Hlev) as (E & L & _ & F).
  split; [exact E|]. split; [exact L|]. split.
  - rewrite F; [lia|]. intros k. apply path_not_below.
  - intros q Hq. apply F. intros k E'. apply (Hq ([reg] ++ k)).
    now rewrite app_assoc.
Qed.

Lemma step_coalesce_loop (p : Path) (l : list nat) :
  step lev p (map (fun reg => (p, OpCoalesce reg)) l) 0
    (for_each l (coalesce_op vs p)).
Proof.
  induction l as [|reg l IH].
  - apply step_id.
  - eapply step_eq;
      [exact (step_seq p _ _ _ _ _ _ (step_coalesce p reg) IH)
      |reflexivity|reflexivity|reflexivity].
Qed.

Lemma step_lower_levels (p : Path) (call_ : GridTree -> Path -> Run -> Run)
  (trace_ : GridTree -> Path -> list Event) (l : list GridTree) (reg : nat) :
  Forall (fun child => forall q, exists dt, step lev q (trace_ child q) dt (call_ child q)) l ->
  step lev p (lower_trace trace_ p reg l) 0 (lower_levels vs call_ p reg l).
Proof.
  revert reg. induction l as [|child l IH]; intros reg Hl.
  - apply step_id.
  - apply Forall_cons in Hl as [Hc Hl]. destruct (Hc (p ++ [reg])) as [dt Hstep].
    eapply step_eq;
      [exact (step_seq p _ _ _ _ _ _ (step_explode p reg)
                (step_seq p _ _ _ _ _ _ (step_child p reg _ dt _ Hstep)
                   (IH (S reg) Hl)))
      |reflexivity|reflexivity|reflexivity].
Qed.

End Steps.

Section Driver.

Variable vs : VelSet.
Variable cfg : Config.
Variable ext : External.
Variable lev : Path -> Z.

Hypothesis ext_ok : External_ok ext.

Lemma boundary_keeps (n : Z) : keeps (LBM_boundary ext n).
Proof. intros g. split; [apply boundary_level|apply boundary_t]; exact ext_ok. Qed.

Lemma mpi_keeps : keeps (mpi_communicate ext).
Proof. intros g. split; [apply mpi_level|apply mpi_t]; exact ext_ok. Qed.

Lemma ibm_apply_keeps : keeps (ibm_apply ext).
Proof. intros g. split; [apply ibm_apply_level|apply ibm_apply_t]; exact ext_ok. Qed.

Lemma ibm_move_keeps : keeps (ibm_move_bodies ext).
Proof. intros g. split; [apply ibm_move_level|apply ibm_move_t]; exact ext_ok. Qed.

(** A piece whose text tests the level of the grid. *)
Lemma step_eq_on (p : Path) (es : list Event) (dt : Z) (h h' : Run -> Run) :
  step lev p es dt h ->
  (forall r, (forall q, level (fst r q) = lev q) -> h r = h' r) ->
  step lev p es dt h'.
Proof.
  intros H E r Hlev. rewrite <- E by exact Hlev. now apply H.
Qed.

Lemma step_untick (p : Path) :
  step lev p [] (-1) (call p (fun g => set_t (t g - 1) g)).
Proof.
  eapply step_eq; [apply (step_tick lev p (-1))|reflexivity|reflexivity|reflexivity].
Qed.

Lemma step_stream_with_bcs (p : Path) :
  step lev p [(p, OpStream)] 0 (stream_with_bcs vs cfg ext p).
Proof.
  unfold stream_with_bcs.
  eapply step_eq;
    [exact (step_seq lev p _ _ _ _ _ _
              (step_when lev p
                 ((INLET_ON cfg || OUTLET_ON cfg)
                  && (negb (INLET_DO_NOTHING cfg) && negb (INLET_REGULARISED cfg)))
                 _ (step_call lev p _ (boundary_keeps 2)))
              (step_seq lev p _ _ _ _ _ _
                 (step_when lev p (SOLID_BLOCK_ON cfg || WALLS_ON cfg) _
                    (step_call lev p _ (boundary_keeps 1)))
                 (step_seq lev p _ _ _ _ _ _
                    (step_kernel_op lev p OpStream _ (LBM_stream_keeps vs cfg ext))
                    (step_when lev p (BFL_ON cfg) _
                       (step_call lev p _ (boundary_keeps 5))))))
    |reflexivity|reflexivity|reflexivity].
Qed.

Lemma step_kernel_body (p : Path) (regions : nat) (es : list Event) (lower : Run -> Run) :
  step lev p es 0 lower ->
  step lev p (body_trace cfg lev p regions es) 0
    (kernel_body vs cfg ext p regions lower).
Proof.
  intros Hlower.
  pose (before := fun r : Run =>
    kernel_op p OpCollide (LBM_collide vs cfg)
      (call p (LBM_forcegrid vs cfg false)
         (when (INLET_ON cfg && INLET_REGULARISED cfg && negb (INLET_DO_NOTHING cfg))
            (call p (LBM_boundary ext 2)) r))).
  assert (Sbefore : step lev p [(p, OpCollide)] 0 before).
  { eapply step_eq;
      [exact (step_seq lev p _ _ _ _ _ _
                (step_when lev p
                   (INLET_ON cfg && INLET_REGULARISED cfg && negb (INLET_DO_NOTHING cfg))
                   _ (step_call lev p _ (boundary_keeps 2)))
                (step_seq lev p _ _ _ _ _ _
                   (step_call lev p _ (LBM_forcegrid_keeps vs cfg false))
                   (step_kernel_op lev p OpCollide _ (LBM_collide_keeps vs cfg))))
      |reflexivity|reflexivity|reflexivity]. }
  pose (after := fun r : Run =>
    kernel_op p OpMacro (LBM_macro vs)
      (when (OUTLET_ON cfg) (call p (LBM_boundary ext 3)) r)).
  assert (Safter : step lev p [(p, OpMacro)] 0 after).
  { eapply step_eq;
      [exact (step_seq lev p _ _ _ _ _ _
                (step_when lev p (OUTLET_ON cfg) _
                   (step_call lev p _ (boundary_keeps 3)))
                (step_kernel_op lev p OpMacro _ (LBM_macro_keeps vs)))
      |reflexivity|reflexivity|reflexivity]. }
  unfold body_trace. destruct (lev p <? NumLev cfg) eqn:Elev.
  - eapply step_eq_on.
    + eapply step_eq;
        [exact (step_seq lev p _ _ _ _ _ _ Sbefore
                  (step_seq lev p _ _ _ _ _ _ Hlower
                     (step_seq lev p _ _ _ _ _ _ (step_stream_with_bcs p)
                        (step_seq lev p _ _ _ _ _ _
                           (step_coalesce_loop vs lev p (seq 0 regions)) Safter))))
        |reflexivity|reflexivity|reflexivity].
    + intros r Hlev. cbv beta. unfold kernel_body.
      destruct (Sbefore r Hlev) as (_ & L & _).
      fold (before r). rewrite (L p), Elev. reflexivity.
  - eapply step_eq_on.
    + eapply step_eq;
        [exact (step_seq lev p _ _ _ _ _ _ Sbefore
                  (step_seq lev p _ _ _ _ _ _ (step_stream_with_bcs p) Safter))
        |reflexivity|reflexivity|reflexivity].
    + intros r Hlev. cbv beta. unfold kernel_body.
      destruct (Sbefore r Hlev) as (_ & L & _).
      fold (before r). rewrite (L p), Elev. reflexivity.
Qed.

Lemma step_kernel_loop (p : Path) (es : list Event) (body : Run -> Run) :
  step lev p es 0 body ->
  step lev p (if lev p =? 0 then es else es ++ es) (if lev p =? 0 then 1 else 2)
    (kernel_loop 2 p body 1).
Proof.
  intros Hbody.
  pose (trip := fun r : Run => call p (fun g => set_t (t g + 1) g) (body r)).
  assert (Strip : step lev p es 1 trip).
  { eapply step_eq;
      [exact (step_seq lev p _ _ _ _ _ _ Hbody (step_tick lev p 1))
      |apply app_nil_r|reflexivity|reflexivity]. }
  destruct (lev p =? 0) eqn:Elev.
  - eapply step_eq_on; [exact Strip|].
    intros r Hlev. cbn [kernel_loop].
    destruct (Hbody r Hlev) as (_ & L & _). rewrite (L p), Elev. reflexivity.
  - eapply step_eq_on.
    + exact (step_seq lev p _ _ _ _ _ _ Strip Strip).
    + intros r Hlev. cbv beta. cbn [kernel_loop].
      destruct (Hbody r Hlev) as (_ & L & _). rewrite (L p), Elev.
      fold (trip r).
      destruct (Strip r Hlev) as (_ & L1 & _).
      destruct (Hbody (trip r) L1) as (_ & L2 & _). rewrite (L2 p), Elev.
      reflexivity.
Qed.

Lemma step_pre_kernel (p : Path) (IBM_flag : bool) :
  step lev p [] 0 (pre_kernel vs cfg p IBM_flag).
Proof.
  intros r Hlev. unfold pre_kernel. destruct (IBM_ON cfg).
  - unfold when. destruct (_ && _).
    + now apply (step_call lev p _ (LBM_forcegrid_keeps vs cfg true)).
    + now apply step_id.
  - now apply (step_call lev p _ (LBM_forcegrid_keeps vs cfg true)).
Qed.

(** One call of the driver. *)
Lemma step_LBM_multi (tr : GridTree) :
  forall (IBM_flag : bool) (p : Path),
    step lev p (call_trace cfg lev IBM_flag tr p) (if lev p =? 0 then 1 else 2)
      (LBM_multi vs cfg ext tr p IBM_flag).
Proof.
  induction tr as [subGrid IH] using GridTree_ind. intros IBM_flag p.
  pose (kernel := fun flag : bool =>
    kernel_loop 2 p
      (kernel_body vs cfg ext p (length subGrid)
         (lower_levels vs (fun child q => LBM_multi vs cfg ext child q flag) p 0 subGrid))
      1).
  pose (trip := fun flag : bool =>
    body_trace cfg lev p (length subGrid)
      (lower_trace (fun child q => call_trace cfg lev flag child q) p 0 subGrid)).
  assert (Skernel : forall flag,
             step lev p (if lev p =? 0 then trip flag else trip flag ++ trip flag)
               (if lev p =? 0 then 1 else 2) (kernel flag)).
  { intros flag. apply step_kernel_loop, step_kernel_body, step_lower_levels.
    eapply Forall_impl; [exact IH|].
    intros child Hc q. eexists. apply Hc. }
  pose (communicate := when (BUILD_FOR_MPI cfg) (call p (mpi_communicate ext))).
  assert (Scomm : step lev p [] 0 communicate).
  { apply step_when, step_call, mpi_keeps. }
  assert (Sfirst : step lev p (if lev p =? 0 then trip IBM_flag
                               else trip IBM_flag ++ trip IBM_flag)
                     (if lev p =? 0 then 1 else 2)
                     (fun r => kernel IBM_flag (pre_kernel vs cfg p IBM_flag r))).
  { eapply step_eq;
      [exact (step_seq lev p _ _ _ _ _ _ (step_pre_kernel p IBM_flag)
                (Skernel IBM_flag))
      |reflexivity|reflexivity|reflexivity]. }
  change (call_trace cfg lev IBM_flag (Node subGrid) p)
    with (if lev p =? 0
          then if IBM_ON cfg && IBM_flag then trip IBM_flag ++ trip false
               else trip IBM_flag
          else trip IBM_flag ++ trip IBM_flag).
  intros r Hlev. cbn [LBM_multi]. fold (kernel IBM_flag) (kernel false) communicate.
  destruct (Sfirst r Hlev) as (E1 & L1 & T1 & F1). cbv beta in E1, L1, T1, F1.
  rewrite (L1 p).
  destruct (lev p =? 0) eqn:Elev; cbn [andb].
  - destruct (IBM_ON cfg && IBM_flag) eqn:Eibm.
    + set (r1 := kernel IBM_flag (pre_kernel vs cfg p IBM_flag r)) in *.
      pose (corrector := fun r' : Run =>
        call p (ibm_move_bodies ext)
          (communicate
             (kernel false
                (pre_kernel vs cfg p false
                   (call p (fun g => set_t (t g - 1) g)
                      (call p (fun g => set_rho (rho (fst r p))
                                          (set_u (u (fst r p)) (set_f (f (fst r p)) g)))
                         (call p (ibm_apply ext)
                            (call p (LBM_forcegrid vs cfg true) r')))))))).
      assert (Scorr : step lev p (trip false) 0 corrector).
      { assert (Sk := Skernel false).
        eapply step_eq;
          [exact (step_seq lev p _ _ _ _ _ _
                    (step_call lev p _ (LBM_forcegrid_keeps vs cfg true))
                    (step_seq lev p _ _ _ _ _ _
                       (step_call lev p _ ibm_apply_keeps)
                       (step_seq lev p _ _ _ _ _ _
                          (step_call lev p
                             (fun g => set_rho (rho (fst r p))
                                         (set_u (u (fst r p)) (set_f (f (fst r p)) g)))
                             (fun g => conj eq_refl eq_refl))
                          (step_seq lev p _ _ _ _ _ _ (step_untick p)
                             (step_seq lev p _ _ _ _ _ _ (step_pre_kernel p false)
                                (step_seq lev p _ _ _ _ _ _ Sk
                                   (step_seq lev p _ _ _ _ _ _ Scomm
                                      (step_call lev p _ ibm_move_keeps))))))))
          |cbn [app]; apply app_nil_r|reflexivity|reflexivity]. }
      destruct (step_seq lev p _ _ _ _ _ _ Scorr Scomm r1 L1) as (E2 & L2 & T2 & F2).
      cbv beta in E2, L2, T2, F2.
      assert (Hfin :
        snd (communicate (corrector r1)) = snd r ++ trip IBM_flag ++ trip false
        /\ (forall q, level (fst (communicate (corrector r1)) q) = lev q)
        /\ t (fst (communicate (corrector r1)) p) = t (fst r p) + 1
        /\ (forall q, (forall k, q <> p ++ k) ->
             fst (communicate (corrector r1)) q = fst r q)).
      { split; [rewrite E2, E1, app_nil_r; symmetry; apply app_assoc|].
        split; [exact L2|]. split; [lia|].
        intros q Hq. rewrite F2, F1 by assumption. reflexivity. }
      exact Hfin.
    + destruct (Scomm _ L1) as (E2 & L2 & T2 & F2).
      split; [rewrite E2, E1, app_nil_r; reflexivity|].
      split; [exact L2|]. split; [lia|].
      intros q Hq. rewrite F2, F1 by assumption. reflexivity.
  - rewrite andb_false_r.
    destruct (Scomm _ L1) as (E2 & L2 & T2 & F2).
    split; [rewrite E2, E1, app_nil_r; reflexivity|].
    split; [exact L2|]. split; [lia|].
    intros q Hq. rewrite F2, F1 by assumption. reflexivity.
Qed.

End Driver.

Lemma no_ext_ok : External_ok no_ext.
Proof. split; reflexivity. Qed.




(** * Further properties of the kernel *)

(** ** Means *)

Lemma Z2Qc_succ (z : Z) : Z2Qc (z + 1) = (Z2Qc z + 1)%Qc.
Proof.
  apply Qc_is_canon. unfold Z2Qc. cbn. rewrite !Qred_correct.
  rewrite inject_Z_plus. reflexivity.
Qed.

Lemma Z2Qc_pos_nonzero (z : Z) : 0 < z -> Z2Qc z <> 0%Qc.
Proof.
  intros Hz H. apply (f_equal this) in H. unfold Z2Qc in H. cbn in H.
  assert (H' : (inject_Z z == 0)%Q) by (rewrite <- Qred_correct, H; reflexivity).
  unfold Qeq in H'. cbn in H'. lia.
Qed.

Lemma sum_const (a : Qc) (n : nat) :
  fold_right Qcplus 0%Qc (repeat a n) = (Z2Qc (Z.of_nat n) * a)%Qc.
Proof.
  induction n as [|n IH].
  - cbn [repeat fold_right Z.of_nat]. apply Qc_is_canon. reflexivity.
  - replace (Z.of_nat (S n)) with (Z.of_nat n + 1) by lia.
    rewrite Z2Qc_succ. cbn [repeat fold_right]. rewrite IH. ring.
Qed.

(** The mean of copies of one value is that value. *)
Lemma mean_const (a : Qc) (xs : list Qc) :
  xs <> [] -> Forall (fun x => x = a) xs -> mean xs = a.
Proof.
  intros Hne Hall.
  assert (E : xs = repeat a (length xs)).
  { clear Hne. induction Hall as [|x l -> _ IH]; [reflexivity|].
    cbn. now rewrite <- IH. }
  unfold mean. rewrite E at 1. rewrite sum_const.
  assert (Hn : Z2Qc (Z.of_nat (length xs)) <> 0%Qc).
  { apply Z2Qc_pos_nonzero. destruct xs; [contradiction|cbn; lia]. }
  unfold Qcdiv. rewrite (Qcmult_comm (Z2Qc _) a), <- Qcmult_assoc.
  rewrite Qcmult_inv_r by exact Hn. ring.
Qed.

(** ** Explode and coalesce *)

(** The explosion at one slot of a covered fine site. *)
Lemma LBM_explode_at (vs : VelSet) (g fGrid : GridObj) (x s : Site) (v : nat) :
  dims vs = 2%nat \/ dims vs = 3%nat ->
  region_ok vs fGrid ->
  in_region fGrid x ->
  LatTyp g x = TransitionToCoarser ->
  LatTyp fGrid (first_sibling fGrid x) = TransitionReceiveFromFiner ->
  s ∈ covered vs fGrid x -> (v < nVels vs)%nat ->
  f (LBM_explode vs g fGrid) (s, v) = f g (x, v).
Proof.
  intros Hd Hok Hx H4 E3 Hs Hv. rewrite LBM_explode_sweep.
  apply (for_each_hit _ (fun fG => exists fn, fG = set_f fn fGrid)
           (fun fG : GridObj => f fG (s, v)) (fun a => a = x)).
  - intros [[i j] k] fG _. apply explode_site_inv.
  - intros a fG _ HfG ->.
    apply (explode_site_gated vs g fGrid x fG s v); assumption.
  - intros a fG Ha HfG Hne.
    assert (Hcl := explode_site_closed vs g fGrid a fG (s, v) HfG).
    destruct a as [[i j] k]. apply Hcl. right. right. cbn [fst].
    intros Hsa. apply Hne.
    apply (covered_disjoint vs fGrid (i, j, k) x s); try assumption.
    now apply elem_of_region_sites.
  - intros a _. destruct (decide (a = x)); auto.
  - exists (f fGrid). apply set_f_self.
  - exists x. split; [|reflexivity]. now apply elem_of_region_sites.
Qed.

(** Only the populations of the fine grid change. *)
Lemma LBM_explode_form (vs : VelSet) (g fGrid : GridObj) :
  LBM_explode vs g fGrid = set_f (f (LBM_explode vs g fGrid)) fGrid.
Proof.
  assert (H : exists fn, LBM_explode vs g fGrid = set_f fn fGrid).
  { rewrite LBM_explode_sweep.
    apply (for_each_invariant _ (fun s => exists fn, s = set_f fn fGrid)).
    - intros [[i j] k] s _. apply explode_site_inv.
    - exists (f fGrid). apply set_f_self. }
  destruct H as [fn E]. rewrite E at 1. now rewrite E.
Qed.

Lemma LBM_coalesce_form (vs : VelSet) (g fGrid : GridObj) :
  LBM_coalesce vs g fGrid = set_f (f (LBM_coalesce vs g fGrid)) g.
Proof.
  assert (H : exists fn, LBM_coalesce vs g fGrid = set_f fn g).
  { rewrite LBM_coalesce_sweep.
    apply (for_each_invariant _ (fun s => exists fn, s = set_f fn g)).
    - intros [[i j] k] s _. apply coalesce_site_inv.
    - exists (f g). apply set_f_self. }
  destruct H as [fn E]. rewrite E at 1. now rewrite E.
Qed.

(** X1. Coalescing straight after exploding gives back the coarse
    populations: at a coarse transition site of the region whose first
    fine sibling receives, the mean over the covered siblings of the
    exploded fine grid is the coarse population itself, and the coalesce
    leaves the coarse population as it was. *)
Theorem explode_coalesce_round_trip (vs : VelSet) (g fGrid : GridObj)
  (x : Site) (v : nat) :
  dims vs = 2%nat \/ dims vs = 3%nat ->
  region_ok vs fGrid ->
  in_region fGrid x ->
  LatTyp g x = TransitionToCoarser ->
  LatTyp fGrid (first_sibling fGrid x) = TransitionReceiveFromFiner ->
  (v < nVels vs)%nat ->
  let fGrid' := LBM_explode vs g fGrid in
  mean (map (fun s => f fGrid' (s, v)) (covered vs fGrid' x)) = f g (x, v)
  /\ f (LBM_coalesce vs g fGrid') (x, v) = f g (x, v).
Proof.
  intros Hd Hok Hx H4 E3 Hv fGrid'.
  assert (Ecov : covered vs fGrid' x = covered vs fGrid x).
  { unfold fGrid'. rewrite LBM_explode_form. reflexivity. }
  assert (Hx' : in_region fGrid' x).
  { unfold fGrid'. rewrite LBM_explode_form. exact Hx. }
  assert (Hmean : mean (map (fun s => f fGrid' (s, v)) (covered vs fGrid' x))
                  = f g (x, v)).
  { rewrite Ecov. apply mean_const.
    - intros E. apply (f_equal length) in E. rewrite length_map in E.
      rewrite covered_length in E by exact Hd.
      destruct Hd as [Hd|Hd]; rewrite Hd in E; discriminate.
    - apply Forall_map, Forall_forall. intros s Hs.
      now apply (LBM_explode_at vs g fGrid x s v). }
  split; [exact Hmean|].
  rewrite LBM_coalesce_at by (try assumption; now left).
  destruct (decide _) as [E0|]; [|reflexivity]. now rewrite Hmean.
Qed.

Lemma explode_coalesce_round_trip_witness :
  mean (map (fun s => f (LBM_explode D2Q9 coarse_cell fine_block) (s, 2%nat))
          (covered D2Q9 (LBM_explode D2Q9 coarse_cell fine_block) (0, 0, 0)))
  = f coarse_cell (0, 0, 0, 2%nat)
  /\ f (LBM_coalesce D2Q9 coarse_cell (LBM_explode D2Q9 coarse_cell fine_block))
       (0, 0, 0, 2%nat)
     = f coarse_cell (0, 0, 0, 2%nat).
Proof.
  apply (explode_coalesce_round_trip D2Q9 coarse_cell fine_block (0, 0, 0) 2).
  - left. reflexivity.
  - right. reflexivity.
  - vm_compute. intuition discriminate.
  - reflexivity.
  - reflexivity.
  - vm_compute. lia.
Defined.

(** X2. The explosion assigns nothing but populations of the fine grid,
    and only at fine sites covered by a coarse transition site of the
    region whose first sibling receives: every other slot of the fine
    grid, and every other member of it, is as before. *)
Theorem explode_frame (vs : VelSet) (g fGrid : GridObj) :
  LBM_explode vs g fGrid = set_f (f (LBM_explode vs g fGrid)) fGrid
  /\ forall (s : Site) (v : nat),
       (forall x, in_region fGrid x ->
          LatTyp g x = TransitionToCoarser ->
          LatTyp fGrid (first_sibling fGrid x) = TransitionReceiveFromFiner ->
          s ∉ covered vs fGrid x) ->
       f (LBM_explode vs g fGrid) (s, v) = f fGrid (s, v).
Proof.
  split; [apply LBM_explode_form|]. intros s v Hno.
  rewrite LBM_explode_sweep.
  apply (for_each_miss _ (fun fG => exists fn, fG = set_f fn fGrid)
           (fun fG : GridObj => f fG (s, v)) (fun _ => False)); auto.
  - intros [[i j] k] fG _. apply explode_site_inv.
  - intros a fG Ha HfG _.
    assert (Hcl := explode_site_closed vs g fGrid a fG (s, v) HfG).
    apply elem_of_region_sites in Ha.
    destruct a as [[i j] k]. apply Hcl.
    destruct (decide (LatTyp g (i, j, k) = TransitionToCoarser)) as [E4|]; [|now left].
    destruct (decide (LatTyp fGrid (first_sibling fGrid (i, j, k))
                      = TransitionReceiveFromFiner)) as [E3|]; [|right; now left].
    right. right. now apply Hno.
  - exists (f fGrid). apply set_f_self.
Qed.

Lemma explode_frame_witness :
  f (LBM_explode D2Q9 transition_row fine_strip) (4, 0, 0, 1%nat)
  = f fine_strip (4, 0, 0, 1%nat).
Proof.
  apply (explode_frame D2Q9 transition_row fine_strip).
  intros [[i j] k] (Hi & Hj & Hk) _ _ Hs.
  cbn in Hi, Hj, Hk. apply list_elem_of_In in Hs. cbn in Hs.
  destruct_or!; try contradiction; simplify_eq; lia.
Defined.

(** X3. The coalesce assigns nothing but populations of the coarse grid,
    and only at sites of the region of type 4 or 5: every other slot of
    the coarse grid, and every other member of it, is as before. *)
Theorem coalesce_frame (vs : VelSet) (g fGrid : GridObj) :
  LBM_coalesce vs g fGrid = set_f (f (LBM_coalesce vs g fGrid)) g
  /\ forall (x : Site) (v : nat),
       ~ in_region fGrid x
       \/ (LatTyp g x <> TransitionToCoarser /\ LatTyp g x <> SolidVariant) ->
       f (LBM_coalesce vs g fGrid) (x, v) = f g (x, v).
Proof.
  split; [apply LBM_coalesce_form|]. intros x v Hx.
  rewrite LBM_coalesce_sweep.
  apply (for_each_miss _ (fun s => exists fn, s = set_f fn g)
           (fun s : GridObj => f s (x, v)) (fun _ => False)); auto.
  - intros [[i j] k] s _. apply coalesce_site_inv.
  - intros a s Ha [fn ->] _. apply elem_of_region_sites in Ha.
    destruct a as [[i j] k].
    destruct (decide ((i, j, k) = x)) as [<-|Hne].
    + destruct Hx as [Hx|[N4 N5]]; [contradiction|].
      unfold coalesce_site. cbn [LatTyp set_f].
      destruct (Z.eqb_spec (LatTyp g (i, j, k)) 4); [contradiction|].
      destruct (Z.eqb_spec (LatTyp g (i, j, k)) 5); [contradiction|].
      reflexivity.
    + apply coalesce_site_other. cbn. congruence.
  - exists (f g). apply set_f_self.
Qed.

Lemma coalesce_frame_witness :
  f (LBM_coalesce D2Q9 streamed_coarse_cell fine_row) (5, 0, 0, 8%nat)
  = f streamed_coarse_cell (5, 0, 0, 8%nat).
Proof.
  apply (coalesce_frame D2Q9 streamed_coarse_cell fine_row).
  left. cbn. lia.
Defined.

(** ** The macroscopic sweep at fluid and refined sites *)

Section MacroValues.

Variable vs : VelSet.

(** The four accumulators of the moment loop are four sums. *)
Lemma moments_loop (g : GridObj) (i j k : Z) (l : list nat) (a b c0 r : Qc) :
  for_each l
    (fun v '(fux_temp, fuy_temp, fuz_temp, rho_temp) =>
       ((fux_temp + Z2Qc (c vs 0 v) * f g (i, j, k, v))%Qc,
        (fuy_temp + Z2Qc (c vs 1 v) * f g (i, j, k, v))%Qc,
        (fuz_temp + Z2Qc (c vs 2 v) * f g (i, j, k, v))%Qc,
        (rho_temp + f g (i, j, k, v))%Qc))
    (a, b, c0, r)
  = (for_each l (fun v acc => (acc + Z2Qc (c vs 0 v) * f g (i, j, k, v))%Qc) a,
     for_each l (fun v acc => (acc + Z2Qc (c vs 1 v) * f g (i, j, k, v))%Qc) b,
     for_each l (fun v acc => (acc + Z2Qc (c vs 2 v) * f g (i, j, k, v))%Qc) c0,
     for_each l (fun v acc => (acc + f g (i, j, k, v))%Qc) r).
Proof.
  revert a b c0 r. induction l as [|v l IH]; intros a b c0 r; [reflexivity|].
  rewrite !for_each_cons. apply IH.
Qed.

(** What the update of one site leaves at that site. *)
Lemma macro_rho_u_at (i j k : Z) (g : GridObj) :
  dims vs = 2%nat \/ dims vs = 3%nat ->
  rho (macro_rho_u vs i j k g) (i, j, k) = macro_rho vs g (i, j, k)
  /\ forall d, (d < dims vs)%nat ->
       u (macro_rho_u vs i j k g) (i, j, k, d) = macro_u vs g (i, j, k) d.
Proof.
  intros Hd. unfold macro_rho_u, macro_rho, macro_u, write_u, write_rho.
  destruct (LatTyp g (i, j, k) =? 2).
  { destruct Hd as [Hd|Hd]; rewrite Hd; cbn; (split; [apply lookup_insert3|]);
      intros d Hlt.
    - destruct d as [|[|d]]; [| |lia].
      + skip_inserts. apply lookup_insert4.
      + apply lookup_insert4.
    - destruct d as [|[|[|d]]]; [| | |lia].
      + skip_inserts. apply lookup_insert4.
      + skip_inserts. apply lookup_insert4.
      + apply lookup_insert4. }
  destruct (_ || _).
  { destruct Hd as [Hd|Hd]; rewrite Hd; cbn; (split; [apply lookup_insert3|]);
      intros d Hlt.
    - destruct d as [|[|d]]; [| |lia].
      + skip_inserts. apply lookup_insert4.
      + apply lookup_insert4.
    - destruct d as [|[|[|d]]]; [| | |lia].
      + skip_inserts. apply lookup_insert4.
      + skip_inserts. apply lookup_insert4.
      + apply lookup_insert4. }
  rewrite moments_loop. unfold forced_velocity, momentum, density, sum_upto.
  destruct Hd as [Hd|Hd]; rewrite Hd;
    cbn [Nat.eqb rho u level force_xyz set_rho set_u];
    (split; [apply lookup_insert3|]); intros d Hlt.
  - destruct d as [|[|d]]; [| |lia].
    + skip_inserts. apply lookup_insert4.
    + apply lookup_insert4.
  - destruct d as [|[|[|d]]]; [| | |lia].
    + skip_inserts. apply lookup_insert4.
    + skip_inserts. apply lookup_insert4.
    + apply lookup_insert4.
Qed.

(** The sweep leaves at every site of the grid what the update of that
    site computes from the grid the sweep started from. *)
Lemma LBM_macro_at (g : GridObj) (x : Site) :
  dims vs = 2%nat \/ dims vs = 3%nat ->
  in_grid g x ->
  rho (LBM_macro vs g) x = macro_rho vs g x
  /\ forall d, (d < dims vs)%nat -> u (LBM_macro vs g) (x, d) = macro_u vs g x d.
Proof.
  intros Hd Hx. rewrite LBM_macro_sweep.
  apply (for_each_two_phase _ x
           (fun s => exists r u' ra ua uua, s = set_macro r u' ra ua uua g)
           (fun s => rho s x = macro_rho vs g x
                     /\ forall d, (d < dims vs)%nat -> u s (x, d) = macro_u vs g x d)).
  - apply NoDup_sites.
  - now apply elem_of_sites.
  - intros [[i j] k] s _ _ (r & u' & ra & ua & uua & ->).
    destruct (macro_timeav_frame vs i j k
                (macro_rho_u vs i j k (set_macro r u' ra ua uua g)))
      as (ra' & ua' & uua' & -> & _).
    destruct (macro_rho_u_frame vs i j k (set_macro r u' ra ua uua g))
      as (r' & u'' & ->).
    exists r', u'', ra', ua', uua'. reflexivity.
  - destruct x as [[i j] k]. intros s (r & u' & ra & ua & uua & ->).
    destruct (macro_trip_frame vs i j k (set_macro r u' ra ua uua g))
      as (_ & _ & -> & ->).
    apply (macro_rho_u_at i j k (set_macro r u' ra ua uua g) Hd).
  - intros [[i j] k] s _ Hne [Hr Hu].
    destruct (macro_trip_other vs i j k s x) as (-> & _ & H); [congruence|].
    split; [exact Hr|]. intros d Hlt. destruct (H d) as [-> _]. now apply Hu.
  - exists (rho g), (u g), (rho_timeav g), (ui_timeav g), (uiuj_timeav g).
    destruct g. reflexivity.
Qed.

(** The sweep assigns the five arrays of macroscopic quantities and
    nothing else. *)
Lemma LBM_macro_form (g : GridObj) :
  let g' := LBM_macro vs g in
  g' = set_macro (rho g') (u g') (rho_timeav g') (ui_timeav g') (uiuj_timeav g') g.
Proof.
  cbn zeta.
  assert (H : exists r u' ra ua uua, LBM_macro vs g = set_macro r u' ra ua uua g).
  { rewrite LBM_macro_sweep.
    apply (for_each_invariant _
             (fun s => exists r u' ra ua uua, s = set_macro r u' ra ua uua g)).
    - intros [[i j] k] s _ (r & u' & ra & ua & uua & ->).
      destruct (macro_timeav_frame vs i j k
                  (macro_rho_u vs i j k (set_macro r u' ra ua uua g)))
        as (ra' & ua' & uua' & -> & _).
      destruct (macro_rho_u_frame vs i j k (set_macro r u' ra ua uua g))
        as (r' & u'' & ->).
      exists r', u'', ra', ua', uua'. reflexivity.
    - exists (rho g), (u g), (rho_timeav g), (ui_timeav g), (uiuj_timeav g).
      destruct g. reflexivity. }
  destruct H as (r & u' & ra & ua & uua & E). rewrite E at 1. now rewrite E.
Qed.

(** Outside the grid the sweep changes nothing. *)
Lemma LBM_macro_outside (g : GridObj) (y : Site) :
  ~ in_grid g y ->
  let g' := LBM_macro vs g in
  rho g' y = rho g y
  /\ rho_timeav g' y = rho_timeav g y
  /\ forall d, u g' (y, d) = u g (y, d)
               /\ ui_timeav g' (y, d) = ui_timeav g (y, d)
               /\ uiuj_timeav g' (y, d) = uiuj_timeav g (y, d).
Proof.
  intros Hy. cbn zeta. rewrite LBM_macro_sweep.
  apply (for_each_invariant _
           (fun s => rho s y = rho g y
              /\ rho_timeav s y = rho_timeav g y
              /\ forall d, u s (y, d) = u g (y, d)
                           /\ ui_timeav s (y, d) = ui_timeav g (y, d)
                           /\ uiuj_timeav s (y, d) = uiuj_timeav g (y, d))).
  - intros [[i j] k] s Ha (Hr & Hra & H).
    assert (Hne : y <> (i, j, k)).
    { intros ->. apply Hy. now apply elem_of_sites in Ha. }
    destruct (macro_trip_other vs i j k s y Hne) as (-> & -> & H').
    split; [exact Hr|]. split; [exact Hra|].
    intros d. destruct (H' d) as (-> & -> & ->). apply H.
  - repeat split.
Qed.

End MacroValues.

(** X4. After the macroscopic sweep a site of the grid that is neither
    solid (types 0 and 5) nor covered by a finer grid (type 2) has as
    density the sum of its populations, and as velocity component [d] the
    first moment of the populations plus half the force scaled by
    [1 / 2^level] times the density, divided by the density (which is
    taken to be non-zero, the code dividing by it). *)
Theorem macro_fluid_moments (vs : VelSet) (g : GridObj) (x : Site) :
  dims vs = 2%nat \/ dims vs = 3%nat ->
  in_grid g x ->
  LatTyp g x <> Solid -> LatTyp g x <> CoveredByFiner -> LatTyp g x <> SolidVariant ->
  sum_upto (nVels vs) (fun v => f g (x, v)) <> 0%Qc ->
  let g' := LBM_macro vs g in
  rho g' x = sum_upto (nVels vs) (fun v => f g (x, v))
  /\ forall d, (d < dims vs)%nat ->
       u g' (x, d)
       = ((sum_upto (nVels vs) (fun v => (Z2Qc (c vs d v) * f g (x, v))%Qc)
           + rho g' x * (1 / pow2 (level g)) * half * force_xyz g (x, d))
          / rho g' x)%Qc.
Proof.
  intros Hd Hx N0 N2 N5 _. cbn zeta.
  destruct (LBM_macro_at vs g x Hd Hx) as [Hr Hu].
  assert (Er : macro_rho vs g x = density vs g x).
  { unfold macro_rho.
    destruct (Z.eqb_spec (LatTyp g x) 2); [contradiction|].
    destruct (Z.eqb_spec (LatTyp g x) 0); [contradiction|].
    destruct (Z.eqb_spec (LatTyp g x) 5); [contradiction|]. reflexivity. }
  rewrite Hr, Er. split; [reflexivity|]. intros d Hlt.
  rewrite (Hu d Hlt). unfold macro_u.
  destruct (Z.eqb_spec (LatTyp g x) 2); [contradiction|].
  destruct (Z.eqb_spec (LatTyp g x) 0); [contradiction|].
  destruct (Z.eqb_spec (LatTyp g x) 5); [contradiction|]. reflexivity.
Qed.

Lemma macro_fluid_moments_witness :
  rho (LBM_macro D2Q9 fluid_row) (1, 0, 0)
  = sum_upto (nVels D2Q9) (fun v => f fluid_row (1, 0, 0, v))
  /\ forall d, (d < dims D2Q9)%nat ->
       u (LBM_macro D2Q9 fluid_row) (1, 0, 0, d)
       = ((sum_upto (nVels D2Q9)
             (fun v => (Z2Qc (c D2Q9 d v) * f fluid_row ((1, 0, 0)%Z, v))%Qc)
           + rho (LBM_macro D2Q9 fluid_row) (1, 0, 0)%Z
             * (1 / pow2 (level fluid_row)) * half
             * force_xyz fluid_row ((1, 0, 0)%Z, d))
          / rho (LBM_macro D2Q9 fluid_row) (1, 0, 0)%Z)%Qc.
Proof.
  apply (macro_fluid_moments D2Q9 fluid_row (1, 0, 0)).
  - left. reflexivity.
  - cbn. lia.
  - discriminate.
  - discriminate.
  - discriminate.
  - intros H. apply (f_equal this) in H. vm_compute in H. discriminate.
Defined.

(** X5. After the macroscopic sweep a site of the grid that is covered by
    a finer grid (type 2) has density 0 and velocity 0, whatever its
    populations are; the single-site update does the same. *)
Theorem macro_covered_zero (vs : VelSet) (g : GridObj) (x : Site) :
  dims vs = 2%nat \/ dims vs = 3%nat ->
  in_grid g x ->
  LatTyp g x = CoveredByFiner ->
  (rho (LBM_macro vs g) x = 0%Qc
   /\ forall d, (d < dims vs)%nat -> u (LBM_macro vs g) (x, d) = 0%Qc)
  /\ (let '(i, j, k) := x in
      rho (LBM_macro_site vs i j k g) x = 0%Qc
      /\ forall d, (d < dims vs)%nat -> u (LBM_macro_site vs i j k g) (x, d) = 0%Qc).
Proof.
  intros Hd Hx H2.
  assert (Er : macro_rho vs g x = 0%Qc) by (unfold macro_rho; now rewrite H2).
  assert (Eu : forall d, macro_u vs g x d = 0%Qc)
    by (intros d; unfold macro_u; now rewrite H2).
  split.
  - destruct (LBM_macro_at vs g x Hd Hx) as [Hr Hu].
    split; [now rewrite Hr|]. intros d Hlt. now rewrite Hu.
  - destruct x as [[i j] k]. unfold LBM_macro_site.
    destruct (macro_rho_u_at vs i j k g Hd) as [Hr Hu].
    split; [now rewrite Hr|]. intros d Hlt. now rewrite Hu.
Qed.

Lemma macro_covered_zero_witness :
  (rho (LBM_macro D2Q9 covered_row) (0, 0, 0) = 0%Qc
   /\ forall d, (d < dims D2Q9)%nat -> u (LBM_macro D2Q9 covered_row) (0, 0, 0, d) = 0%Qc)
  /\ (rho (LBM_macro_site D2Q9 0 0 0 covered_row) (0, 0, 0) = 0%Qc
      /\ forall d, (d < dims D2Q9)%nat ->
           u (LBM_macro_site D2Q9 0 0 0 covered_row) (0, 0, 0, d) = 0%Qc).
Proof.
  apply (macro_covered_zero D2Q9 covered_row (0, 0, 0)).
  - left. reflexivity.
  - cbn. lia.
  - reflexivity.
Defined.

(** X6. The single-site update [LBM_macro(i, j, k)] gives its site the
    density and the velocity that the sweep over the grid gives it; it
    leaves the density and velocity of every other site, the three
    time-averages and every other member of the grid as they were. *)
Theorem macro_site_agrees (vs : VelSet) (g : GridObj) (i j k : Z) :
  dims vs = 2%nat \/ dims vs = 3%nat ->
  in_grid g (i, j, k) ->
  let g1 := LBM_macro_site vs i j k g in
  let g' := LBM_macro vs g in
  (rho g1 (i, j, k) = rho g' (i, j, k)
   /\ forall d, (d < dims vs)%nat -> u g1 (i, j, k, d) = u g' (i, j, k, d))
  /\ (forall y, y <> (i, j, k) ->
        rho g1 y = rho g y /\ forall d, u g1 (y, d) = u g (y, d))
  /\ g1 = set_u (u g1) (set_rho (rho g1) g).
Proof.
  intros Hd Hx. cbn zeta. unfold LBM_macro_site.
  destruct (LBM_macro_at vs g (i, j, k) Hd Hx) as [Hr Hu].
  destruct (macro_rho_u_at vs i j k g Hd) as [Hr1 Hu1].
  split; [|split].
  - split; [now rewrite Hr, Hr1|]. intros d Hlt. now rewrite Hu, Hu1.
  - intros y Hy. now apply macro_rho_u_other.
  - destruct (macro_rho_u_frame vs i j k g) as (r & u' & E).
    rewrite E at 1. now rewrite E.
Qed.

Lemma macro_site_agrees_witness :
  (rho (LBM_macro_site D2Q9 1 0 0 fluid_row) (1, 0, 0)
   = rho (LBM_macro D2Q9 fluid_row) (1, 0, 0)
   /\ forall d, (d < dims D2Q9)%nat ->
        u (LBM_macro_site D2Q9 1 0 0 fluid_row) (1, 0, 0, d)
        = u (LBM_macro D2Q9 fluid_row) (1, 0, 0, d))
  /\ (forall y, y <> (1, 0, 0) ->
        rho (LBM_macro_site D2Q9 1 0 0 fluid_row) y = rho fluid_row y
        /\ forall d, u (LBM_macro_site D2Q9 1 0 0 fluid_row) (y, d) = u fluid_row (y, d))
  /\ LBM_macro_site D2Q9 1 0 0 fluid_row
     = set_u (u (LBM_macro_site D2Q9 1 0 0 fluid_row))
         (set_rho (rho (LBM_macro_site D2Q9 1 0 0 fluid_row)) fluid_row).
Proof.
  apply (macro_site_agrees D2Q9 fluid_row 1 0 0).
  - left. reflexivity.
  - cbn. lia.
Defined.

(** X7. The macroscopic sweep assigns density, velocity and the three
    time-averages and no other member of the grid (populations, forces,
    types, tick counter and extents are as before), and at a site outside
    the grid it leaves those five as they were too. *)
Theorem macro_frame (vs : VelSet) (g : GridObj) (y : Site) :
  ~ in_grid g y ->
  let g' := LBM_macro vs g in
  g' = set_macro (rho g') (u g') (rho_timeav g') (ui_timeav g') (uiuj_timeav g') g
  /\ rho g' y = rho g y
  /\ rho_timeav g' y = rho_timeav g y
  /\ forall d, u g' (y, d) = u g (y, d)
               /\ ui_timeav g' (y, d) = ui_timeav g (y, d)
               /\ uiuj_timeav g' (y, d) = uiuj_timeav g (y, d).
Proof.
  intros Hy. cbn zeta. split; [apply LBM_macro_form|].
  now apply LBM_macro_outside.
Qed.

Lemma macro_frame_witness :
  LBM_macro D2Q9 fluid_row
  = set_macro (rho (LBM_macro D2Q9 fluid_row)) (u (LBM_macro D2Q9 fluid_row))
      (rho_timeav (LBM_macro D2Q9 fluid_row)) (ui_timeav (LBM_macro D2Q9 fluid_row))
      (uiuj_timeav (LBM_macro D2Q9 fluid_row)) fluid_row
  /\ rho (LBM_macro D2Q9 fluid_row) (2, 0, 0) = rho fluid_row (2, 0, 0)
  /\ rho_timeav (LBM_macro D2Q9 fluid_row) (2, 0, 0) = rho_timeav fluid_row (2, 0, 0)
  /\ forall d, u (LBM_macro D2Q9 fluid_row) (2, 0, 0, d) = u fluid_row (2, 0, 0, d)
               /\ ui_timeav (LBM_macro D2Q9 fluid_row) (2, 0, 0, d)
                  = ui_timeav fluid_row (2, 0, 0, d)
               /\ uiuj_timeav (LBM_macro D2Q9 fluid_row) (2, 0, 0, d)
                  = uiuj_timeav fluid_row (2, 0, 0, d).
Proof.
  apply (macro_frame D2Q9 fluid_row (2, 0, 0)). cbn. lia.
Defined.

(** ** The forcing *)

Lemma sum_upto_ext (n : nat) (t1 t2 : nat -> Qc) :
  (forall d, (d < n)%nat -> t1 d = t2 d) -> sum_upto n t1 = sum_upto n t2.
Proof.
  intros H. unfold sum_upto.
  assert (G : forall l a, (forall d, d ∈ l -> t1 d = t2 d) ->
            for_each l (fun d acc => (acc + t1 d)%Qc) a
            = for_each l (fun d acc => (acc + t2 d)%Qc) a).
  { induction l as [|d l IH]; intros a Hl; [reflexivity|].
    rewrite !for_each_cons, Hl by left. apply IH. intros e He. apply Hl. now right. }
  apply G. intros d Hd. apply H. apply list_elem_of_In, in_seq in Hd. lia.
Qed.

Lemma sum_from (l : list nat) (term : nat -> Qc) (a : Qc) :
  for_each l (fun d acc => (acc + term d)%Qc) a
  = (a + for_each l (fun d acc => (acc + term d)%Qc) 0)%Qc.
Proof.
  revert a. induction l as [|d l IH]; intros a.
  - cbn. ring.
  - rewrite !for_each_cons, (IH (a + term d)%Qc), (IH (0 + term d)%Qc). ring.
Qed.

Lemma sum_upto_zero (n : nat) (term : nat -> Qc) :
  (forall d, (d < n)%nat -> term d = 0%Qc) -> sum_upto n term = 0%Qc.
Proof.
  intros H. rewrite (sum_upto_ext n term (fun _ => 0%Qc) H).
  unfold sum_upto. generalize (seq 0 n). intros l.
  induction l as [|d l IH]; [reflexivity|].
  rewrite for_each_cons. replace (0 + 0)%Qc with 0%Qc by ring. exact IH.
Qed.

Lemma set_forces_self (g : GridObj) : g = set_forces (force_i g) (force_xyz g) g.
Proof. destruct g. reflexivity. Qed.

Lemma set_force_i_self (g : GridObj) : g = set_force_i (force_i g) g.
Proof. destruct g. reflexivity. Qed.

Section Forcing.

Variable vs : VelSet.
Variable cfg : Config.

(** The shorthand of the code is the bracket of the scheme. *)
Lemma guo_shorthand (g : GridObj) (x : Site) (F : nat -> Qc) (v : nat) :
  sum_upto (dims vs)
    (fun d => (F d * (Z2Qc (c vs d v) * (1 + guo_beta vs g x v) - u g (x, d)))%Qc)
  = guo_sum vs g x F v.
Proof.
  unfold guo_sum, guo_beta. apply sum_upto_ext. intros d _. ring.
Qed.

(** The loop over the dimensions adds to one slot. *)
Lemma forcegrid_inner (i j k : Z) (v : nat) (b : Qc) (l : list nat) (g : GridObj) :
  exists fi,
    for_each l
      (fun d g =>
         set_force_i
           (<[ (i, j, k, v) :=
                (force_i g (i, j, k, v)
                 + force_xyz g (i, j, k, d)
                   * (Z2Qc (c vs d v) * (1 + b) - u g (i, j, k, d)))%Qc ]>
              (force_i g)) g) g
    = set_force_i fi g
    /\ fi (i, j, k, v)
       = for_each l
           (fun d acc =>
              (acc + force_xyz g (i, j, k, d)
                     * (Z2Qc (c vs d v) * (1 + b) - u g (i, j, k, d)))%Qc)
           (force_i g (i, j, k, v))
    /\ forall q, q <> (i, j, k, v) -> fi q = force_i g q.
Proof.
  revert g. induction l as [|d l IH]; intros g.
  - exists (force_i g). split; [apply set_force_i_self|]. split; reflexivity.
  - rewrite !for_each_cons.
    destruct (IH (set_force_i
           (<[ (i, j, k, v) :=
                (force_i g (i, j, k, v)
                 + force_xyz g (i, j, k, d)
                   * (Z2Qc (c vs d v) * (1 + b) - u g (i, j, k, d)))%Qc ]>
              (force_i g)) g)) as (fi & E & Hv & Ho).
    exists fi. split; [rewrite E; reflexivity|]. split.
    + rewrite Hv. cbn [force_i force_xyz u set_force_i].
      rewrite lookup_insert4. reflexivity.
    + intros q Hq. rewrite (Ho q Hq). cbn [force_i set_force_i].
      apply lookup_insert4_ne. congruence.
Qed.

(** One trip of the direction loop. *)
Lemma forcegrid_dir_spec (i j k : Z) (v : nat) (g : GridObj) :
  exists fi,
    forcegrid_dir vs i j k v g = set_force_i fi g
    /\ fi (i, j, k, v)
       = (if LatTyp g (i, j, k) =? 0 then force_i g (i, j, k, v)
          else ((force_i g (i, j, k, v)
                 + guo_sum vs g (i, j, k) (fun d => force_xyz g (i, j, k, d)) v)
                * guo_lambda vs g v)%Qc)
    /\ forall q, q <> (i, j, k, v) -> fi q = force_i g q.
Proof.
  unfold forcegrid_dir. destruct (LatTyp g (i, j, k) =? 0); cbn [negb].
  - exists (force_i g). split; [apply set_force_i_self|]. split; reflexivity.
  - cbv zeta.
    destruct (forcegrid_inner i j k v (guo_beta vs g (i, j, k) v) (seq 0 (dims vs)) g)
      as (fi & E & Hv & Ho).
    unfold guo_beta, sum_upto in E. rewrite E.
    exists (<[ (i, j, k, v) := (fi (i, j, k, v) * guo_lambda vs g v)%Qc ]> fi).
    split; [reflexivity|]. split.
    + rewrite lookup_insert4, Hv, sum_from.
      rewrite <- guo_shorthand. reflexivity.
    + intros q Hq. rewrite lookup_insert4_ne by congruence. now apply Ho.
Qed.

(** The direction loop of one site. *)
Lemma forcegrid_dirs_form (i j k : Z) (l : list nat) (g : GridObj) :
  exists fi, for_each l (forcegrid_dir vs i j k) g = set_force_i fi g.
Proof.
  apply (for_each_invariant _ (fun s => exists fi, s = set_force_i fi g)).
  - intros v s _ [fi ->].
    destruct (forcegrid_dir_spec i j k v (set_force_i fi g)) as (fi' & -> & _).
    exists fi'. reflexivity.
  - exists (force_i g). apply set_force_i_self.
Qed.

Lemma forcegrid_dirs_other (i j k : Z) (l : list nat) (g : GridObj) (q : Site * nat) :
  (forall v, v ∈ l -> q <> (i, j, k, v)) \/ LatTyp g (i, j, k) = 0 ->
  force_i (for_each l (forcegrid_dir vs i j k) g) q = force_i g q.
Proof.
  intros Hq.
  apply (for_each_miss _ (fun s => exists fi, s = set_force_i fi g)
           (fun s : GridObj => force_i s q) (fun _ => False)); auto.
  - intros v s _ [fi ->].
    destruct (forcegrid_dir_spec i j k v (set_force_i fi g)) as (fi' & -> & _).
    exists fi'. reflexivity.
  - intros v s Hv [fi ->] _.
    destruct (forcegrid_dir_spec i j k v (set_force_i fi g)) as (fi' & -> & Hat & Ho).
    cbn [force_i set_force_i]. cbn [LatTyp set_force_i force_i] in Hat.
    destruct (decide (q = (i, j, k, v))) as [->|Hne]; [|now apply Ho].
    destruct Hq as [Hq|Hq]; [exfalso; now apply (Hq v)|].
    rewrite Hq in Hat. exact Hat.
  - exists (force_i g). apply set_force_i_self.
Qed.

Lemma forcegrid_dirs_at (i j k : Z) (l : list nat) (g : GridObj) (v : nat) :
  NoDup l -> v ∈ l -> LatTyp g (i, j, k) <> 0 ->
  force_i (for_each l (forcegrid_dir vs i j k) g) (i, j, k, v)
  = ((force_i g (i, j, k, v)
      + guo_sum vs g (i, j, k) (fun d => force_xyz g (i, j, k, d)) v)
     * guo_lambda vs g v)%Qc.
Proof.
  intros Hnd Hv Hns.
  apply (for_each_two_phase _ v
           (fun s => exists fi, s = set_force_i fi g
                                /\ fi (i, j, k, v) = force_i g (i, j, k, v))
           (fun s => force_i s (i, j, k, v)
                     = ((force_i g (i, j, k, v)
                         + guo_sum vs g (i, j, k) (fun d => force_xyz g (i, j, k, d)) v)
                        * guo_lambda vs g v)%Qc
                     /\ exists fi, s = set_force_i fi g)); try assumption.
  - intros a s _ Hne (fi & -> & Hfi).
    destruct (forcegrid_dir_spec i j k a (set_force_i fi g)) as (fi' & -> & _ & Ho).
    exists fi'. split; [reflexivity|]. rewrite Ho by congruence. exact Hfi.
  - intros s (fi & -> & Hfi).
    destruct (forcegrid_dir_spec i j k v (set_force_i fi g)) as (fi' & -> & Hat & _).
    split; [|exists fi'; reflexivity].
    cbn [force_i set_force_i]. cbn [LatTyp set_force_i force_i] in Hat.
    rewrite Hat. destruct (Z.eqb_spec (LatTyp g (i, j, k)) 0); [contradiction|].
    rewrite Hfi. reflexivity.
  - intros a s _ Hne (Hval & fi & ->).
    destruct (forcegrid_dir_spec i j k a (set_force_i fi g)) as (fi' & -> & _ & Ho).
    split; [|exists fi'; reflexivity].
    cbn [force_i set_force_i] in *. rewrite Ho by congruence. exact Hval.
  - exists (force_i g). split; [apply set_force_i_self|reflexivity].
Qed.

(** One site of the sweep. *)
Lemma forcegrid_site_spec (i j k : Z) (g : GridObj) :
  exists fi fx,
    forcegrid_site vs cfg i j k g = set_forces fi fx g
    /\ (forall d, fx (i, j, k, d) = (force_xyz g (i, j, k, d) + grav_term cfg g (i, j, k) d)%Qc)
    /\ (forall y d, y <> (i, j, k) -> fx (y, d) = force_xyz g (y, d))
    /\ (forall v, (v < nVels vs)%nat -> LatTyp g (i, j, k) <> 0 ->
          fi (i, j, k, v)
          = ((force_i g (i, j, k, v)
              + guo_sum vs g (i, j, k) (fun d => fx (i, j, k, d)) v)
             * guo_lambda vs g v)%Qc)
    /\ (forall y v, y <> (i, j, k) \/ LatTyp g (i, j, k) = 0 \/ (nVels vs <= v)%nat ->
          fi (y, v) = force_i g (y, v)).
Proof.
  unfold forcegrid_site. cbv zeta.
  set (fx := if GRAVITY_ON cfg
             then <[ (i, j, k, grav_direction cfg) :=
                      (force_xyz g (i, j, k, grav_direction cfg)
                       + rho g (i, j, k) * grav_force cfg)%Qc ]> (force_xyz g)
             else force_xyz g).
  assert (E1 : (if GRAVITY_ON cfg
                then set_force_xyz
                       (<[ (i, j, k, grav_direction cfg) :=
                            (force_xyz g (i, j, k, grav_direction cfg)
                             + rho g (i, j, k) * grav_force cfg)%Qc ]> (force_xyz g)) g
                else g) = set_force_xyz fx g).
  { unfold fx. destruct (GRAVITY_ON cfg); [reflexivity|]. destruct g. reflexivity. }
  rewrite E1. set (g1 := set_force_xyz fx g).
  destruct (forcegrid_dirs_form i j k (seq 0 (nVels vs)) g1) as [fi E].
  exists fi, fx. split; [rewrite E; destruct g; reflexivity|].
  assert (Efi : fi = force_i (for_each (seq 0 (nVels vs)) (forcegrid_dir vs i j k) g1))
    by now rewrite E.
  split; [|split; [|split]].
  - intros d. unfold fx, grav_term. destruct (GRAVITY_ON cfg); cbn [andb].
    + destruct (Nat.eqb_spec d (grav_direction cfg)) as [->|Hne].
      * apply lookup_insert4.
      * rewrite lookup_insert4_ne by congruence. ring.
    + ring.
  - intros y d Hy. unfold fx. destruct (GRAVITY_ON cfg); [|reflexivity].
    apply lookup_insert4_ne. congruence.
  - intros v Hv Hns. rewrite Efi.
    rewrite (forcegrid_dirs_at i j k (seq 0 (nVels vs)) g1 v).
    + reflexivity.
    + apply NoDup_ListNoDup, seq_NoDup.
    + apply list_elem_of_In, in_seq. lia.
    + exact Hns.
  - intros y v Hyv. rewrite Efi.
    rewrite (forcegrid_dirs_other i j k (seq 0 (nVels vs)) g1 (y, v)); [reflexivity|].
    destruct Hyv as [Hy|[Hs|Hv]].
    + left. intros a _. congruence.
    + right. exact Hs.
    + left. intros a Ha. apply list_elem_of_In, in_seq in Ha.
      intros Eq. simplify_eq. lia.
Qed.

(** The sweep: every site of the grid gets its forces from the grid the
    sweep started from. *)
Lemma LBM_forcegrid_form (g : GridObj) :
  exists fi fx, LBM_forcegrid vs cfg false g = set_forces fi fx g.
Proof.
  unfold LBM_forcegrid. rewrite for_sites_flat.
  apply (for_each_invariant _ (fun s => exists fi fx, s = set_forces fi fx g)).
  - intros [[i j] k] s _ (fi & fx & ->).
    destruct (forcegrid_site_spec i j k (set_forces fi fx g)) as (fi' & fx' & -> & _).
    exists fi', fx'. reflexivity.
  - exists (force_i g), (force_xyz g). apply set_forces_self.
Qed.

Lemma LBM_forcegrid_outside (g : GridObj) (y : Site) (n : nat) :
  ~ in_grid g y ->
  force_i (LBM_forcegrid vs cfg false g) (y, n) = force_i g (y, n)
  /\ force_xyz (LBM_forcegrid vs cfg false g) (y, n) = force_xyz g (y, n).
Proof.
  intros Hy. unfold LBM_forcegrid. rewrite for_sites_flat.
  apply (for_each_invariant _
           (fun s => force_i s (y, n) = force_i g (y, n)
                     /\ force_xyz s (y, n) = force_xyz g (y, n))); [|auto].
  intros [[i j] k] s Ha [H1 H2].
  assert (Hne : y <> (i, j, k)).
  { intros ->. apply Hy. now apply elem_of_sites in Ha. }
  destruct (forcegrid_site_spec i j k s) as (fi & fx & -> & _ & Hfx & _ & Hfi).
  cbn [force_i force_xyz set_forces set_force_xyz set_force_i].
  rewrite Hfx by exact Hne. rewrite Hfi by (left; exact Hne). auto.
Qed.

Lemma LBM_forcegrid_at (g : GridObj) (x : Site) :
  in_grid g x ->
  let g' := LBM_forcegrid vs cfg false g in
  (forall d, force_xyz g' (x, d) = (force_xyz g (x, d) + grav_term cfg g x d)%Qc)
  /\ (forall v, (v < nVels vs)%nat -> LatTyp g x <> 0 ->
        force_i g' (x, v)
        = ((force_i g (x, v) + guo_sum vs g x (fun d => force_xyz g' (x, d)) v)
           * guo_lambda vs g v)%Qc)
  /\ (forall v, LatTyp g x = 0 \/ (nVels vs <= v)%nat ->
        force_i g' (x, v) = force_i g (x, v)).
Proof.
  intros Hx. cbn zeta. unfold LBM_forcegrid. rewrite for_sites_flat.
  apply (for_each_two_phase _ x
           (fun s => exists fi fx, s = set_forces fi fx g
              /\ forall n, fi (x, n) = force_i g (x, n) /\ fx (x, n) = force_xyz g (x, n))
           (fun s =>
              (forall d, force_xyz s (x, d) = (force_xyz g (x, d) + grav_term cfg g x d)%Qc)
              /\ (forall v, (v < nVels vs)%nat -> LatTyp g x <> 0 ->
                    force_i s (x, v)
                    = ((force_i g (x, v) + guo_sum vs g x (fun d => force_xyz s (x, d)) v)
                       * guo_lambda vs g v)%Qc)
              /\ (forall v, LatTyp g x = 0 \/ (nVels vs <= v)%nat ->
                    force_i s (x, v) = force_i g (x, v)))).
  - apply NoDup_sites.
  - now apply elem_of_sites.
  - intros [[i j] k] s _ Hne (fi & fx & -> & H).
    destruct (forcegrid_site_spec i j k (set_forces fi fx g))
      as (fi' & fx' & -> & _ & Hfx & _ & Hfi).
    exists fi', fx'. split; [reflexivity|]. intros n.
    rewrite Hfx by congruence. rewrite Hfi by (left; congruence). apply H.
  - destruct x as [[i j] k]. intros s (fi & fx & -> & H).
    destruct (forcegrid_site_spec i j k (set_forces fi fx g))
      as (fi' & fx' & -> & Hg & _ & Hat & Hfi).
    cbn [force_i force_xyz LatTyp set_forces set_force_xyz set_force_i] in *.
    split; [|split].
    + intros d. rewrite Hg. destruct (H d) as [_ ->]. reflexivity.
    + intros v Hv Hns. rewrite (Hat v Hv Hns). destruct (H v) as [-> _]. reflexivity.
    + intros v Hv. rewrite Hfi by (right; exact Hv). apply H.
  - intros [[i j] k] s _ Hne (H1 & H2 & H3).
    destruct (forcegrid_site_spec i j k s) as (fi' & fx' & -> & _ & Hfx & _ & Hfi).
    cbn [force_i force_xyz LatTyp set_forces set_force_xyz set_force_i] in *.
    assert (Ex : forall d, fx' (x, d) = force_xyz s (x, d))
      by (intros d; apply Hfx; congruence).
    assert (Ei : forall v, fi' (x, v) = force_i s (x, v))
      by (intros v; apply Hfi; left; congruence).
    split; [|split].
    + intros d. rewrite Ex. apply H1.
    + intros v Hv Hns. rewrite Ei, (H2 v Hv Hns).
      f_equal. f_equal. unfold guo_sum. apply sum_upto_ext. intros d _.
      now rewrite Ex.
    + intros v Hv. rewrite Ei. now apply H3.
  - exists (force_i g), (force_xyz g). split; [apply set_forces_self|]. auto.
Qed.

End Forcing.

(** X8. Guo's forcing.  Computing the forces ([reset_flag] false) adds
    gravity, [rho * grav_force], to component [grav_direction] of the
    Cartesian force of every site of the grid, solid or not (in a build
    with [GRAVITY_ON]), and at a site that is not solid (type 0) it
    replaces the lattice force of every direction [v] by
    [(force_i + ((c_v - u) + (c_v . u) c_v / cs^2) . F) * (1 - omega/2) * w_v / cs^2],
    [F] being the Cartesian force with gravity: the scheme's force is added
    to the lattice force already stored, before the scaling. *)
Theorem forcegrid_guo (vs : VelSet) (cfg : Config) (g : GridObj) (x : Site) :
  in_grid g x ->
  let g' := LBM_forcegrid vs cfg false g in
  (forall d, force_xyz g' (x, d)
             = (force_xyz g (x, d)
                + (if GRAVITY_ON cfg && (d =? grav_direction cfg)%nat
                   then rho g x * grav_force cfg else 0))%Qc)
  /\ (LatTyp g x <> Solid ->
      forall v, (v < nVels vs)%nat ->
      force_i g' (x, v)
      = ((force_i g (x, v) + guo_sum vs g x (fun d => force_xyz g' (x, d)) v)
         * ((1 - half * omega g) * (w vs v / cs vs ^ 2)))%Qc).
Proof.
  intros Hx. cbn zeta.
  destruct (LBM_forcegrid_at vs cfg g x Hx) as (H1 & H2 & _).
  split; [exact H1|]. intros Hns v Hv. now apply H2.
Qed.

Lemma forcegrid_guo_witness :
  LatTyp solid_row (0, 0, 0) = Solid
  /\ force_xyz (LBM_forcegrid D2Q9 gravity_cfg false solid_row) ((0, 0, 0)%Z, 1%nat)
     = (force_xyz solid_row ((0, 0, 0)%Z, 1%nat)
        + rho solid_row (0, 0, 0)%Z * grav_force gravity_cfg)%Qc
  /\ force_i (LBM_forcegrid D2Q9 gravity_cfg false forced_row) ((1, 0, 0)%Z, 4%nat)
     = ((force_i forced_row ((1, 0, 0)%Z, 4%nat)
         + guo_sum D2Q9 forced_row (1, 0, 0)%Z
             (fun d => force_xyz (LBM_forcegrid D2Q9 gravity_cfg false forced_row)
                         ((1, 0, 0)%Z, d)) 4)
        * ((1 - half * omega forced_row) * (w D2Q9 4 / cs D2Q9 ^ 2)))%Qc.
Proof.
  split; [reflexivity|]. split.
  - assert (Hin : in_grid solid_row (0, 0, 0)) by (cbn; lia).
    exact (proj1 (forcegrid_guo D2Q9 gravity_cfg solid_row (0, 0, 0) Hin) 1%nat).
  - assert (Hin : in_grid forced_row (1, 0, 0)) by (cbn; lia).
    apply (proj2 (forcegrid_guo D2Q9 gravity_cfg forced_row (1, 0, 0) Hin)).
    + discriminate.
    + cbn. lia.
Defined.

(** X9. Computing the forces assigns the two force arrays and no other
    member of the grid; it leaves the lattice force of a solid site (type
    0) and both forces of a site outside the grid as they were. *)
Theorem forcegrid_frame (vs : VelSet) (cfg : Config) (g : GridObj) (x : Site) (n : nat) :
  ~ in_grid g x \/ LatTyp g x = Solid ->
  let g' := LBM_forcegrid vs cfg false g in
  g' = set_forces (force_i g') (force_xyz g') g
  /\ force_i g' (x, n) = force_i g (x, n)
  /\ (~ in_grid g x -> force_xyz g' (x, n) = force_xyz g (x, n)).
Proof.
  intros Hx. cbn zeta. split; [|split].
  - destruct (LBM_forcegrid_form vs cfg g) as (fi & fx & E).
    rewrite E at 1. now rewrite E.
  - destruct (decide (in_grid g x)) as [Hin|Hout].
    + destruct Hx as [Hx|Hx]; [contradiction|].
      destruct (LBM_forcegrid_at vs cfg g x Hin) as (_ & _ & H3).
      apply H3. now left.
    + now apply LBM_forcegrid_outside.
  - intros Hout. now apply LBM_forcegrid_outside.
Qed.

Lemma forcegrid_frame_witness :
  LBM_forcegrid D2Q9 gravity_cfg false solid_row
  = set_forces (force_i (LBM_forcegrid D2Q9 gravity_cfg false solid_row))
      (force_xyz (LBM_forcegrid D2Q9 gravity_cfg false solid_row)) solid_row
  /\ force_i (LBM_forcegrid D2Q9 gravity_cfg false solid_row) ((0, 0, 0)%Z, 2%nat)
     = force_i solid_row ((0, 0, 0)%Z, 2%nat)
  /\ (~ in_grid solid_row (0, 0, 0) ->
      force_xyz (LBM_forcegrid D2Q9 gravity_cfg false solid_row) ((0, 0, 0)%Z, 2%nat)
      = force_xyz solid_row ((0, 0, 0)%Z, 2%nat)).
Proof.
  apply (forcegrid_frame D2Q9 gravity_cfg solid_row (0, 0, 0) 2).
  right. reflexivity.
Defined.

(** X10. In a build without gravity, resetting the forces and then
    computing them leaves every lattice force and every Cartesian force
    at 0: without bodies or gravity the collision is unforced. *)
Theorem forcegrid_after_reset (vs : VelSet) (cfg : Config) (g : GridObj)
  (q : Site * nat) :
  GRAVITY_ON cfg = false ->
  let g' := LBM_forcegrid vs cfg false (LBM_forcegrid vs cfg true g) in
  force_i g' q = 0%Qc /\ force_xyz g' q = 0%Qc.
Proof.
  intros Hg. cbn zeta. destruct q as [x n].
  set (g0 := LBM_forcegrid vs cfg true g).
  assert (Hxyz : force_xyz (LBM_forcegrid vs cfg false g0) (x, n) = 0%Qc).
  { destruct (decide (in_grid g0 x)) as [Hin|Hout].
    - destruct (LBM_forcegrid_at vs cfg g0 x Hin) as (H1 & _).
      rewrite H1. unfold grav_term. rewrite Hg. cbn [andb].
      change (force_xyz g0 (x, n)) with 0%Qc. ring.
    - now destruct (LBM_forcegrid_outside vs cfg g0 x n Hout) as [_ ->]. }
  split; [|exact Hxyz].
  destruct (decide (in_grid g0 x)) as [Hin|Hout].
  - destruct (LBM_forcegrid_at vs cfg g0 x Hin) as (H1 & H2 & H3).
    destruct (decide (LatTyp g0 x = 0)) as [Hs|Hns].
    + rewrite H3 by now left. reflexivity.
    + destruct (le_lt_dec (nVels vs) n) as [Hn|Hn].
      * rewrite H3 by now right. reflexivity.
      * rewrite (H2 n Hn Hns).
        assert (E : guo_sum vs g0 x
                      (fun d => force_xyz (LBM_forcegrid vs cfg false g0) (x, d)) n = 0%Qc).
        { unfold guo_sum. apply sum_upto_zero. intros d _.
          rewrite H1. unfold grav_term. rewrite Hg. cbn [andb].
          change (force_xyz g0 (x, d)) with 0%Qc. ring. }
        rewrite E. change (force_i g0 (x, n)) with 0%Qc. ring.
  - now destruct (LBM_forcegrid_outside vs cfg g0 x n Hout) as [-> _].
Qed.

Lemma forcegrid_after_reset_witness :
  force_i (LBM_forcegrid D2Q9 (plain_cfg 0) false
             (LBM_forcegrid D2Q9 (plain_cfg 0) true forced_row)) ((1, 0, 0)%Z, 4%nat)
  = 0%Qc
  /\ force_xyz (LBM_forcegrid D2Q9 (plain_cfg 0) false
                  (LBM_forcegrid D2Q9 (plain_cfg 0) true forced_row)) ((1, 0, 0)%Z, 4%nat)
     = 0%Qc.
Proof.
  apply (forcegrid_after_reset D2Q9 (plain_cfg 0) forced_row ((1, 0, 0), 4%nat)).
  reflexivity.
Defined.

(** ** Time-averages over a run *)

Lemma Z2Qc_plus (a b : Z) : Z2Qc (a + b) = (Z2Qc a + Z2Qc b)%Qc.
Proof.
  apply Qc_is_canon. unfold Z2Qc. cbn. rewrite !Qred_correct.
  rewrite inject_Z_plus. reflexivity.
Qed.

(** From tick [t_] on, and as long as the ticks are counted within an
    [int], the incremental mean weighs the average it started from [t_]
    times and every value once. *)
Lemma timeav_feed_sum (xs : list Qc) (avg : Qc) (t_ : Z) :
  0 <= t_ -> 0 < t_ + Z.of_nat (length xs) ->
  t_ + Z.of_nat (length xs) <= INT_MAX ->
  timeav_feed avg t_ xs
  = ((avg * Z2Qc t_ + fold_right Qcplus 0 xs) / Z2Qc (t_ + Z.of_nat (length xs)))%Qc.
Proof.
  revert avg t_. induction xs as [|x xs IH]; intros avg t_ Ht Hn Hb.
  - cbn [timeav_feed fold_right length] in *. change (Z.of_nat 0) with 0 in *.
    replace (t_ + 0) with t_ in * by lia.
    assert (Hne : Z2Qc t_ <> 0%Qc) by (apply Z2Qc_pos_nonzero; lia).
    generalize dependent (Z2Qc t_). intros T HT. field. exact HT.
  - cbn [timeav_feed fold_right length]. cbn [length] in Hb.
    rewrite IH by lia. rewrite timeav_update_small by lia.
    replace (t_ + 1 + Z.of_nat (length xs)) with (t_ + Z.of_nat (S (length xs))) by lia.
    assert (Hne : Z2Qc (t_ + 1) <> 0%Qc) by (apply Z2Qc_pos_nonzero; lia).
    assert (Hne' : Z2Qc (t_ + Z.of_nat (S (length xs))) <> 0%Qc)
      by (apply Z2Qc_pos_nonzero; lia).
    generalize dependent (Z2Qc (t_ + Z.of_nat (S (length xs)))). intros T2 HT2.
    generalize dependent (Z2Qc (t_ + 1)). intros T1 HT1.
    generalize (Z2Qc t_) (fold_right Qcplus 0%Qc xs). intros T0 s.
    field. split; assumption.
Qed.

Lemma timeav_feed_mean (xs : list Qc) (avg : Qc) :
  xs <> [] -> Z.of_nat (length xs) <= INT_MAX ->
  timeav_feed avg 0 xs = mean xs.
Proof.
  intros Hne Hb. rewrite timeav_feed_sum.
  - unfold mean. replace (0 + Z.of_nat (length xs)) with (Z.of_nat (length xs)) by lia.
    f_equal. change (Z2Qc 0) with 0%Qc. ring.
  - lia.
  - destruct xs; [contradiction|cbn; lia].
  - lia.
Qed.

(** The time-averaged density of a site along a run of sweeps. *)
Lemma macro_run_timeav (vs : VelSet) (fs : list (IVector4 Qc)) (g : GridObj) (x : Site) :
  dims vs = 2%nat \/ dims vs = 3%nat ->
  in_grid g x ->
  rho_timeav (macro_run vs fs g) x
  = timeav_feed (rho_timeav g x) (t g)
      (map (fun fn => rho (LBM_macro vs (set_f fn g)) x) fs).
Proof.
  intros Hd. revert g. induction fs as [|fn fs IH]; intros g Hx; [reflexivity|].
  cbn [macro_run map timeav_feed].
  set (g1 := set_t (t g + 1) (LBM_macro vs (set_f fn g))).
  assert (Eform := LBM_macro_form vs (set_f fn g)). cbn zeta in Eform.
  assert (Hx1 : in_grid g1 x).
  { unfold g1. rewrite Eform. exact Hx. }
  rewrite (IH g1 Hx1).
  assert (Et : t g1 = t g + 1) by reflexivity.
  assert (Eav : rho_timeav g1 x
                = timeav_update (rho_timeav g x) (t g) (rho (LBM_macro vs (set_f fn g)) x)).
  { destruct (LBM_macro_timeav vs (set_f fn g) x Hd Hx) as [H _]. exact H. }
  rewrite Et, Eav. f_equal. apply map_ext_in. intros fn' _.
  assert (Hx' : in_grid (set_f fn' g) x) by exact Hx.
  assert (Hx1' : in_grid (set_f fn' g1) x) by exact Hx1.
  destruct (LBM_macro_at vs (set_f fn' g1) x Hd Hx1') as [-> _].
  destruct (LBM_macro_at vs (set_f fn' g) x Hd Hx') as [-> _].
  unfold g1. rewrite Eform. reflexivity.
Qed.

(** X11. Over a run of at most [INT_MAX] macroscopic sweeps that starts
    at tick 0 (one sweep per tick, the populations changing from sweep to
    sweep) the time-averaged density of a site of the grid is the
    arithmetic mean of the densities the sweeps computed there, whatever
    finite number the array held before the first sweep. *)
Theorem time_average_is_mean (vs : VelSet) (fs : list (IVector4 Qc)) (g : GridObj)
  (x : Site) :
  dims vs = 2%nat \/ dims vs = 3%nat ->
  in_grid g x -> t g = 0 -> fs <> [] ->
  Z.of_nat (length fs) <= INT_MAX ->
  rho_timeav (macro_run vs fs g) x
  = mean (map (fun fn => rho (LBM_macro vs (set_f fn g)) x) fs).
Proof.
  intros Hd Hx Ht Hne Hb. rewrite macro_run_timeav by assumption.
  rewrite Ht. apply timeav_feed_mean.
  - destruct fs; [contradiction|discriminate].
  - now rewrite length_map.
Qed.

Lemma time_average_is_mean_witness :
  rho_timeav (macro_run D2Q9 [numbered; (fun _ => Z2Qc 7); numbered] fluid_row) (1, 0, 0)
  = mean (map (fun fn => rho (LBM_macro D2Q9 (set_f fn fluid_row)) (1, 0, 0))
            [numbered; (fun _ => Z2Qc 7); numbered]).
Proof.
  apply (time_average_is_mean D2Q9 [numbered; (fun _ => Z2Qc 7); numbered]
           fluid_row (1, 0, 0)).
  - left. reflexivity.
  - cbn. lia.
  - reflexivity.
  - discriminate.
  - vm_compute. discriminate.
Defined.

(** ** The MRT collision *)

Lemma sum_upto_plus (n : nat) (t1 t2 : nat -> Qc) :
  sum_upto n (fun d => (t1 d + t2 d)%Qc) = (sum_upto n t1 + sum_upto n t2)%Qc.
Proof.
  unfold sum_upto. generalize (seq 0 n). intros l.
  assert (G : forall a b,
            for_each l (fun d acc => (acc + (t1 d + t2 d))%Qc) (a + b)%Qc
            = (for_each l (fun d acc => (acc + t1 d)%Qc) a
               + for_each l (fun d acc => (acc + t2 d)%Qc) b)%Qc).
  { induction l as [|d l IH]; intros a b; [reflexivity|].
    rewrite !for_each_cons.
    replace (a + b + (t1 d + t2 d))%Qc with ((a + t1 d) + (b + t2 d))%Qc by ring.
    apply IH. }
  replace 0%Qc with (0 + 0)%Qc at 1 by ring. apply G.
Qed.

Lemma sum_upto_scale (n : nat) (a : Qc) (term : nat -> Qc) :
  sum_upto n (fun d => (a * term d)%Qc) = (a * sum_upto n term)%Qc.
Proof.
  unfold sum_upto. generalize (seq 0 n). intros l.
  assert (G : forall b,
            for_each l (fun d acc => (acc + a * term d)%Qc) (a * b)%Qc
            = (a * for_each l (fun d acc => (acc + term d)%Qc) b)%Qc).
  { induction l as [|d l IH]; intros b; [reflexivity|].
    rewrite !for_each_cons.
    replace (a * b + a * term d)%Qc with (a * (b + term d))%Qc by ring.
    apply IH. }
  replace 0%Qc with (a * 0)%Qc at 1 by ring. apply G.
Qed.

Lemma sum_upto_S (n : nat) (term : nat -> Qc) :
  sum_upto (S n) term = (sum_upto n term + term n)%Qc.
Proof.
  unfold sum_upto. rewrite seq_S, for_each_snoc. reflexivity.
Qed.

Lemma sum_upto_swap (n m : nat) (term : nat -> nat -> Qc) :
  sum_upto n (fun q => sum_upto m (fun r => term q r))
  = sum_upto m (fun r => sum_upto n (fun q => term q r)).
Proof.
  induction n as [|n IH].
  - symmetry. apply sum_upto_zero. reflexivity.
  - rewrite sum_upto_S, IH, <- sum_upto_plus.
    apply sum_upto_ext. intros r _. now rewrite sum_upto_S.
Qed.

(** A sum against a row of the identity matrix picks one term. *)
Lemma sum_upto_pick (n p : nat) (row term : nat -> Qc) :
  (p < n)%nat ->
  (forall r, (r < n)%nat -> row r = if (p =? r)%nat then 1%Qc else 0%Qc) ->
  sum_upto n (fun r => (row r * term r)%Qc) = term p.
Proof.
  revert p row. induction n as [|n IH]; intros p row Hp Hrow; [lia|].
  rewrite sum_upto_S. destruct (Nat.eq_dec p n) as [->|Hne].
  - rewrite sum_upto_zero.
    + rewrite Hrow by lia. rewrite Nat.eqb_refl. ring.
    + intros r Hr. rewrite Hrow by lia.
      destruct (Nat.eqb_spec n r); [lia|ring].
  - rewrite (IH p row) by (try lia; intros r Hr; apply Hrow; lia).
    rewrite (Hrow n) by lia. destruct (Nat.eqb_spec p n); [lia|ring].
Qed.

Lemma lookup_insert1 (fn : nat -> Qc) (p : nat) (x : Qc) : (<[ p := x ]> fn) p = x.
Proof. apply fn_lookup_insert. Qed.

Lemma lookup_insert1_ne (fn : nat -> Qc) (p q : nat) (x : Qc) :
  p <> q -> (<[ p := x ]> fn) q = fn q.
Proof. apply fn_lookup_insert_ne. Qed.

Section MrtSite.

Variable vs : VelSet.
Variable cfg : Config.
Variable g0 : GridObj.

(** The loop that stores the equilibrium of one site. *)
Lemma update_feq_loop (i j k : Z) (l : list nat) (g : GridObj) :
  (exists e, g = set_feq e g0) ->
  exists e',
    for_each l (update_feq vs i j k) g = set_feq e' g0
    /\ (forall v, v ∈ l -> e' (i, j, k, v) = LBM_collide_feq vs g0 i j k v)
    /\ (forall q, (forall v, v ∈ l -> q <> (i, j, k, v)) -> e' q = feq g q).
Proof.
  revert g. induction l as [|v l IH]; intros g [e ->].
  - exists e. split; [reflexivity|]. split; [|reflexivity].
    intros v Hv. now apply elem_of_nil in Hv.
  - rewrite for_each_cons.
    destruct (IH (update_feq vs i j k v (set_feq e g0))) as (e' & E & Hat & Ho).
    { eexists. reflexivity. }
    exists e'. split; [exact E|]. split.
    + intros a Ha. destruct (decide (a ∈ l)) as [Hin|Hnin]; [now apply Hat|].
      apply elem_of_cons in Ha. destruct Ha as [->|Ha]; [|contradiction].
      rewrite Ho by (intros b Hb; intros Eq; simplify_eq; contradiction).
      unfold update_feq. cbn [feq set_feq]. apply lookup_insert4.
    + intros q Hq. rewrite Ho by (intros b Hb; apply Hq; now right).
      unfold update_feq. cbn [feq set_feq]. apply lookup_insert4_ne.
      intros Eq. apply (Hq v); [now left|]. now symmetry.
Qed.

(** One row of the matrix-vector product. *)
Lemma moment_row (p : nat) (a b : nat -> Qc) (l : list nat) (m meq : nat -> Qc) :
  let s :=
    for_each l (fun q '(m, meq) =>
      (<[ p := (m p + mMRT vs p q * a q)%Qc ]> m,
       <[ p := (meq p + mMRT vs p q * b q)%Qc ]> meq)) (m, meq) in
  (fst s p = for_each l (fun q acc => (acc + mMRT vs p q * a q)%Qc) (m p)
   /\ snd s p = for_each l (fun q acc => (acc + mMRT vs p q * b q)%Qc) (meq p))
  /\ forall p', p' <> p -> fst s p' = m p' /\ snd s p' = meq p'.
Proof.
  cbn zeta. revert m meq. induction l as [|q l IH]; intros m meq.
  - cbn. auto.
  - rewrite !for_each_cons.
    destruct (IH (<[ p := (m p + mMRT vs p q * a q)%Qc ]> m)
                 (<[ p := (meq p + mMRT vs p q * b q)%Qc ]> meq)) as [[H1 H2] H3].
    split; [split|].
    + rewrite H1, lookup_insert1. reflexivity.
    + rewrite H2, lookup_insert1. reflexivity.
    + intros p' Hp'. destruct (H3 p' Hp') as [-> ->].
      rewrite !lookup_insert1_ne by congruence. auto.
Qed.

(** The matrix-vector product. *)
Lemma moment_rows (a b : nat -> Qc) (lp lq : list nat) (m meq : nat -> Qc) :
  NoDup lp ->
  let s :=
    for_each lp (fun p =>
      for_each lq (fun q '(m, meq) =>
        (<[ p := (m p + mMRT vs p q * a q)%Qc ]> m,
         <[ p := (meq p + mMRT vs p q * b q)%Qc ]> meq))) (m, meq) in
  forall p, p ∈ lp ->
    fst s p = for_each lq (fun q acc => (acc + mMRT vs p q * a q)%Qc) (m p)
    /\ snd s p = for_each lq (fun q acc => (acc + mMRT vs p q * b q)%Qc) (meq p).
Proof.
  intros Hnd. cbn zeta.
  assert (G : forall m meq,
    let s :=
      for_each lp (fun p =>
        for_each lq (fun q '(m, meq) =>
          (<[ p := (m p + mMRT vs p q * a q)%Qc ]> m,
           <[ p := (meq p + mMRT vs p q * b q)%Qc ]> meq))) (m, meq) in
    forall p,
      (p ∈ lp ->
       fst s p = for_each lq (fun q acc => (acc + mMRT vs p q * a q)%Qc) (m p)
       /\ snd s p = for_each lq (fun q acc => (acc + mMRT vs p q * b q)%Qc) (meq p))
      /\ (p ∉ lp -> fst s p = m p /\ snd s p = meq p)).
  { cbn zeta. induction Hnd as [|p0 lp Hnin Hnd IH]; intros m1 meq1 p.
    - split; [intros Hp; now apply elem_of_nil in Hp|]. cbn. auto.
    - rewrite for_each_cons.
      pose proof (moment_row p0 a b lq m1 meq1) as Hrow. cbn zeta in Hrow.
      destruct (for_each lq _ (m1, meq1)) as [m2 meq2] eqn:E2.
      cbn [fst snd] in Hrow. destruct Hrow as [[R1 R2] R3].
      destruct (IH m2 meq2 p) as [I1 I2].
      split.
      + intros Hp. apply elem_of_cons in Hp. destruct Hp as [->|Hp].
        * destruct (I2 Hnin) as [-> ->]. auto.
        * destruct (I1 Hp) as [-> ->].
          assert (Hne : p <> p0) by (intros ->; contradiction).
          destruct (R3 p Hne) as [-> ->]. auto.
      + intros Hp. rewrite not_elem_of_cons in Hp. destruct Hp as [Hne Hp].
        destruct (I2 Hp) as [-> ->]. apply R3. exact Hne. }
  intros p Hp. now apply (G m meq p).
Qed.

(** The relaxation of the moments. *)
Lemma relax_loop (s_ meq : nat -> Qc) (l : list nat) (m : nat -> Qc) :
  NoDup l ->
  let m' := for_each l (fun q m => <[ q := (m q - s_ q * (m q - meq q))%Qc ]> m) m in
  forall q, (q ∈ l -> m' q = (m q - s_ q * (m q - meq q))%Qc)
            /\ (q ∉ l -> m' q = m q).
Proof.
  intros Hnd. cbn zeta. revert m. induction Hnd as [|q0 l Hnin Hnd IH]; intros m q.
  - split; [intros Hq; now apply elem_of_nil in Hq|reflexivity].
  - rewrite for_each_cons.
    destruct (IH (<[ q0 := (m q0 - s_ q0 * (m q0 - meq q0))%Qc ]> m) q) as [I1 I2].
    split.
    + intros Hq. apply elem_of_cons in Hq. destruct Hq as [->|Hq].
      * rewrite (I2 Hnin). apply lookup_insert1.
      * rewrite (I1 Hq).
        assert (Hne : q0 <> q) by (intros ->; contradiction).
        rewrite !lookup_insert1_ne by exact Hne. reflexivity.
    + intros Hq. rewrite not_elem_of_cons in Hq. destruct Hq as [Hne Hq].
      rewrite (I2 Hq). apply lookup_insert1_ne. congruence.
Qed.

(** The MRT collision of one site. *)
Lemma mrt_collide_hit (i j k : Z) (s : CollideState) (p : nat) :
  USE_MRT cfg = true -> (p < nVels vs)%nat ->
  collide_inv g0 s ->
  snd (LBM_mrt_collide vs cfg i j k s) (i, j, k, p) = mrt_value vs g0 (i, j, k) p.
Proof.
  intros Hmrt Hp [e E]. unfold LBM_mrt_collide. rewrite Hmrt.
  destruct s as [g fn]. cbn [fst] in E. cbv zeta.
  destruct (update_feq_loop i j k (seq 0 (nVels vs)) g) as (e' & E' & Hat & _).
  { exists e. exact E. }
  rewrite E'.
  pose proof (moment_rows (fun q => f (set_feq e' g0) (i, j, k, q))
                (fun q => feq (set_feq e' g0) (i, j, k, q))
                (seq 0 (nVels vs)) (seq 0 (nVels vs))
                (fun _ => 0%Qc) (fun _ => 0%Qc)
                (NoDup_seq _ _)) as Hm.
  cbn zeta in Hm.
  destruct (for_each (seq 0 (nVels vs)) _ (fun _ : nat => 0%Qc, fun _ : nat => 0%Qc))
    as [m meq] eqn:Em.
  cbn [fst snd] in Hm. cbn [snd].
  pose proof (relax_loop (mrt_omega (set_feq e' g0)) meq (seq 0 (nVels vs)) m
                (NoDup_seq _ _)) as Hr.
  cbn zeta in Hr.
  set (m' := for_each (seq 0 (nVels vs)) _ m) in *.
  transitivity
    (for_each (seq 0 (nVels vs))
       (fun q ftmp => (ftmp + mInvMRT vs p q * m' q)%Qc) 0%Qc).
  - apply (for_each_hit _ (fun _ => True) (fun fn : IVector4 Qc => fn (i, j, k, p))
             (fun a => a = p)); auto.
    + intros a fn' _ _ ->. apply lookup_insert4.
    + intros a fn' _ _ Hne. apply lookup_insert4_ne. congruence.
    + intros a _. destruct (decide (a = p)); auto.
    + exists p. split; [|reflexivity]. apply elem_of_seq. lia.
  - unfold mrt_value. apply sum_upto_ext. intros q Hq.
    assert (Hq' : q ∈ seq 0 (nVels vs)) by (apply elem_of_seq; lia).
    destruct (Hr q) as [Hr1 _]. rewrite (Hr1 Hq').
    destruct (Hm q Hq') as [-> ->].
    cbn [f feq mrt_omega set_feq]. unfold moment, sum_upto.
    assert (Ee : for_each (seq 0 (nVels vs))
                   (fun q0 acc => (acc + mMRT vs q q0 * e' (i, j, k, q0))%Qc) 0%Qc
                 = for_each (seq 0 (nVels vs))
                     (fun r acc => (acc + mMRT vs q r * LBM_collide_feq vs g0 i j k r)%Qc)
                     0%Qc).
    { apply (sum_upto_ext (nVels vs)
               (fun r => (mMRT vs q r * e' (i, j, k, r))%Qc)
               (fun r => (mMRT vs q r * LBM_collide_feq vs g0 i j k r)%Qc)).
      intros r Hr'. rewrite Hat by (apply elem_of_seq; lia). reflexivity. }
    rewrite Ee. reflexivity.
Qed.

Lemma collide_site_hit_mrt (i j k : Z) (s : CollideState) (p : nat) :
  USE_MRT cfg = true ->
  LatTyp g0 (i, j, k) <> 2 -> LatTyp g0 (i, j, k) <> 3 ->
  (p < nVels vs)%nat ->
  collide_inv g0 s ->
  snd (collide_site vs cfg i j k s) (i, j, k, p) = mrt_value vs g0 (i, j, k) p.
Proof.
  intros Hmrt H2 H3 Hp Hs. unfold collide_site.
  destruct Hs as [e E].
  replace (LatTyp (fst s) (i, j, k)) with (LatTyp g0 (i, j, k)) by now rewrite E.
  destruct (Z.eqb_spec (LatTyp g0 (i, j, k)) 2); [contradiction|].
  destruct (Z.eqb_spec (LatTyp g0 (i, j, k)) 3); [contradiction|].
  rewrite Hmrt. cbn [orb].
  apply mrt_collide_hit; try assumption. exists e. exact E.
Qed.

End MrtSite.

(** The MRT sweep. *)
Lemma LBM_collide_mrt (vs : VelSet) (cfg : Config) (g : GridObj) (x : Site) (p : nat) :
  USE_MRT cfg = true ->
  in_grid g x -> (p < nVels vs)%nat ->
  LatTyp g x <> CoveredByFiner -> LatTyp g x <> TransitionReceiveFromFiner ->
  f (LBM_collide vs cfg g) (x, p) = mrt_value vs g x p.
Proof.
  intros Hmrt Hx Hp H2 H3. rewrite LBM_collide_sweep. cbn zeta.
  apply (for_each_hit _ (collide_inv g)
           (fun s : CollideState => snd s (x, p)) (fun a => a = x)).
  - intros [[i j] k] s _. apply collide_site_inv.
  - intros [[i j] k] s _ Hs <-. now apply collide_site_hit_mrt.
  - intros [[i j] k] s _ _ Hne. apply collide_site_miss. congruence.
  - intros a _. destruct (decide (a = x)); auto.
  - exists (feq g). apply set_feq_self.
  - exists x. split; [|reflexivity]. now apply elem_of_sites.
Qed.

(** ** The stored equilibrium *)

Section CollideFeq.

Variable vs : VelSet.
Variable cfg : Config.
Variable g0 : GridObj.

Lemma collide_dirs_fst (i j k : Z) (l : list nat) (s : CollideState) :
  fst (for_each l (collide_dir vs i j k) s) = for_each l (update_feq vs i j k) (fst s).
Proof.
  revert s. induction l as [|v l IH]; intros [g fn]; [reflexivity|].
  rewrite !for_each_cons, IH. reflexivity.
Qed.

(** BGK or MRT, a site that collides stores the equilibrium of each of
    its directions. *)
Lemma collide_site_fst (i j k : Z) (s : CollideState) :
  fst (collide_site vs cfg i j k s)
  = if (LatTyp (fst s) (i, j, k) =? 2) || (LatTyp (fst s) (i, j, k) =? 3) then fst s
    else for_each (seq 0 (nVels vs)) (update_feq vs i j k) (fst s).
Proof.
  unfold collide_site. destruct (_ || _); [reflexivity|].
  destruct (USE_MRT cfg) eqn:Hmrt; [|apply collide_dirs_fst].
  unfold LBM_mrt_collide. rewrite Hmrt. destruct s as [g fn].
  match goal with |- context [let '(m, meq) := ?X in _] => destruct X as [m meq] end.
  reflexivity.
Qed.

Lemma collide_site_feq_hit (i j k : Z) (s : CollideState) (v : nat) :
  LatTyp g0 (i, j, k) <> 2 -> LatTyp g0 (i, j, k) <> 3 -> (v < nVels vs)%nat ->
  collide_inv g0 s ->
  feq (fst (collide_site vs cfg i j k s)) (i, j, k, v) = LBM_collide_feq vs g0 i j k v.
Proof.
  intros H2 H3 Hv [e E]. rewrite collide_site_fst, E. cbn [LatTyp set_feq].
  destruct (Z.eqb_spec (LatTyp g0 (i, j, k)) 2); [contradiction|].
  destruct (Z.eqb_spec (LatTyp g0 (i, j, k)) 3); [contradiction|]. cbn [orb].
  destruct (update_feq_loop vs g0 i j k (seq 0 (nVels vs)) (set_feq e g0))
    as (e' & -> & Hat & _); [eexists; reflexivity|].
  cbn [feq set_feq]. apply Hat. apply elem_of_seq. lia.
Qed.

Lemma collide_site_feq_miss (i j k : Z) (s : CollideState) (y : Site) (v : nat) :
  y <> (i, j, k) \/ (nVels vs <= v)%nat
  \/ LatTyp g0 (i, j, k) = 2 \/ LatTyp g0 (i, j, k) = 3 ->
  collide_inv g0 s ->
  feq (fst (collide_site vs cfg i j k s)) (y, v) = feq (fst s) (y, v).
Proof.
  intros Hy [e E]. rewrite collide_site_fst, E. cbn [LatTyp set_feq].
  destruct (_ || _) eqn:Ex; [reflexivity|].
  destruct (update_feq_loop vs g0 i j k (seq 0 (nVels vs)) (set_feq e g0))
    as (e' & -> & _ & Ho); [eexists; reflexivity|].
  cbn [feq set_feq]. cbn [feq set_feq] in Ho. apply Ho.
  intros a Ha Eq. apply elem_of_seq in Ha. simplify_eq.
  destruct Hy as [Hy|[Hy|[Hy|Hy]]]; [congruence|lia| |];
    rewrite Hy in Ex; discriminate.
Qed.

End CollideFeq.

Lemma LBM_collide_feq_stored (vs : VelSet) (cfg : Config) (g : GridObj) (x : Site)
  (v : nat) :
  in_grid g x -> (v < nVels vs)%nat ->
  LatTyp g x <> CoveredByFiner -> LatTyp g x <> TransitionReceiveFromFiner ->
  feq (LBM_collide vs cfg g) (x, v)
  = let '(i, j, k) := x in LBM_collide_feq vs g i j k v.
Proof.
  intros Hx Hv H2 H3. rewrite LBM_collide_sweep. cbn zeta. cbn [feq set_f].
  apply (for_each_hit _ (collide_inv g)
           (fun s : CollideState => feq (fst s) (x, v)) (fun a => a = x)).
  - intros [[i j] k] s _. apply collide_site_inv.
  - intros [[i j] k] s _ Hs <-. now apply collide_site_feq_hit.
  - intros [[i j] k] s _ Hs Hne. apply (collide_site_feq_miss vs cfg g); [|exact Hs].
    left. congruence.
  - intros a _. destruct (decide (a = x)); auto.
  - exists (feq g). apply set_feq_self.
  - exists x. split; [|reflexivity]. now apply elem_of_sites.
Qed.

Lemma LBM_collide_feq_kept (vs : VelSet) (cfg : Config) (g : GridObj) (x : Site)
  (v : nat) :
  ~ in_grid g x \/ (nVels vs <= v)%nat
  \/ LatTyp g x = CoveredByFiner \/ LatTyp g x = TransitionReceiveFromFiner ->
  feq (LBM_collide vs cfg g) (x, v) = feq g (x, v).
Proof.
  intros Hx. rewrite LBM_collide_sweep. cbn zeta. cbn [feq set_f].
  transitivity (feq (fst (g, f g)) (x, v)); [|reflexivity].
  apply (for_each_miss _ (collide_inv g)
           (fun s : CollideState => feq (fst s) (x, v)) (fun _ => False)); auto.
  - intros [[i j] k] s _. apply collide_site_inv.
  - intros [[i j] k] s Ha Hs _. apply (collide_site_feq_miss vs cfg g); [|exact Hs].
    destruct (decide (x = (i, j, k))) as [->|Hne]; [|now left].
    right. destruct Hx as [Hx|[Hx|Hx]]; [|now left|now right].
    exfalso. apply Hx. now apply elem_of_sites in Ha.
  - exists (feq g). apply set_feq_self.
Qed.

(** Taking the moments back to velocity space gives the values back, if
    the two matrices are inverse to each other. *)
Lemma inv_moment (vs : VelSet) (a : nat -> Qc) (p : nat) :
  (p < nVels vs)%nat ->
  (forall r, (r < nVels vs)%nat ->
     sum_upto (nVels vs) (fun q => (mInvMRT vs p q * mMRT vs q r)%Qc)
     = if (p =? r)%nat then 1%Qc else 0%Qc) ->
  sum_upto (nVels vs) (fun q => (mInvMRT vs p q * moment vs a q)%Qc) = a p.
Proof.
  intros Hp Hinv. unfold moment.
  transitivity
    (sum_upto (nVels vs) (fun q =>
       sum_upto (nVels vs) (fun r => (mInvMRT vs p q * mMRT vs q r * a r)%Qc))).
  { apply sum_upto_ext. intros q _. rewrite <- sum_upto_scale.
    apply sum_upto_ext. intros r _. ring. }
  rewrite sum_upto_swap.
  transitivity
    (sum_upto (nVels vs) (fun r =>
       (sum_upto (nVels vs) (fun q => (mInvMRT vs p q * mMRT vs q r)%Qc) * a r)%Qc)).
  { apply sum_upto_ext. intros r _.
    rewrite Qcmult_comm, <- sum_upto_scale.
    apply sum_upto_ext. intros q _. ring. }
  apply (sum_upto_pick (nVels vs) p
           (fun r => sum_upto (nVels vs) (fun q => (mInvMRT vs p q * mMRT vs q r)%Qc)) a);
    assumption.
Qed.

(** X12. Whichever collision operator the build has, the collision sweep
    stores in [feq] the equilibrium of every direction of every site of
    the grid that collides (type neither 2 nor 3), computed from the
    density and the velocity of the site; the stored equilibrium of the
    sites of type 2 and 3 and of the sites outside the grid is left as it
    was. *)
Theorem collide_stores_feq (vs : VelSet) (cfg : Config) (g : GridObj) (x : Site)
  (v : nat) :
  (v < nVels vs)%nat ->
  (in_grid g x ->
   LatTyp g x <> CoveredByFiner -> LatTyp g x <> TransitionReceiveFromFiner ->
   feq (LBM_collide vs cfg g) (x, v)
   = let '(i, j, k) := x in LBM_collide_feq vs g i j k v)
  /\ (~ in_grid g x
      \/ LatTyp g x = CoveredByFiner \/ LatTyp g x = TransitionReceiveFromFiner ->
      feq (LBM_collide vs cfg g) (x, v) = feq g (x, v)).
Proof.
  intros Hv. split.
  - intros Hx H2 H3. now apply LBM_collide_feq_stored.
  - intros Hx. apply LBM_collide_feq_kept. destruct Hx as [Hx|Hx]; auto.
Qed.

Lemma collide_stores_feq_witness :
  feq (LBM_collide D2Q9 mrt_cfg fluid_row) ((1, 0, 0)%Z, 3%nat)
  = LBM_collide_feq D2Q9 fluid_row 1 0 0 3
  /\ feq (LBM_collide D2Q9 mrt_cfg fine_block) ((0, 0, 0)%Z, 3%nat)
     = feq fine_block ((0, 0, 0)%Z, 3%nat).
Proof.
  split.
  - apply (collide_stores_feq D2Q9 mrt_cfg fluid_row (1, 0, 0) 3).
    + cbn. lia.
    + cbn. lia.
    + discriminate.
    + discriminate.
  - apply (collide_stores_feq D2Q9 mrt_cfg fine_block (0, 0, 0) 3).
    + cbn. lia.
    + right. right. reflexivity.
Defined.

(** X13. In an MRT build the collision sweep assigns to direction [p] of
    every site of the grid that collides
    [sum_q mInvMRT[p][q] (m_q - s_q (m_q - meq_q))], where [m] and [meq]
    are the moments [mMRT . f] and [mMRT . feq] of the populations and of
    the equilibrium the sweep stores, and [s_q] the relaxation rates
    [mrt_omega]; the lattice force [force_i] does not enter. *)
Theorem mrt_collision (vs : VelSet) (cfg : Config) (g : GridObj) (x : Site) (p : nat) :
  USE_MRT cfg = true ->
  in_grid g x -> (p < nVels vs)%nat ->
  LatTyp g x <> CoveredByFiner -> LatTyp g x <> TransitionReceiveFromFiner ->
  let g' := LBM_collide vs cfg g in
  let m := moment vs (fun r => f g (x, r)) in
  let meq := moment vs (fun r => feq g' (x, r)) in
  f g' (x, p)
  = sum_upto (nVels vs)
      (fun q => (mInvMRT vs p q * (m q - mrt_omega g q * (m q - meq q)))%Qc).
Proof.
  intros Hmrt Hx Hp H2 H3. cbn zeta.
  rewrite (LBM_collide_mrt vs cfg g x p Hmrt Hx Hp H2 H3).
  unfold mrt_value. destruct x as [[i j] k].
  apply sum_upto_ext. intros q _.
  assert (E : moment vs (fun r => feq (LBM_collide vs cfg g) (i, j, k, r)) q
              = moment vs (fun r => LBM_collide_feq vs g i j k r) q).
  { unfold moment. apply sum_upto_ext. intros r Hr.
    now rewrite (LBM_collide_feq_stored vs cfg g (i, j, k) r). }
  rewrite E. reflexivity.
Qed.

Lemma mrt_collision_witness :
  f (LBM_collide D2Q9 mrt_cfg fluid_row) ((1, 0, 0)%Z, 3%nat)
  = sum_upto (nVels D2Q9)
      (fun q =>
         (mInvMRT D2Q9 3 q
          * (moment D2Q9 (fun r => f fluid_row ((1, 0, 0)%Z, r)) q
             - mrt_omega fluid_row q
               * (moment D2Q9 (fun r => f fluid_row ((1, 0, 0)%Z, r)) q
                  - moment D2Q9
                      (fun r => feq (LBM_collide D2Q9 mrt_cfg fluid_row) ((1, 0, 0)%Z, r))
                      q)))%Qc).
Proof.
  apply (mrt_collision D2Q9 mrt_cfg fluid_row (1, 0, 0) 3).
  - reflexivity.
  - cbn. lia.
  - cbn. lia.
  - discriminate.
  - discriminate.
Defined.

(** X14. With one relaxation rate for all moments, and [mInvMRT] the
    inverse of [mMRT], the MRT collision is the BGK rule without the
    forcing term: [f - omega (f - feq)]. *)
Theorem mrt_single_rate (vs : VelSet) (cfg : Config) (g : GridObj) (x : Site)
  (p : nat) (om : Qc) :
  USE_MRT cfg = true ->
  in_grid g x -> (p < nVels vs)%nat ->
  LatTyp g x <> CoveredByFiner -> LatTyp g x <> TransitionReceiveFromFiner ->
  (forall q, (q < nVels vs)%nat -> mrt_omega g q = om) ->
  (forall r, (r < nVels vs)%nat ->
     sum_upto (nVels vs) (fun q => (mInvMRT vs p q * mMRT vs q r)%Qc)
     = if (p =? r)%nat then 1%Qc else 0%Qc) ->
  f (LBM_collide vs cfg g) (x, p)
  = (f g (x, p)
     - om * (f g (x, p) - (let '(i, j, k) := x in LBM_collide_feq vs g i j k p)))%Qc.
Proof.
  intros Hmrt Hx Hp H2 H3 Hom Hinv.
  rewrite (LBM_collide_mrt vs cfg g x p Hmrt Hx Hp H2 H3).
  unfold mrt_value. destruct x as [[i j] k].
  set (a := fun r => f g (i, j, k, r)).
  set (b := fun r => LBM_collide_feq vs g i j k r).
  transitivity
    (sum_upto (nVels vs) (fun q =>
       ((1 - om) * (mInvMRT vs p q * moment vs a q)
        + om * (mInvMRT vs p q * moment vs b q))%Qc)).
  { apply sum_upto_ext. intros q Hq. rewrite (Hom q Hq). ring. }
  rewrite sum_upto_plus, !sum_upto_scale, !inv_moment by assumption.
  unfold a, b. ring.
Qed.

Lemma mrt_single_rate_witness :
  f (LBM_collide D2Q9 mrt_cfg fluid_row) ((1, 0, 0)%Z, 3%nat)
  = (f fluid_row ((1, 0, 0)%Z, 3%nat)
     - 1 * (f fluid_row ((1, 0, 0)%Z, 3%nat) - LBM_collide_feq D2Q9 fluid_row 1 0 0 3))%Qc.
Proof.
  apply (mrt_single_rate D2Q9 mrt_cfg fluid_row (1, 0, 0) 3 1%Qc).
  - reflexivity.
  - cbn. lia.
  - cbn. lia.
  - discriminate.
  - discriminate.
  - reflexivity.
  - intros r Hr.
    apply (sum_upto_pick (nVels D2Q9) 3 (mInvMRT D2Q9 3) (fun q => mMRT D2Q9 q r)).
    + cbn. lia.
    + reflexivity.
Defined.

(** ** Streaming inside the grid *)

Section StreamBulk.

Variable vs : VelSet.
Variable cfg : Config.
Variable ext : External.
Variable g : GridObj.

Hypothesis vs_ok : VelSet_ok vs.

(** A site does not keep the population that a site of the grid streams
    into it: the retention of direction [v] at [dest s v] would need [s]
    off the grid. *)
Lemma no_retention_into_dest (s x : Site) (v v' : nat) :
  in_grid g s -> (v < nVels vs)%nat -> (v' < nVels vs)%nat ->
  dest_off_grid vs g x v' = true ->
  x = dest vs s v -> v = getOpposite vs v' -> False.
Proof.
  intros Hs Hv Hv' Hoff -> Hopp.
  assert (Ev : v' = getOpposite vs v)
    by (rewrite Hopp; symmetry; now apply opp_opp).
  subst v'. unfold dest_off_grid in Hoff.
  rewrite dest_opposite in Hoff by assumption.
  now rewrite (in_grid_on_grid vs g s Hs) in Hoff.
Qed.

(** The writers of the slot [(dest s v, v)] other than the trip [(s, v)]
    itself: a do-nothing inlet at the destination. *)
Lemma writers_of_dest (s x : Site) (v v' : nat) (val : Qc) :
  in_grid g s -> (v < nVels vs)%nat ->
  (x, v') ∈ trips vs g ->
  stream_write vs cfg ext g x v' = Some (dest vs s v, v, val) ->
  (x = s /\ v' = v)
  \/ (LatTyp g (dest vs s v) = DoNothingInlet /\ val = f g (dest vs s v, v)).
Proof.
  intros Hs Hv Hin E. apply elem_of_trips in Hin as [Hx Hv'].
  apply stream_write_inv in E
    as [(T7 & Eq & Ed & Eval)|[(Hoff & _ & Eq & Ed & _)|[(Hoff & _ & Eq & Ed & _)
       |[(_ & _ & Eq & Ed)|(_ & _ & _ & Eq & Ed & _)]]]].
  - right. subst x v'. auto.
  - subst v'. exfalso. now apply (off_grid_no_source vs g vs_ok x s v).
  - exfalso. symmetry in Eq. now apply (no_retention_into_dest s x v v').
  - left. subst v'. apply dest_inj in Eq. auto.
  - left. subst v'. apply dest_inj in Eq. auto.
Qed.

Lemma stream_into_dest (s : Site) (v : nat) (r : Qc) :
  in_grid g s -> (v < nVels vs)%nat ->
  stream_write vs cfg ext g s v = Some (dest vs s v, v, r) ->
  (LatTyp g (dest vs s v) = DoNothingInlet -> r = f g (dest vs s v, v)) ->
  f (LBM_stream vs cfg ext g) (dest vs s v, v) = r.
Proof.
  intros Hs Hv E H7. apply LBM_stream_written.
  - exists s, v. split; [now apply elem_of_trips|exact E].
  - intros x v' val Hin E'.
    destruct (writers_of_dest s x v v' val Hs Hv Hin E') as [[-> ->]|[T7 ->]].
    + rewrite E in E'. now simplify_eq.
    + symmetry. now apply H7.
Qed.

(** Whatever is assigned to a slot of a do-nothing inlet site is the
    population the slot held. *)
Lemma stream_write_into_inlet (x q : Site) (v d : nat) (val : Qc) :
  INLET_ON cfg = true -> INLET_DO_NOTHING cfg = true ->
  LatTyp g q = DoNothingInlet ->
  stream_write vs cfg ext g x v = Some (q, d, val) -> val = f g (q, d).
Proof.
  intros H1 H2 T7. unfold stream_write. rewrite H1, H2. cbn [andb].
  destruct (LatTyp g x =? 2); [discriminate|].
  destruct (LatTyp g x =? 7); [intros E; now simplify_eq|].
  destruct (dest_off_grid vs g x v).
  { destruct (streams_periodically vs cfg g x v) eqn:Hper.
    - intros E. simplify_eq. unfold streams_periodically in Hper.
      rewrite T7 in Hper. cbn in Hper. rewrite !andb_false_r in Hper. discriminate.
    - intros E. now simplify_eq. }
  destruct (mpi_diverted vs cfg ext g x v).
  { destruct (PERIODIC_BOUNDARIES cfg
              && ((LatTyp g x =? 1) && (LatTyp g (dest vs x v) =? 1))) eqn:Hp.
    - intros E. simplify_eq. rewrite T7 in Hp. cbn in Hp.
      rewrite !andb_false_r in Hp. discriminate.
    - intros E. now simplify_eq. }
  destruct ((LatTyp g x =? 4) && (LatTyp g (dest vs x v) =? 4)); [discriminate|].
  destruct (LatTyp g (dest vs x v) =? 7) eqn:E7; [discriminate|].
  intros E. simplify_eq. rewrite T7 in E7. discriminate.
Qed.

End StreamBulk.

(** X15. The bulk rule of the streaming sweep: a site of the grid that is
    neither covered by a finer grid (type 2) nor a do-nothing inlet site
    streams its population of direction [v] into the neighbour in that
    direction, when the neighbour is on the grid and is no do-nothing
    inlet site, the pair is not a pair of transition sites (type 4), and
    the trip is not taken over by the MPI overlap. *)
Theorem stream_bulk (vs : VelSet) (cfg : Config) (ext : External) (g : GridObj)
  (s : Site) (v : nat) :
  VelSet_ok vs -> in_grid g s -> (v < nVels vs)%nat ->
  dest_off_grid vs g s v = false ->
  mpi_diverted vs cfg ext g s v = false ->
  LatTyp g s <> CoveredByFiner -> LatTyp g s <> DoNothingInlet ->
  LatTyp g (dest vs s v) <> DoNothingInlet ->
  ~ (LatTyp g s = TransitionToCoarser /\ LatTyp g (dest vs s v) = TransitionToCoarser) ->
  f (LBM_stream vs cfg ext g) (dest vs s v, v) = f g (s, v).
Proof.
  intros Hok Hs Hv Hon Hmpi N2 N7 N7' N44.
  apply (stream_into_dest vs cfg ext g Hok s v); try assumption; [|contradiction].
  unfold stream_write. rewrite Hon, Hmpi.
  destruct (Z.eqb_spec (LatTyp g s) 2); [contradiction|].
  destruct (Z.eqb_spec (LatTyp g s) 7); [contradiction|].
  destruct (Z.eqb_spec (LatTyp g (dest vs s v)) 7); [contradiction|].
  rewrite !andb_false_r.
  destruct (Z.eqb_spec (LatTyp g s) 4) as [E4|]; [|reflexivity].
  destruct (Z.eqb_spec (LatTyp g (dest vs s v)) 4) as [E4'|]; [|reflexivity].
  exfalso. apply N44. auto.
Qed.

Lemma stream_bulk_witness :
  f (LBM_stream D2Q9 (plain_cfg 0) no_ext fluid_row) (dest D2Q9 (0, 0, 0) 0, 0%nat)
  = f fluid_row ((0, 0, 0)%Z, 0%nat).
Proof.
  apply (stream_bulk D2Q9 (plain_cfg 0) no_ext fluid_row (0, 0, 0) 0).
  - exact D2Q9_ok.
  - cbn. lia.
  - cbn. lia.
  - reflexivity.
  - reflexivity.
  - discriminate.
  - discriminate.
  - discriminate.
  - intros [H _]. discriminate.
Defined.

(** X16. A site covered by a finer grid (type 2) streams nothing: the
    neighbour of such a site of the grid, in direction [v], is left with
    0 in direction [v] by the streaming sweep (unless it is a do-nothing
    inlet site). *)
Theorem stream_covered_source (vs : VelSet) (cfg : Config) (ext : External)
  (g : GridObj) (s : Site) (v : nat) :
  VelSet_ok vs -> in_grid g s -> (v < nVels vs)%nat ->
  LatTyp g s = CoveredByFiner ->
  LatTyp g (dest vs s v) <> DoNothingInlet ->
  f (LBM_stream vs cfg ext g) (dest vs s v, v) = 0%Qc.
Proof.
  intros Hok Hs Hv T2 N7. apply LBM_stream_unwritten.
  intros x v' val Hin E.
  destruct (writers_of_dest vs cfg ext g Hok s x v v' val Hs Hv Hin E)
    as [[-> ->]|[T7 _]]; [|contradiction].
  unfold stream_write in E. rewrite T2 in E. discriminate.
Qed.

Lemma stream_covered_source_witness :
  f (LBM_stream D2Q9 (plain_cfg 0) no_ext covered_row) (dest D2Q9 (0, 0, 0) 0, 0%nat)
  = 0%Qc.
Proof.
  apply (stream_covered_source D2Q9 (plain_cfg 0) no_ext covered_row (0, 0, 0) 0).
  - exact D2Q9_ok.
  - cbn. lia.
  - cbn. lia.
  - reflexivity.
  - discriminate.
Defined.

(** X17. In a build with a do-nothing inlet, the streaming sweep leaves
    every population of a do-nothing inlet site (type 7) of the grid as
    it was: the site copies its own populations and no neighbour streams
    into it. *)
Theorem stream_do_nothing_inlet (vs : VelSet) (cfg : Config) (ext : External)
  (g : GridObj) (x : Site) (v : nat) :
  INLET_ON cfg = true -> INLET_DO_NOTHING cfg = true ->
  in_grid g x -> (v < nVels vs)%nat ->
  LatTyp g x = DoNothingInlet ->
  f (LBM_stream vs cfg ext g) (x, v) = f g (x, v).
Proof.
  intros H1 H2 Hx Hv T7. apply LBM_stream_written.
  - exists x, v. split; [now apply elem_of_trips|].
    unfold stream_write. rewrite H1, H2, T7. reflexivity.
  - intros y v' val _ E.
    now apply (stream_write_into_inlet vs cfg ext g y x v' v val).
Qed.

Lemma stream_do_nothing_inlet_witness :
  f (LBM_stream D2Q9 inlet_cfg no_ext inlet_row) ((0, 0, 0)%Z, 1%nat)
  = f inlet_row ((0, 0, 0)%Z, 1%nat).
Proof.
  apply (stream_do_nothing_inlet D2Q9 inlet_cfg no_ext inlet_row (0, 0, 0) 1).
  - reflexivity.
  - reflexivity.
  - cbn. lia.
  - cbn. lia.
  - reflexivity.
Defined.

(** X18. A trip inside the grid that the MPI overlap takes over (source
    on a receiver layer, destination on a sender layer, source in a
    periodic overlap): with periodic boundaries and both sites fluid the
    population streams to the neighbour as in the bulk; otherwise the
    neighbour keeps the population it had in that direction. *)
Theorem stream_mpi_overlap (vs : VelSet) (cfg : Config) (ext : External)
  (g : GridObj) (s : Site) (v : nat) :
  VelSet_ok vs -> in_grid g s -> (v < nVels vs)%nat ->
  LatTyp g s <> CoveredByFiner -> LatTyp g s <> DoNothingInlet ->
  dest_off_grid vs g s v = false ->
  mpi_diverted vs cfg ext g s v = true ->
  let g' := LBM_stream vs cfg ext g in
  let d := dest vs s v in
  let periodic :=
    PERIODIC_BOUNDARIES cfg = true /\ LatTyp g s = Fluid /\ LatTyp g d = Fluid in
  (periodic -> f g' (d, v) = f g (s, v))
  /\ (~ periodic -> f g' (d, v) = f g (d, v)).
Proof.
  intros Hok Hs Hv N2 N7 Hon Hmpi. cbn zeta.
  assert (E : stream_write vs cfg ext g s v
              = if PERIODIC_BOUNDARIES cfg
                   && ((LatTyp g s =? 1) && (LatTyp g (dest vs s v) =? 1))
                then Some (dest vs s v, v, f g (s, v))
                else Some (dest vs s v, v, f g (dest vs s v, v))).
  { unfold stream_write. rewrite Hon, Hmpi.
    destruct (Z.eqb_spec (LatTyp g s) 2); [contradiction|].
    destruct (Z.eqb_spec (LatTyp g s) 7); [contradiction|].
    rewrite !andb_false_r. reflexivity. }
  split.
  - intros (Hp & T1 & T1').
    apply (stream_into_dest vs cfg ext g Hok s v); try assumption.
    + rewrite E, Hp, T1, T1'. reflexivity.
    + intros T7. rewrite T7 in T1'. discriminate.
  - intros Hnp.
    apply (stream_into_dest vs cfg ext g Hok s v); try assumption; [|reflexivity].
    rewrite E.
    destruct (PERIODIC_BOUNDARIES cfg) eqn:Hp; [|reflexivity].
    destruct (Z.eqb_spec (LatTyp g s) 1) as [T1|]; [|reflexivity].
    destruct (Z.eqb_spec (LatTyp g (dest vs s v)) 1) as [T1'|]; [|reflexivity].
    exfalso. apply Hnp. auto.
Qed.

Lemma stream_mpi_overlap_witness :
  (PERIODIC_BOUNDARIES mpi_periodic_cfg = true /\ LatTyp fluid_row (0, 0, 0) = Fluid
   /\ LatTyp fluid_row (dest D2Q9 (0, 0, 0) 0) = Fluid ->
   f (LBM_stream D2Q9 mpi_periodic_cfg overlap_ext fluid_row) (dest D2Q9 (0, 0, 0) 0, 0%nat)
   = f fluid_row ((0, 0, 0)%Z, 0%nat))
  /\ (~ (PERIODIC_BOUNDARIES mpi_periodic_cfg = true /\ LatTyp fluid_row (0, 0, 0) = Fluid
         /\ LatTyp fluid_row (dest D2Q9 (0, 0, 0) 0) = Fluid) ->
      f (LBM_stream D2Q9 mpi_periodic_cfg overlap_ext fluid_row)
        (dest D2Q9 (0, 0, 0) 0, 0%nat)
      = f fluid_row (dest D2Q9 (0, 0, 0) 0, 0%nat)).
Proof.
  apply (stream_mpi_overlap D2Q9 mpi_periodic_cfg overlap_ext fluid_row (0, 0, 0) 0).
  - exact D2Q9_ok.
  - cbn. lia.
  - cbn. lia.
  - discriminate.
  - discriminate.
  - reflexivity.
  - reflexivity.
Defined.

(** ** The reach of the driver *)

Section Moves.

Variable vs : VelSet.
Variable cfg : Config.
Variable ext : External.
Variable lev : Path -> Z.

Lemma moved_ext (p : Path) (D D' : Path -> option Z) (h h' : Run -> Run) :
  moved lev p D h ->
  (forall k, D k = D' k) ->
  (forall r, (forall q, level (fst r q) = lev q) -> h r = h' r) ->
  moved lev p D' h'.
Proof.
  intros H ED Eh r Hlev. rewrite <- Eh by exact Hlev.
  destruct (H r Hlev) as [L M]. split; [exact L|].
  intros k. rewrite <- ED. apply M.
Qed.

(** A grid left untouched has its tick counter advanced by 0. *)
Lemma moved_weaken (p : Path) (D D' : Path -> option Z) (h : Run -> Run) :
  moved lev p D h ->
  (forall k, D' k = D k \/ (D k = None /\ D' k = Some 0)) ->
  moved lev p D' h.
Proof.
  intros H HD r Hlev. destruct (H r Hlev) as [L M]. split; [exact L|].
  intros k. specialize (M k). destruct (HD k) as [->|[E ->]]; [exact M|].
  rewrite E in M. rewrite M. lia.
Qed.

Lemma moved_id (p : Path) : moved lev p (fun _ => None) (fun r => r).
Proof. intros r Hlev. split; [exact Hlev|]. reflexivity. Qed.

Lemma moved_seq (p : Path) (D1 D2 : Path -> option Z) (h1 h2 : Run -> Run) :
  moved lev p D1 h1 -> moved lev p D2 h2 ->
  moved lev p (fun k => oadd (D1 k) (D2 k)) (fun r => h2 (h1 r)).
Proof.
  intros H1 H2 r Hlev.
  destruct (H1 r Hlev) as [L1 M1]. destruct (H2 (h1 r) L1) as [L2 M2].
  split; [exact L2|]. intros k. specialize (M1 k). specialize (M2 k).
  destruct (D1 k) as [d1|], (D2 k) as [d2|]; cbn [oadd].
  - lia.
  - rewrite M2. exact M1.
  - rewrite M2, M1. reflexivity.
  - rewrite M2. exact M1.
Qed.

Lemma below_ne (p : Path) (r' : nat) (k' : Path) : p <> p ++ r' :: k'.
Proof.
  intros E. apply (f_equal length) in E. rewrite length_app in E. cbn in E. lia.
Qed.

Lemma moved_of_step (p : Path) (es : list Event) (dt : Z) (h : Run -> Run) :
  step lev p es dt h ->
  (forall r k, k <> [] -> fst (h r) (p ++ k) = fst r (p ++ k)) ->
  moved lev p (at_root dt) h.
Proof.
  intros H Hk r Hlev. destruct (H r Hlev) as (_ & L & T & _).
  split; [exact L|]. intros [|r' k']; cbn [at_root].
  - rewrite app_nil_r. exact T.
  - now apply Hk.
Qed.

Lemma moved_call (p : Path) (h : GridObj -> GridObj) :
  keeps h -> moved lev p (at_root 0) (call p h).
Proof.
  intros Hk. apply (moved_of_step p [] 0); [now apply step_call|].
  intros r [|r' k'] Hne; [contradiction|].
  unfold call. cbn [fst]. apply grids_insert_ne, below_ne.
Qed.

Lemma moved_kernel_op (p : Path) (op : Op) (h : GridObj -> GridObj) :
  keeps h -> moved lev p (at_root 0) (kernel_op p op h).
Proof.
  intros Hk. apply (moved_of_step p [(p, op)] 0); [now apply step_kernel_op|].
  intros r [|r' k'] Hne; [contradiction|].
  unfold kernel_op. cbn [fst]. apply grids_insert_ne, below_ne.
Qed.

Lemma moved_tick (p : Path) (dt : Z) :
  moved lev p (at_root dt) (call p (fun g => set_t (t g + dt) g)).
Proof.
  apply (moved_of_step p [] dt); [apply step_tick|].
  intros r [|r' k'] Hne; [contradiction|].
  unfold call. cbn [fst]. apply grids_insert_ne, below_ne.
Qed.

Lemma moved_when (p : Path) (cond : bool) (h : Run -> Run) :
  moved lev p (at_root 0) h -> moved lev p (at_root 0) (when cond h).
Proof.
  intros H. unfold when. destruct cond; [exact H|].
  apply (moved_weaken p (fun _ => None)); [apply moved_id|].
  intros [|r' k']; cbn; auto.
Qed.

Lemma moved_coalesce (p : Path) (reg : nat) :
  moved lev p (at_root 0) (coalesce_op vs p reg).
Proof.
  apply (moved_of_step p [(p, OpCoalesce reg)] 0); [apply step_coalesce|].
  intros r [|r' k'] Hne; [contradiction|].
  unfold coalesce_op. cbn [fst]. apply grids_insert_ne, below_ne.
Qed.

Lemma moved_coalesce_loop (p : Path) (l : list nat) :
  moved lev p (at_root 0) (for_each l (coalesce_op vs p)).
Proof.
  induction l as [|reg l IH].
  - apply (moved_weaken p (fun _ => None)); [apply moved_id|].
    intros [|r' k']; cbn; auto.
  - apply (moved_ext p _ _ _ _ (moved_seq p _ _ _ _ (moved_coalesce p reg) IH));
      [|reflexivity].
    intros [|r' k']; reflexivity.
Qed.

Lemma moved_explode (p : Path) (reg : nat) :
  moved lev p (at_child reg (at_root 0)) (explode_op vs p reg).
Proof.
  intros r Hlev. destruct (step_explode vs lev p reg r Hlev) as (_ & L & _).
  split; [exact L|]. unfold explode_op. cbn [fst].
  intros [|r' k']; cbn [at_child].
  - apply grids_insert_ne. rewrite app_nil_r. intros E. symmetry in E.
    now apply (below_ne p reg []) in E.
  - destruct (Nat.eqb_spec r' reg) as [->|Hne].
    + destruct k' as [|r'' k'']; cbn [at_root].
      * rewrite grids_insert.
        destruct (LBM_explode_keeps vs (fst r p) (fst r (p ++ [reg]))) as [_ ->]. lia.
      * apply grids_insert_ne. intros E. apply app_inv_head in E. discriminate.
    + apply grids_insert_ne. intros E. apply app_inv_head in E. congruence.
Qed.

(** A call on a child, seen from its parent. *)
Lemma moved_child (p : Path) (reg : nat) (D : Path -> option Z) (es : list Event)
  (dt : Z) (h : Run -> Run) :
  moved lev (p ++ [reg]) D h -> step lev (p ++ [reg]) es dt h ->
  moved lev p (at_child reg D) h.
Proof.
  intros H Hs r Hlev. destruct (H r Hlev) as [L M].
  destruct (Hs r Hlev) as (_ & _ & _ & F).
  split; [exact L|]. intros [|r' k']; cbn [at_child].
  - rewrite app_nil_r. apply F. intros k. apply path_not_below.
  - destruct (Nat.eqb_spec r' reg) as [->|Hne].
    + specialize (M k'). rewrite <- app_assoc in M. exact M.
    + apply F. intros k E. rewrite <- app_assoc in E.
      apply app_inv_head in E. cbn in E. congruence.
Qed.

Lemma moved_lower_levels (p : Path) (call_ : GridTree -> Path -> Run -> Run)
  (Dc : GridTree -> Path -> Path -> option Z) (l : list GridTree) (reg0 : nat) :
  Forall (fun child => forall q,
            moved lev q (Dc child q) (call_ child q)
            /\ exists es dt, step lev q es dt (call_ child q)) l ->
  moved lev p (lower_moves Dc p reg0 l) (lower_levels vs call_ p reg0 l).
Proof.
  revert reg0. induction l as [|child l IH]; intros reg0 Hl.
  - apply (moved_ext p (fun _ => None) _ (fun r => r)); [apply moved_id| |reflexivity].
    intros [|r' k']; cbn [lower_moves]; [reflexivity|].
    destruct (reg0 <=? r')%nat; reflexivity.
  - apply Forall_cons in Hl as [Hc Hl].
    destruct (Hc (p ++ [reg0])) as (Hm & es & dt & Hs).
    apply (moved_ext p _ _ _ _
             (moved_seq p _ _ _ _ (moved_explode p reg0)
                (moved_seq p _ _ _ _ (moved_child p reg0 _ es dt _ Hm Hs)
                   (IH (S reg0) Hl)))); [|reflexivity].
    intros [|r' k']; [reflexivity|]. cbn [at_child lower_moves].
    destruct (Nat.eqb_spec r' reg0) as [->|Hne].
    + rewrite Nat.leb_refl, Nat.sub_diag. cbn [lookup list_lookup].
      replace (S reg0 <=? reg0)%nat with false by (symmetry; apply Nat.leb_gt; lia).
      destruct (at_root 0 k'), (Dc child (p ++ [reg0]) k'); reflexivity.
    + destruct (Nat.leb_spec reg0 r') as [Hle|Hgt].
      * replace (S reg0 <=? r')%nat with true by (symmetry; apply Nat.leb_le; lia).
        replace (r' - reg0)%nat with (S (r' - S reg0)) by lia.
        reflexivity.
      * replace (S reg0 <=? r')%nat with false by (symmetry; apply Nat.leb_gt; lia).
        reflexivity.
Qed.

End Moves.

Section DriverMoves.

Variable vs : VelSet.
Variable cfg : Config.
Variable ext : External.
Variable lev : Path -> Z.

Hypothesis ext_ok : External_ok ext.

Lemma moved_stream_with_bcs (p : Path) :
  moved lev p (at_root 0) (stream_with_bcs vs cfg ext p).
Proof.
  unfold stream_with_bcs.
  apply (moved_ext lev p _ _ _ _
           (moved_seq lev p _ _ _ _
              (moved_when lev p
                 ((INLET_ON cfg || OUTLET_ON cfg)
                  && (negb (INLET_DO_NOTHING cfg) && negb (INLET_REGULARISED cfg)))
                 _ (moved_call lev p _ (boundary_keeps ext ext_ok 2)))
              (moved_seq lev p _ _ _ _
                 (moved_when lev p (SOLID_BLOCK_ON cfg || WALLS_ON cfg) _
                    (moved_call lev p _ (boundary_keeps ext ext_ok 1)))
                 (moved_seq lev p _ _ _ _
                    (moved_kernel_op lev p OpStream _ (LBM_stream_keeps vs cfg ext))
                    (moved_when lev p (BFL_ON cfg) _
                       (moved_call lev p _ (boundary_keeps ext ext_ok 5)))))));
    [|reflexivity].
  intros [|r' k']; reflexivity.
Qed.

Lemma moved_kernel_body (p : Path) (regions : nat) (Dl : Path -> option Z)
  (lower : Run -> Run) :
  moved lev p Dl lower -> Dl [] = None ->
  moved lev p
    (fun k => match k with
              | [] => Some 0
              | _ => if lev p <? NumLev cfg then Dl k else None
              end)
    (kernel_body vs cfg ext p regions lower).
Proof.
  intros Hlower Hnil.
  pose (before := fun r : Run =>
    kernel_op p OpCollide (LBM_collide vs cfg)
      (call p (LBM_forcegrid vs cfg false)
         (when (INLET_ON cfg && INLET_REGULARISED cfg && negb (INLET_DO_NOTHING cfg))
            (call p (LBM_boundary ext 2)) r))).
  assert (Mbefore : moved lev p (at_root 0) before).
  { apply (moved_ext lev p _ _ _ _
             (moved_seq lev p _ _ _ _
                (moved_when lev p
                   (INLET_ON cfg && INLET_REGULARISED cfg && negb (INLET_DO_NOTHING cfg))
                   _ (moved_call lev p _ (boundary_keeps ext ext_ok 2)))
                (moved_seq lev p _ _ _ _
                   (moved_call lev p _ (LBM_forcegrid_keeps vs cfg false))
                   (moved_kernel_op lev p OpCollide _ (LBM_collide_keeps vs cfg)))));
      [|reflexivity].
    intros [|r' k']; reflexivity. }
  pose (after := fun r : Run =>
    kernel_op p OpMacro (LBM_macro vs)
      (when (OUTLET_ON cfg) (call p (LBM_boundary ext 3)) r)).
  assert (Mafter : moved lev p (at_root 0) after).
  { apply (moved_ext lev p _ _ _ _
             (moved_seq lev p _ _ _ _
                (moved_when lev p (OUTLET_ON cfg) _
                   (moved_call lev p _ (boundary_keeps ext ext_ok 3)))
                (moved_kernel_op lev p OpMacro _ (LBM_macro_keeps vs))));
      [|reflexivity].
    intros [|r' k']; reflexivity. }
  destruct (lev p <? NumLev cfg) eqn:Elev.
  - apply (moved_ext lev p _ _ _ _
             (moved_seq lev p _ _ _ _ Mbefore
                (moved_seq lev p _ _ _ _ Hlower
                   (moved_seq lev p _ _ _ _ (moved_stream_with_bcs p)
                      (moved_seq lev p _ _ _ _
                         (moved_coalesce_loop vs lev p (seq 0 regions)) Mafter))))).
    + intros [|r' k']; cbn [at_root oadd]; [now rewrite Hnil|].
      destruct (Dl (r' :: k')); reflexivity.
    + intros r Hlev. cbv beta. unfold kernel_body.
      destruct (Mbefore r Hlev) as [L _].
      fold (before r). rewrite (L p), Elev. reflexivity.
  - apply (moved_ext lev p _ _ _ _
             (moved_seq lev p _ _ _ _ Mbefore
                (moved_seq lev p _ _ _ _ (moved_stream_with_bcs p) Mafter))).
    + intros [|r' k']; reflexivity.
    + intros r Hlev. cbv beta. unfold kernel_body.
      destruct (Mbefore r Hlev) as [L _].
      fold (before r). rewrite (L p), Elev. reflexivity.
Qed.

Lemma moved_kernel_loop (p : Path) (Db : Path -> option Z) (body : Run -> Run) :
  moved lev p Db body -> Db [] = Some 0 ->
  moved lev p
    (fun k => match k with
              | [] => Some (if lev p =? 0 then 1 else 2)
              | _ => if lev p =? 0 then Db k else oadd (Db k) (Db k)
              end)
    (kernel_loop 2 p body 1).
Proof.
  intros Hbody Hnil.
  pose (trip := fun r : Run => call p (fun g => set_t (t g + 1) g) (body r)).
  assert (Mtrip : moved lev p (fun k => match k with [] => Some 1 | _ => Db k end) trip).
  { apply (moved_ext lev p _ _ _ _
             (moved_seq lev p _ _ _ _ Hbody (moved_tick lev p 1))); [|reflexivity].
    intros [|r' k']; cbn [at_root oadd]; [now rewrite Hnil|].
    destruct (Db (r' :: k')); reflexivity. }
  destruct (lev p =? 0) eqn:Elev.
  - apply (moved_ext lev p _ _ _ _ Mtrip).
    + intros [|r' k']; reflexivity.
    + intros r Hlev. cbn [kernel_loop].
      destruct (Hbody r Hlev) as [L _]. rewrite (L p), Elev. reflexivity.
  - apply (moved_ext lev p _ _ _ _ (moved_seq lev p _ _ _ _ Mtrip Mtrip)).
    + intros [|r' k']; reflexivity.
    + intros r Hlev. cbv beta. cbn [kernel_loop].
      destruct (Hbody r Hlev) as [L _]. rewrite (L p), Elev.
      fold (trip r).
      destruct (Mtrip r Hlev) as [L1 _].
      destruct (Hbody (trip r) L1) as [L2 _]. rewrite (L2 p), Elev.
      reflexivity.
Qed.

Lemma moved_pre_kernel (p : Path) (IBM_flag : bool) :
  moved lev p (at_root 0) (pre_kernel vs cfg p IBM_flag).
Proof.
  intros r Hlev. unfold pre_kernel. destruct (IBM_ON cfg).
  - apply (moved_when lev p ((level (fst r p) =? 0) && IBM_flag) _
             (moved_call lev p _ (LBM_forcegrid_keeps vs cfg true)) r Hlev).
  - apply (moved_call lev p _ (LBM_forcegrid_keeps vs cfg true) r Hlev).
Qed.

Lemma ticks_nil (tr : GridTree) (p : Path) (flag : bool) :
  ticks cfg lev tr p flag [] = Some (if lev p =? 0 then 1 else 2).
Proof. destruct tr. reflexivity. Qed.

(** One call of the driver. *)
Lemma moved_LBM_multi (tr : GridTree) :
  forall (IBM_flag : bool) (p : Path),
    moved lev p (ticks cfg lev tr p IBM_flag) (LBM_multi vs cfg ext tr p IBM_flag).
Proof.
  induction tr as [subGrid IH] using GridTree_ind. intros IBM_flag p.
  pose (kernel := fun flag : bool =>
    kernel_loop 2 p
      (kernel_body vs cfg ext p (length subGrid)
         (lower_levels vs (fun child q => LBM_multi vs cfg ext child q flag) p 0 subGrid))
      1).
  pose (once := fun (flag : bool) (k : Path) =>
    match k with
    | [] => None
    | reg :: k' =>
        if lev p <? NumLev cfg then
          match subGrid !! reg with
          | Some child => ticks cfg lev child (p ++ [reg]) flag k'
          | None => None
          end
        else None
    end).
  assert (Mkernel : forall flag,
             moved lev p
               (fun k => match k with
                         | [] => Some (if lev p =? 0 then 1 else 2)
                         | _ => if lev p =? 0 then once flag k
                                else oadd (once flag k) (once flag k)
                         end)
               (kernel flag)).
  { intros flag.
    assert (Ml : moved lev p
                   (lower_moves (fun child q => ticks cfg lev child q flag) p 0 subGrid)
                   (lower_levels vs (fun child q => LBM_multi vs cfg ext child q flag)
                      p 0 subGrid)).
    { apply moved_lower_levels.
      eapply Forall_impl; [exact IH|].
      intros child Hc q. split; [apply Hc|].
      eexists. eexists. apply (step_LBM_multi vs cfg ext lev ext_ok). }
    assert (Mb := moved_kernel_body p (length subGrid) _ _ Ml eq_refl).
    assert (Mk := moved_kernel_loop p _ _ Mb eq_refl).
    apply (moved_ext lev p _ _ _ _ Mk); [|reflexivity].
    intros [|reg k']; [reflexivity|]. unfold once. cbn [lower_moves Nat.leb].
    rewrite Nat.sub_0_r.
    destruct (lev p <? NumLev cfg); [|destruct (lev p =? 0); reflexivity].
    destruct (subGrid !! reg) as [child|]; [|destruct (lev p =? 0); reflexivity].
    assert (E : oadd (at_root 0 k') (ticks cfg lev child (p ++ [reg]) flag k')
                = ticks cfg lev child (p ++ [reg]) flag k').
    { destruct k' as [|r'' k'']; [|reflexivity].
      rewrite ticks_nil. cbn. reflexivity. }
    rewrite E. reflexivity. }
  pose (communicate := when (BUILD_FOR_MPI cfg) (call p (mpi_communicate ext))).
  assert (Mcomm : moved lev p (at_root 0) communicate).
  { apply moved_when, moved_call, mpi_keeps, ext_ok. }
  pose (first := fun r => kernel IBM_flag (pre_kernel vs cfg p IBM_flag r)).
  assert (Mfirst := moved_seq lev p _ _ _ _ (moved_pre_kernel p IBM_flag)
                      (Mkernel IBM_flag)).
  fold first in Mfirst.
  assert (Et : forall k,
    ticks cfg lev (Node subGrid) p IBM_flag k
    = match k with
      | [] => Some (if lev p =? 0 then 1 else 2)
      | _ => if lev p =? 0
             then if IBM_ON cfg && IBM_flag
                  then oadd (once IBM_flag k) (once false k)
                  else once IBM_flag k
             else oadd (once IBM_flag k) (once IBM_flag k)
      end).
  { intros [|reg k']; [reflexivity|]. cbn [ticks]. unfold once.
    destruct (lev p <? NumLev cfg).
    - destruct (subGrid !! reg); [reflexivity|].
      destruct (lev p =? 0); [destruct (IBM_ON cfg && IBM_flag)|]; reflexivity.
    - destruct (lev p =? 0); [destruct (IBM_ON cfg && IBM_flag)|]; reflexivity. }
  intros r Hlev. cbn [LBM_multi]. fold (kernel IBM_flag) (kernel false) communicate.
  fold (first r).
  destruct (Mfirst r Hlev) as [L1 M1].
  rewrite (L1 p).
  destruct (lev p =? 0) eqn:Elev; cbn [andb].
  - destruct (IBM_ON cfg && IBM_flag) eqn:Eibm.
    + pose (corrector := fun r' : Run =>
        call p (ibm_move_bodies ext)
          (communicate
             (kernel false
                (pre_kernel vs cfg p false
                   (call p (fun g => set_t (t g - 1) g)
                      (call p (fun g => set_rho (rho (fst r p))
                                          (set_u (u (fst r p)) (set_f (f (fst r p)) g)))
                         (call p (ibm_apply ext)
                            (call p (LBM_forcegrid vs cfg true) r')))))))).
      assert (Mcorr : moved lev p
                        (fun k => match k with [] => Some 0 | _ => once false k end)
                        corrector).
      { assert (Mk := Mkernel false).
        assert (Muntick : moved lev p (at_root (-1))
                            (call p (fun g => set_t (t g - 1) g))).
        { apply (moved_ext lev p _ _ _ _ (moved_tick lev p (-1)));
            [reflexivity|reflexivity]. }
        apply (moved_ext lev p _ _ _ _
                 (moved_seq lev p _ _ _ _
                    (moved_call lev p _ (LBM_forcegrid_keeps vs cfg true))
                    (moved_seq lev p _ _ _ _
                       (moved_call lev p _ (ibm_apply_keeps ext ext_ok))
                       (moved_seq lev p _ _ _ _
                          (moved_call lev p
                             (fun g => set_rho (rho (fst r p))
                                         (set_u (u (fst r p)) (set_f (f (fst r p)) g)))
                             (fun g => conj eq_refl eq_refl))
                          (moved_seq lev p _ _ _ _ Muntick
                             (moved_seq lev p _ _ _ _ (moved_pre_kernel p false)
                                (moved_seq lev p _ _ _ _ Mk
                                   (moved_seq lev p _ _ _ _ Mcomm
                                      (moved_call lev p _
                                         (ibm_move_keeps ext ext_ok))))))))));
          [|reflexivity].
        intros [|reg k']; [reflexivity|]. cbn [at_root oadd].
        destruct (once false (reg :: k')); reflexivity. }
      destruct (moved_seq lev p _ _ _ _ Mcorr Mcomm (first r) L1) as [L2 M2].
      cbv beta in L2, M2.
      enough (Hfin :
        (forall q, level (fst (communicate (corrector (first r))) q) = lev q)
        /\ forall k,
             match ticks cfg lev (Node subGrid) p IBM_flag k with
             | None => fst (communicate (corrector (first r))) (p ++ k) = fst r (p ++ k)
             | Some d =>
                 t (fst (communicate (corrector (first r))) (p ++ k))
                 = t (fst r (p ++ k)) + d
             end) by exact Hfin.
      split; [exact L2|]. intros k. rewrite (Et k).
      specialize (M1 k). specialize (M2 k). cbv beta in M1.
      destruct k as [|reg k']; cbn [at_root oadd] in *.
      * lia.
      * destruct (once IBM_flag (reg :: k')) as [d1|],
                 (once false (reg :: k')) as [d2|]; cbn [oadd] in *.
        -- lia.
        -- rewrite M2. exact M1.
        -- rewrite M2, M1. reflexivity.
        -- rewrite M2. exact M1.
    + destruct (Mcomm _ L1) as [L2 M2].
      split; [exact L2|]. intros k. rewrite (Et k).
      specialize (M1 k). specialize (M2 k). cbv beta in M1.
      destruct k as [|reg k']; cbn [at_root oadd] in *.
      * lia.
      * destruct (once IBM_flag (reg :: k')) as [d1|]; rewrite M2; exact M1.
  - rewrite andb_false_r.
    destruct (Mcomm _ L1) as [L2 M2].
    split; [exact L2|]. intros k. rewrite (Et k).
    specialize (M1 k). specialize (M2 k). cbv beta in M1.
    destruct k as [|reg k']; cbn [at_root oadd] in *.
    * lia.
    * destruct (oadd (once IBM_flag (reg :: k')) (once IBM_flag (reg :: k')));
        rewrite M2; exact M1.
Qed.

End DriverMoves.

Lemma ticks_reaches (cfg : Config) (lev : Path -> Z) (IBM_flag : bool) (k : Path) :
  IBM_ON cfg && IBM_flag = false ->
  forall (tr : GridTree) (p : Path),
    reaches cfg lev tr p k ->
    ticks cfg lev tr p IBM_flag k
    = Some ((if lev p =? 0 then 1 else 2) * 2 ^ Z.of_nat (length k)).
Proof.
  intros Hibm. induction k as [|reg k' IH]; intros [subGrid] p Hr.
  - cbn [ticks length Z.of_nat]. f_equal. change (2 ^ 0) with 1. lia.
  - cbn [reaches] in Hr. destruct Hr as (Hlev & Hne & child & Hc & Hr).
    cbn [ticks]. rewrite Hc, Hibm.
    replace (lev p <? NumLev cfg) with true by (symmetry; apply Z.ltb_lt; lia).
    rewrite (IH child (p ++ [reg]) Hr).
    replace (lev (p ++ [reg]) =? 0) with false by (symmetry; apply Z.eqb_neq; lia).
    replace (Z.of_nat (length (reg :: k'))) with (Z.of_nat (length k') + 1)
      by (cbn [length]; lia).
    rewrite Z.pow_add_r by lia. change (2 ^ 1) with 2.
    destruct (lev p =? 0); cbn [oadd]; f_equal; lia.
Qed.





(** ** The time loop *)

Section TimeLoop.

Variable vs : VelSet.
Variable cfg : Config.
Variable ext : External.
Variable exchange : Z -> Z -> Grids -> Grids.
Variable MPI_dir : Z.
Variable tr : GridTree.
Variable lev : Path -> Z.

Hypothesis ext_ok : External_ok ext.
Hypothesis exch_ok : exchange_ok exchange.

Lemma step_mpi_exchange : step lev [] [] 0 (mpi_exchange exchange MPI_dir).
Proof.
  intros r Hlev. unfold mpi_exchange.
  apply (for_each_invariant _
           (fun s : Run =>
              snd s = snd r ++ []
              /\ (forall q, level (fst s q) = lev q)
              /\ t (fst s []) = t (fst r []) + 0
              /\ forall q, (forall k, q <> [] ++ k) -> fst s q = fst r q)).
  - intros dir s _ (E & L & Ht & F). cbn [fst snd].
    split; [exact E|]. split; [|split].
    + intros q. destruct (exch_ok dir (opp_dir dir) (fst s) q) as [-> _]. apply L.
    + destruct (exch_ok dir (opp_dir dir) (fst s) []) as [_ ->]. exact Ht.
    + intros q Hq. exfalso. now apply (Hq q).
  - rewrite app_nil_r, Z.add_0_r. auto.
Qed.

Lemma step_time_step :
  lev [] = 0 ->
  step lev [] (call_trace cfg lev (IBM_ON cfg) tr []) 1
    (time_step vs cfg ext exchange MPI_dir tr).
Proof.
  intros Hroot.
  assert (S1 := step_LBM_multi vs cfg ext lev ext_ok tr (IBM_ON cfg) []).
  rewrite Hroot in S1. cbn [Z.eqb] in S1.
  assert (S2 : step lev [] [] 0 (when (BUILD_FOR_MPI cfg) (mpi_exchange exchange MPI_dir))).
  { apply step_when, step_mpi_exchange. }
  eapply step_eq;
    [exact (step_seq lev [] _ _ _ _ _ _ S1 S2)
    |apply app_nil_r|reflexivity|reflexivity].
Qed.

Lemma time_loop_spec (T : Z) (fuel : nat) :
  lev [] = 0 ->
  forall r : Run,
    (forall q, level (fst r q) = lev q) ->
    (Z.to_nat (Z.max 1 (T - t (fst r []))) <= fuel)%nat ->
    exists r',
      time_loop vs cfg ext exchange MPI_dir tr T fuel r = Some r'
      /\ t (fst r' []) = Z.max (t (fst r []) + 1) T
      /\ snd r'
         = snd r
           ++ concat (repeat (call_trace cfg lev (IBM_ON cfg) tr [])
                        (Z.to_nat (Z.max 1 (T - t (fst r []))))).
Proof.
  intros Hroot. induction fuel as [|fuel IH]; intros r Hlev Hfuel; [lia|].
  cbn [time_loop].
  destruct (step_time_step Hroot r Hlev) as (E & L & Ht & _).
  set (r1 := time_step vs cfg ext exchange MPI_dir tr r) in *.
  destruct (Z.ltb_spec (t (fst r1 [])) T) as [Hlt|Hge].
  - destruct (IH r1 L) as (r' & E' & Ht' & Es'); [lia|].
    exists r'. split; [exact E'|]. split; [lia|].
    rewrite Es', E, <- app_assoc. f_equal.
    replace (Z.to_nat (Z.max 1 (T - t (fst r []))))
      with (S (Z.to_nat (Z.max 1 (T - t (fst r1 []))))) by lia.
    reflexivity.
  - exists r1. split; [reflexivity|]. split; [lia|].
    replace (Z.to_nat (Z.max 1 (T - t (fst r [])))) with 1%nat by lia.
    cbn [repeat concat]. now rewrite app_nil_r.
Qed.

End TimeLoop.



(** X23. The directions of the exchange come in pairs [2n], [2n + 1]:
    the direction a rank receives from is another direction, receiving
    from that one is sending in the first, and it is a direction of the
    topology when their number is even. *)
Theorem opp_dir_pairs (MPI_dir dir : Z) :
  0 <= dir < MPI_dir -> Z.rem MPI_dir 2 = 0 ->
  opp_dir (opp_dir dir) = dir
  /\ opp_dir dir <> dir
  /\ 0 <= opp_dir dir < MPI_dir
  /\ Z.min dir (opp_dir dir) = 2 * (dir / 2)
  /\ Z.max dir (opp_dir dir) = 2 * (dir / 2) + 1.
Proof.
  intros Hdir Heven. unfold opp_dir.
  assert (Em : Z.rem MPI_dir 2 = MPI_dir mod 2) by (apply Z.rem_mod_nonneg; lia).
  assert (Ed : Z.rem (dir + 2) 2 = dir mod 2).
  { rewrite Z.rem_mod_nonneg by lia.
    replace (dir + 2) with (dir + 1 * 2) by lia. apply Z.mod_add. lia. }
  rewrite Ed.
  assert (Hm := Z.mod_pos_bound dir 2 ltac:(lia)).
  assert (Hd := Z.div_mod dir 2 ltac:(lia)).
  assert (HM := Z.div_mod MPI_dir 2 ltac:(lia)).
  destruct (Z.eqb_spec (dir mod 2) 0) as [E0|E1].
  - assert (Ed1 : Z.rem (dir + 1 + 2) 2 = 1).
    { rewrite Z.rem_mod_nonneg by lia.
      replace (dir + 1 + 2) with (1 + (dir / 2 + 1) * 2) by lia.
      rewrite Z.mod_add by lia. reflexivity. }
    rewrite Ed1. cbn [Z.eqb]. lia.
  - assert (Ed1 : Z.rem (dir - 1 + 2) 2 = 0).
    { rewrite Z.rem_mod_nonneg by lia.
      replace (dir - 1 + 2) with (0 + (dir / 2 + 1) * 2) by lia.
      rewrite Z.mod_add by lia. reflexivity. }
    rewrite Ed1. cbn [Z.eqb]. lia.
Qed.

Lemma opp_dir_pairs_witness :
  opp_dir (opp_dir 3) = 3
  /\ opp_dir 3 <> 3
  /\ 0 <= opp_dir 3 < 6
  /\ Z.min 3 (opp_dir 3) = 2 * (3 / 2)
  /\ Z.max 3 (opp_dir 3) = 2 * (3 / 2) + 1.
Proof.
  apply (opp_dir_pairs 6 3); [lia|reflexivity].
Defined.

(** ** The balance of mass *)

Section Mass.

Variable vs : VelSet.
Variable sigma : Qc.

Hypothesis mom : VelSet_moments vs sigma.

(** The weighted sum of [c_v . u] over the directions vanishes. *)
Lemma weighted_first (u_ : nat -> Qc) :
  sum_upto (nVels vs)
    (fun v => (w vs v * sum_upto (dims vs) (fun a => (Z2Qc (c vs a v) * u_ a)%Qc))%Qc)
  = 0%Qc.
Proof.
  transitivity
    (sum_upto (nVels vs) (fun v =>
       sum_upto (dims vs) (fun a => (u_ a * (w vs v * Z2Qc (c vs a v)))%Qc))).
  { apply sum_upto_ext. intros v _. rewrite <- sum_upto_scale.
    apply sum_upto_ext. intros a _. ring. }
  rewrite sum_upto_swap. apply sum_upto_zero. intros a Ha.
  rewrite sum_upto_scale, (w_first vs sigma mom a Ha). ring.
Qed.

(** The weighted sum of [(c_va c_vb - cs^2 delta_ab) u_a u_b] is
    [(sigma - cs^2) u . u]. *)
Lemma weighted_second (u_ : nat -> Qc) :
  sum_upto (nVels vs)
    (fun v =>
       (w vs v
        * sum_upto (dims vs) (fun a =>
            sum_upto (dims vs) (fun b =>
              ((Z2Qc (c vs a v) * Z2Qc (c vs b v)
                - (if (a =? b)%nat then cs vs ^ 2 else 0)) * u_ a * u_ b)%Qc)))%Qc)
  = ((sigma - cs vs ^ 2) * speed2 vs u_)%Qc.
Proof.
  transitivity
    (sum_upto (nVels vs) (fun v =>
       sum_upto (dims vs) (fun a =>
         sum_upto (dims vs) (fun b =>
           (w vs v * ((Z2Qc (c vs a v) * Z2Qc (c vs b v)
                       - (if (a =? b)%nat then cs vs ^ 2 else 0)) * u_ a * u_ b))%Qc)))).
  { apply sum_upto_ext. intros v _. rewrite <- sum_upto_scale.
    apply sum_upto_ext. intros a _. rewrite <- sum_upto_scale. reflexivity. }
  rewrite sum_upto_swap. unfold speed2. rewrite <- sum_upto_scale.
  apply sum_upto_ext. intros a Ha.
  rewrite sum_upto_swap.
  transitivity
    (sum_upto (dims vs) (fun b =>
       ((if (a =? b)%nat then 1%Qc else 0%Qc)
        * ((sigma - cs vs ^ 2) * (u_ a * u_ b)))%Qc)).
  - apply sum_upto_ext. intros b Hb.
    transitivity
      (sum_upto (nVels vs) (fun v =>
         ((u_ a * u_ b) * (w vs v * Z2Qc (c vs a v) * Z2Qc (c vs b v))
          + (- (u_ a * u_ b * (if (a =? b)%nat then cs vs ^ 2 else 0))) * w vs v)%Qc)).
    { apply sum_upto_ext. intros v _. ring. }
    rewrite sum_upto_plus, !sum_upto_scale.
    rewrite (w_second vs sigma mom a b Ha Hb), (w_sum vs sigma mom).
    destruct (a =? b)%nat; ring.
  - apply (sum_upto_pick (dims vs) a
             (fun b => if (a =? b)%nat then 1%Qc else 0%Qc)
             (fun b => ((sigma - cs vs ^ 2) * (u_ a * u_ b))%Qc)); [exact Ha|reflexivity].
Qed.

(** The equilibrium populations of a site add up to its density and an
    excess in proportion to [sigma - cs^2] and to the square of the
    speed. *)
Lemma feq_spec_mass (rho_ : Qc) (u_ : nat -> Qc) :
  sum_upto (nVels vs) (feq_spec vs rho_ u_)
  = (rho_ * (1 + (sigma - cs vs ^ 2) * speed2 vs u_ / (Z2Qc 2 * cs vs ^ 4)))%Qc.
Proof.
  unfold feq_spec.
  transitivity
    (sum_upto (nVels vs) (fun v =>
       (rho_ * w vs v
        + ((rho_ * / cs vs ^ 2)
           * (w vs v * sum_upto (dims vs) (fun a => (Z2Qc (c vs a v) * u_ a)%Qc))
           + (rho_ * / (Z2Qc 2 * cs vs ^ 4))
             * (w vs v
                * sum_upto (dims vs) (fun a =>
                    sum_upto (dims vs) (fun b =>
                      ((Z2Qc (c vs a v) * Z2Qc (c vs b v)
                        - (if (a =? b)%nat then cs vs ^ 2 else 0)) * u_ a * u_ b)%Qc)))))%Qc)).
  { apply sum_upto_ext. intros v _. unfold Qcdiv. ring. }
  rewrite sum_upto_plus, sum_upto_plus, !sum_upto_scale.
  rewrite weighted_first, weighted_second, (w_sum vs sigma mom).
  unfold Qcdiv. ring.
Qed.

Lemma speed2_rest (u_ : nat -> Qc) :
  (forall d, (d < dims vs)%nat -> u_ d = 0%Qc) -> speed2 vs u_ = 0%Qc.
Proof.
  intros H. apply sum_upto_zero. intros d Hd. rewrite (H d Hd). ring.
Qed.

(** Guo's bracket, weighted and summed over the directions, is
    [(sigma / cs^2 - 1) F . u]. *)
Lemma guo_sum_mass (g : GridObj) (x : Site) (F : nat -> Qc) :
  sum_upto (nVels vs) (fun v => (w vs v * guo_sum vs g x F v)%Qc)
  = ((sigma / cs vs ^ 2 - 1)
     * sum_upto (dims vs) (fun d => (F d * u g (x, d))%Qc))%Qc.
Proof.
  unfold guo_sum.
  transitivity
    (sum_upto (nVels vs) (fun v =>
       sum_upto (dims vs) (fun d =>
         (F d * (w vs v * Z2Qc (c vs d v)
                 + (- u g (x, d)) * w vs v
                 + (1 / cs vs ^ 2)
                   * (sum_upto (dims vs)
                        (fun a => (u g (x, a)
                                   * (w vs v * Z2Qc (c vs d v) * Z2Qc (c vs a v)))%Qc))))%Qc))).
  { apply sum_upto_ext. intros v _. rewrite <- sum_upto_scale.
    apply sum_upto_ext. intros d _.
    assert (E : sum_upto (dims vs)
                  (fun a => (u g (x, a) * (w vs v * Z2Qc (c vs d v) * Z2Qc (c vs a v)))%Qc)
                = sum_upto (dims vs)
                    (fun a => (w vs v * Z2Qc (c vs d v)
                               * (Z2Qc (c vs a v) * u g (x, a)))%Qc)).
    { apply sum_upto_ext. intros a _. ring. }
    rewrite E, sum_upto_scale. ring. }
  rewrite sum_upto_swap, <- sum_upto_scale.
  apply sum_upto_ext. intros d Hd.
  rewrite sum_upto_scale.
  rewrite sum_upto_plus, sum_upto_plus, !sum_upto_scale.
  rewrite (w_first vs sigma mom d Hd), (w_sum vs sigma mom).
  rewrite sum_upto_swap.
  assert (E : sum_upto (dims vs) (fun a =>
                sum_upto (nVels vs) (fun v =>
                  (u g (x, a) * (w vs v * Z2Qc (c vs d v) * Z2Qc (c vs a v)))%Qc))
              = (sigma * u g (x, d))%Qc).
  { transitivity
      (sum_upto (dims vs) (fun a =>
         ((if (d =? a)%nat then 1%Qc else 0%Qc) * (sigma * u g (x, a)))%Qc)).
    - apply sum_upto_ext. intros a Ha.
      rewrite sum_upto_scale, (w_second vs sigma mom d a Hd Ha).
      destruct (d =? a)%nat; ring.
    - apply (sum_upto_pick (dims vs) d
               (fun a => if (d =? a)%nat then 1%Qc else 0%Qc)
               (fun a => (sigma * u g (x, a))%Qc)); [exact Hd|reflexivity]. }
  rewrite E. unfold Qcdiv. ring.
Qed.

End Mass.

(** The BGK sweep. *)
Lemma LBM_collide_bgk (vs : VelSet) (cfg : Config) (g : GridObj) (x : Site) (v : nat) :
  USE_MRT cfg = false ->
  in_grid g x -> (v < nVels vs)%nat ->
  LatTyp g x <> CoveredByFiner -> LatTyp g x <> TransitionReceiveFromFiner ->
  f (LBM_collide vs cfg g) (x, v) = bgk_value vs g x v.
Proof.
  intros Hmrt Hx Hv H2 H3. rewrite LBM_collide_sweep. cbn zeta.
  apply (for_each_hit _ (collide_inv g)
           (fun s : CollideState => snd s (x, v)) (fun a => a = x)).
  - intros [[i j] k] s _. apply collide_site_inv.
  - intros [[i j] k] s _ Hs <-. now apply collide_site_hit.
  - intros [[i j] k] s _ _ Hne. apply collide_site_miss. congruence.
  - intros a _. destruct (decide (a = x)); auto.
  - exists (feq g). apply set_feq_self.
  - exists x. split; [|reflexivity]. now apply elem_of_sites.
Qed.

(** The equilibrium populations the code computes at a site add up to the
    density of the site and the excess. *)
Lemma LBM_collide_feq_mass (vs : VelSet) (sigma : Qc) (g : GridObj) (i j k : Z) :
  VelSet_moments vs sigma ->
  dims vs = 2%nat \/ dims vs = 3%nat ->
  sum_upto (nVels vs) (fun v => LBM_collide_feq vs g i j k v)
  = (rho g (i, j, k)
     * (1 + (sigma - cs vs ^ 2) * speed2 vs (fun d => u g (i, j, k, d))
            / (Z2Qc 2 * cs vs ^ 4)))%Qc.
Proof.
  intros Hmom Hd.
  rewrite (sum_upto_ext (nVels vs) _
             (feq_spec vs (rho g (i, j, k)) (fun d => u g (i, j, k, d)))).
  - now apply feq_spec_mass.
  - intros v _. now apply LBM_collide_feq_spec.
Qed.

(** The populations after the BGK sweep add up to
    [m - omega (m - sum of feq) + sum of the lattice forces]. *)
Lemma LBM_collide_mass (vs : VelSet) (cfg : Config) (g : GridObj) (i j k : Z) :
  USE_MRT cfg = false ->
  in_grid g (i, j, k) ->
  LatTyp g (i, j, k) <> CoveredByFiner ->
  LatTyp g (i, j, k) <> TransitionReceiveFromFiner ->
  sum_upto (nVels vs) (fun v => f (LBM_collide vs cfg g) (i, j, k, v))
  = (sum_upto (nVels vs) (fun v => f g (i, j, k, v))
     - omega g * (sum_upto (nVels vs) (fun v => f g (i, j, k, v))
                  - sum_upto (nVels vs) (fun v => LBM_collide_feq vs g i j k v))
     + sum_upto (nVels vs) (fun v => force_i g (i, j, k, v)))%Qc.
Proof.
  intros Hmrt Hx H2 H3.
  transitivity
    (sum_upto (nVels vs) (fun v =>
       ((1 - omega g) * f g (i, j, k, v)
        + (omega g * LBM_collide_feq vs g i j k v + force_i g (i, j, k, v)))%Qc)).
  - apply sum_upto_ext. intros v Hv.
    rewrite (LBM_collide_bgk vs cfg g (i, j, k) v) by assumption.
    unfold bgk_value. ring.
  - rewrite sum_upto_plus, sum_upto_plus, !sum_upto_scale.
    change (sum_upto (nVels vs) (LBM_collide_feq vs g i j k))
      with (sum_upto (nVels vs) (fun v => LBM_collide_feq vs g i j k v)).
    generalize (sum_upto (nVels vs) (fun v => LBM_collide_feq vs g i j k v)).
    generalize (sum_upto (nVels vs) (fun v => f g (i, j, k, v))).
    generalize (sum_upto (nVels vs) (fun v => force_i g (i, j, k, v))).
    intros a b e. ring.
Qed.

(** The weights of D2Q9: their second moment is 1/3. *)
Lemma D2Q9_moments : VelSet_moments D2Q9 (Q2Qc (1 # 3)).
Proof.
  split.
  - apply Qc_is_canon. reflexivity.
  - intros [|[|a]] Ha; [| |cbn in Ha; lia]; apply Qc_is_canon; reflexivity.
  - intros [|[|a]] [|[|b]] Ha Hb; try (cbn in Ha, Hb; lia);
      apply Qc_is_canon; reflexivity.
  - intros H. apply (f_equal this) in H. vm_compute in H. discriminate.
Qed.

(** The lattice forces of a site that is not solid and whose stored
    lattice forces were 0 add up, after the forcing, to
    [(1 - omega/2) / cs^2 * (sigma / cs^2 - 1) F . u]; those of a solid
    site to 0. *)
Lemma LBM_forcegrid_mass (vs : VelSet) (sigma : Qc) (cfg : Config) (g : GridObj)
  (x : Site) :
  VelSet_moments vs sigma ->
  in_grid g x ->
  (forall v, (v < nVels vs)%nat -> force_i g (x, v) = 0%Qc) ->
  let g' := LBM_forcegrid vs cfg false g in
  sum_upto (nVels vs) (fun v => force_i g' (x, v))
  = if decide (LatTyp g x = Solid) then 0%Qc
    else ((1 - half * omega g) / cs vs ^ 2 * (sigma / cs vs ^ 2 - 1)
          * sum_upto (dims vs) (fun d => (force_xyz g' (x, d) * u g (x, d))%Qc))%Qc.
Proof.
  intros Hmom Hx H0. cbn zeta.
  destruct (LBM_forcegrid_at vs cfg g x Hx) as (_ & H2 & H3). cbn zeta in H2, H3.
  destruct (decide (LatTyp g x = Solid)) as [Hs|Hns].
  - apply sum_upto_zero. intros v Hv. rewrite H3 by now left. now apply H0.
  - set (F := fun d => force_xyz (LBM_forcegrid vs cfg false g) (x, d)).
    transitivity
      (sum_upto (nVels vs) (fun v =>
         (((1 - half * omega g) * / cs vs ^ 2) * (w vs v * guo_sum vs g x F v))%Qc)).
    + apply sum_upto_ext. intros v Hv. rewrite (H2 v Hv Hns), (H0 v Hv).
      unfold guo_lambda, Qcdiv. fold F. ring.
    + rewrite sum_upto_scale, (guo_sum_mass vs sigma Hmom g x F).
      unfold F, Qcdiv. ring.
Qed.

(** X24. The mass of the equilibrium: on a velocity set whose weights sum
    to 1 and have vanishing first moments and second moments
    [sigma delta_ab] (for D2Q9, [sigma] is 1/3), the equilibrium
    populations of a site add up to
    [rho (1 + (sigma - cs^2) (u . u) / (2 cs^4))]: to the density of the
    site when it is at rest, and with an excess in proportion to
    [sigma - cs^2] when it moves. *)
Theorem equilibrium_mass (vs : VelSet) (sigma : Qc) (g : GridObj) (i j k : Z) :
  VelSet_moments vs sigma ->
  dims vs = 2%nat \/ dims vs = 3%nat ->
  sum_upto (nVels vs) (fun v => LBM_collide_feq vs g i j k v)
  = (rho g (i, j, k)
     * (1 + (sigma - cs vs ^ 2) * speed2 vs (fun d => u g (i, j, k, d))
            / (Z2Qc 2 * cs vs ^ 4)))%Qc
  /\ ((forall d, (d < dims vs)%nat -> u g (i, j, k, d) = 0%Qc) ->
      sum_upto (nVels vs) (fun v => LBM_collide_feq vs g i j k v) = rho g (i, j, k)).
Proof.
  intros Hmom Hd.
  assert (E := LBM_collide_feq_mass vs sigma g i j k Hmom Hd).
  split; [exact E|]. intros Hu. rewrite E, speed2_rest by exact Hu.
  unfold Qcdiv. ring.
Qed.

Lemma equilibrium_mass_witness :
  sum_upto (nVels D2Q9) (fun v => LBM_collide_feq D2Q9 pushed_row 1 0 0 v)
  = (rho pushed_row (1, 0, 0)%Z
     * (1 + (Q2Qc (1 # 3) - cs D2Q9 ^ 2)
            * speed2 D2Q9 (fun d => u pushed_row ((1, 0, 0)%Z, d))
            / (Z2Qc 2 * cs D2Q9 ^ 4)))%Qc
  /\ sum_upto (nVels D2Q9) (fun v => LBM_collide_feq D2Q9 resting_row 1 0 0 v)
     = rho resting_row (1, 0, 0).
Proof.
  split.
  - refine (proj1 (equilibrium_mass D2Q9 (Q2Qc (1 # 3)) pushed_row 1 0 0 _ _)).
    + exact D2Q9_moments.
    + left. reflexivity.
  - refine (proj2 (equilibrium_mass D2Q9 (Q2Qc (1 # 3)) resting_row 1 0 0 _ _) _).
    + exact D2Q9_moments.
    + left. reflexivity.
    + reflexivity.
Defined.

(** X25. Mass in the BGK collision: at a site of the grid that collides,
    the populations after the sweep add up to
    [m - omega (m - rho (1 + (sigma - cs^2) (u . u) / (2 cs^4))) + sum of the lattice forces],
    [m] being the sum of the populations before.  At a site at rest, with
    the density the macroscopic sweep computed ([rho = m]) and lattice
    forces that add up to 0, the collision conserves the mass of the
    site. *)
Theorem collide_mass (vs : VelSet) (sigma : Qc) (cfg : Config) (g : GridObj) (x : Site) :
  VelSet_moments vs sigma ->
  dims vs = 2%nat \/ dims vs = 3%nat ->
  USE_MRT cfg = false ->
  in_grid g x ->
  LatTyp g x <> CoveredByFiner -> LatTyp g x <> TransitionReceiveFromFiner ->
  let m := sum_upto (nVels vs) (fun v => f g (x, v)) in
  let F := sum_upto (nVels vs) (fun v => force_i g (x, v)) in
  let m' := sum_upto (nVels vs) (fun v => f (LBM_collide vs cfg g) (x, v)) in
  m' = (m
        - omega g
          * (m - rho g x
                 * (1 + (sigma - cs vs ^ 2) * speed2 vs (fun d => u g (x, d))
                        / (Z2Qc 2 * cs vs ^ 4)))
        + F)%Qc
  /\ ((forall d, (d < dims vs)%nat -> u g (x, d) = 0%Qc) ->
      rho g x = m -> F = 0%Qc -> m' = m).
Proof.
  intros Hmom Hd Hmrt Hx H2 H3 m F m'.
  assert (E : m' = (m
                    - omega g
                      * (m - rho g x
                             * (1 + (sigma - cs vs ^ 2)
                                    * speed2 vs (fun d => u g (x, d))
                                    / (Z2Qc 2 * cs vs ^ 4)))
                    + F)%Qc).
  { unfold m', m, F. destruct x as [[i j] k].
    rewrite <- (LBM_collide_feq_mass vs sigma g i j k Hmom Hd).
    now apply LBM_collide_mass. }
  split; [exact E|]. intros Hu Hr HF.
  rewrite E, Hr, HF, speed2_rest by exact Hu. unfold Qcdiv. ring.
Qed.

Lemma collide_mass_witness :
  sum_upto (nVels D2Q9)
    (fun v => f (LBM_collide D2Q9 (plain_cfg 0) relaxing_row) ((1, 0, 0)%Z, v))
  = (sum_upto (nVels D2Q9) (fun v => f relaxing_row ((1, 0, 0)%Z, v))
     - omega relaxing_row
       * (sum_upto (nVels D2Q9) (fun v => f relaxing_row ((1, 0, 0)%Z, v))
          - rho relaxing_row (1, 0, 0)%Z
            * (1 + (Q2Qc (1 # 3) - cs D2Q9 ^ 2)
                   * speed2 D2Q9 (fun d => u relaxing_row ((1, 0, 0)%Z, d))
                   / (Z2Qc 2 * cs D2Q9 ^ 4)))
     + sum_upto (nVels D2Q9) (fun v => force_i relaxing_row ((1, 0, 0)%Z, v)))%Qc
  /\ sum_upto (nVels D2Q9)
       (fun v => f (LBM_collide D2Q9 (plain_cfg 0) resting_row) ((1, 0, 0)%Z, v))
     = sum_upto (nVels D2Q9) (fun v => f resting_row ((1, 0, 0)%Z, v)).
Proof.
  split.
  - refine (proj1 (collide_mass D2Q9 (Q2Qc (1 # 3)) (plain_cfg 0) relaxing_row
                     (1, 0, 0) _ _ _ _ _ _)).
    + exact D2Q9_moments.
    + left. reflexivity.
    + reflexivity.
    + cbn. lia.
    + discriminate.
    + discriminate.
  - refine (proj2 (collide_mass D2Q9 (Q2Qc (1 # 3)) (plain_cfg 0) resting_row
                     (1, 0, 0) _ _ _ _ _ _) _ _ _).
    + exact D2Q9_moments.
    + left. reflexivity.
    + reflexivity.
    + cbn. lia.
    + discriminate.
    + discriminate.
    + reflexivity.
    + apply Qc_is_canon. reflexivity.
    + apply Qc_is_canon. reflexivity.
Defined.

(** X26. The mass of Guo's forcing: on a velocity set with the moments
    above, at a site of the grid whose stored lattice forces are 0 (as
    after the reset), the lattice forces that the forcing computes add up
    over the directions to
    [(1 - omega/2) / cs^2 * (sigma / cs^2 - 1) * (F . u)] when the site is
    not solid, [F] being the Cartesian force with gravity, and to 0 when
    the site is solid or at rest. *)
Theorem forcing_mass (vs : VelSet) (sigma : Qc) (cfg : Config) (g : GridObj) (x : Site) :
  VelSet_moments vs sigma ->
  in_grid g x ->
  (forall v, (v < nVels vs)%nat -> force_i g (x, v) = 0%Qc) ->
  let g' := LBM_forcegrid vs cfg false g in
  (LatTyp g x <> Solid ->
   sum_upto (nVels vs) (fun v => force_i g' (x, v))
   = ((1 - half * omega g) / cs vs ^ 2 * (sigma / cs vs ^ 2 - 1)
      * sum_upto (dims vs) (fun d => (force_xyz g' (x, d) * u g (x, d))%Qc))%Qc)
  /\ (LatTyp g x = Solid \/ (forall d, (d < dims vs)%nat -> u g (x, d) = 0%Qc) ->
      sum_upto (nVels vs) (fun v => force_i g' (x, v)) = 0%Qc).
Proof.
  intros Hmom Hx H0. cbn zeta.
  assert (E := LBM_forcegrid_mass vs sigma cfg g x Hmom Hx H0). cbn zeta in E.
  destruct (decide (LatTyp g x = Solid)) as [Hs|Hns].
  - split; [contradiction|]. intros _. exact E.
  - split; [intros _; exact E|]. intros [Hs|Hu]; [contradiction|].
    rewrite E. rewrite (sum_upto_zero (dims vs)).
    + ring.
    + intros d Hd. rewrite (Hu d Hd). ring.
Qed.

Lemma forcing_mass_witness :
  sum_upto (nVels D2Q9)
    (fun v => force_i (LBM_forcegrid D2Q9 gravity_cfg false pushed_row) ((1, 0, 0)%Z, v))
  = ((1 - half * omega pushed_row) / cs D2Q9 ^ 2 * (Q2Qc (1 # 3) / cs D2Q9 ^ 2 - 1)
     * sum_upto (dims D2Q9)
         (fun d => (force_xyz (LBM_forcegrid D2Q9 gravity_cfg false pushed_row)
                      ((1, 0, 0)%Z, d)
                    * u pushed_row ((1, 0, 0)%Z, d))%Qc))%Qc
  /\ sum_upto (nVels D2Q9)
       (fun v => force_i (LBM_forcegrid D2Q9 gravity_cfg false resting_row)
                   ((1, 0, 0)%Z, v))
     = 0%Qc.
Proof.
  split.
  - refine (proj1 (forcing_mass D2Q9 (Q2Qc (1 # 3)) gravity_cfg pushed_row
                     (1, 0, 0) _ _ _) _).
    + exact D2Q9_moments.
    + cbn. lia.
    + reflexivity.
    + discriminate.
  - refine (proj2 (forcing_mass D2Q9 (Q2Qc (1 # 3)) gravity_cfg resting_row
                     (1, 0, 0) _ _ _) _).
    + exact D2Q9_moments.
    + cbn. lia.
    + reflexivity.
    + right. reflexivity.
Defined.

(** X27. Forcing and collision together: in a BGK build, at a site of the
    grid that collides, whose density is the sum [m] of its populations
    (as after the macroscopic sweep) and whose lattice forces were reset,
    the populations after the forcing and the collision add up to [m]
    when the site is at rest, and when it moves and is not solid to
    [m + omega m (sigma - cs^2) (u . u) / (2 cs^4)
       + (1 - omega/2) / cs^2 * (sigma / cs^2 - 1) * (F . u)],
    [F] being the Cartesian force with gravity. *)
Theorem forced_collision_mass (vs : VelSet) (sigma : Qc) (cfg : Config) (g : GridObj)
  (x : Site) :
  VelSet_moments vs sigma ->
  dims vs = 2%nat \/ dims vs = 3%nat ->
  USE_MRT cfg = false ->
  in_grid g x ->
  LatTyp g x <> CoveredByFiner -> LatTyp g x <> TransitionReceiveFromFiner ->
  rho g x = sum_upto (nVels vs) (fun v => f g (x, v)) ->
  (forall v, (v < nVels vs)%nat -> force_i g (x, v) = 0%Qc) ->
  let m := sum_upto (nVels vs) (fun v => f g (x, v)) in
  let g1 := LBM_forcegrid vs cfg false g in
  let m' := sum_upto (nVels vs) (fun v => f (LBM_collide vs cfg g1) (x, v)) in
  ((forall d, (d < dims vs)%nat -> u g (x, d) = 0%Qc) -> m' = m)
  /\ (LatTyp g x <> Solid ->
      m' = (m
            + omega g * m * (sigma - cs vs ^ 2) * speed2 vs (fun d => u g (x, d))
              / (Z2Qc 2 * cs vs ^ 4)
            + (1 - half * omega g) / cs vs ^ 2 * (sigma / cs vs ^ 2 - 1)
              * sum_upto (dims vs) (fun d => (force_xyz g1 (x, d) * u g (x, d))%Qc))%Qc).
Proof.
  intros Hmom Hd Hmrt Hx H2 H3 Hrho H0 m g1 m'.
  assert (HF := LBM_forcegrid_mass vs sigma cfg g x Hmom Hx H0).
  cbn zeta in HF. fold g1 in HF.
  destruct (LBM_forcegrid_form vs cfg g) as (fi & fx & E). fold g1 in E.
  assert (Ef : f g1 = f g) by now rewrite E.
  assert (Er : rho g1 = rho g) by now rewrite E.
  assert (Eu : u g1 = u g) by now rewrite E.
  assert (Et : LatTyp g1 = LatTyp g) by now rewrite E.
  assert (Eo : omega g1 = omega g) by now rewrite E.
  assert (Hx1 : in_grid g1 x) by (rewrite E; exact Hx).
  assert (Em : m' = (m - omega g
                         * (m - m * (1 + (sigma - cs vs ^ 2)
                                         * speed2 vs (fun d => u g (x, d))
                                         / (Z2Qc 2 * cs vs ^ 4)))
                     + sum_upto (nVels vs) (fun v => force_i g1 (x, v)))%Qc).
  { unfold m', m. destruct x as [[i j] k].
    rewrite (LBM_collide_mass vs cfg g1 i j k Hmrt Hx1)
      by (rewrite Et; assumption).
    rewrite (LBM_collide_feq_mass vs sigma g1 i j k Hmom Hd).
    rewrite Ef, Er, Eu, Eo, Hrho. reflexivity. }
  split.
  - intros Hu. rewrite Em, HF, speed2_rest by exact Hu.
    rewrite (sum_upto_zero (dims vs)
               (fun d => (force_xyz g1 (x, d) * u g (x, d))%Qc))
      by (intros d Hlt; rewrite (Hu d Hlt); ring).
    destruct (decide _); unfold Qcdiv; ring.
  - intros Hns. rewrite Em, HF.
    destruct (decide _) as [Hs|_]; [contradiction|].
    unfold Qcdiv. ring.
Qed.

Lemma forced_collision_mass_witness :
  sum_upto (nVels D2Q9)
    (fun v => f (LBM_collide D2Q9 gravity_cfg
                   (LBM_forcegrid D2Q9 gravity_cfg false resting_row))
                ((1, 0, 0)%Z, v))
  = sum_upto (nVels D2Q9) (fun v => f resting_row ((1, 0, 0)%Z, v))
  /\ sum_upto (nVels D2Q9)
       (fun v => f (LBM_collide D2Q9 gravity_cfg
                      (LBM_forcegrid D2Q9 gravity_cfg false pushed_row))
                   ((1, 0, 0)%Z, v))
     = (sum_upto (nVels D2Q9) (fun v => f pushed_row ((1, 0, 0)%Z, v))
        + omega pushed_row
          * sum_upto (nVels D2Q9) (fun v => f pushed_row ((1, 0, 0)%Z, v))
          * (Q2Qc (1 # 3) - cs D2Q9 ^ 2)
          * speed2 D2Q9 (fun d => u pushed_row ((1, 0, 0)%Z, d))
          / (Z2Qc 2 * cs D2Q9 ^ 4)
        + (1 - half * omega pushed_row) / cs D2Q9 ^ 2
          * (Q2Qc (1 # 3) / cs D2Q9 ^ 2 - 1)
          * sum_upto (dims D2Q9)
              (fun d => (force_xyz (LBM_forcegrid D2Q9 gravity_cfg false pushed_row)
                           ((1, 0, 0)%Z, d)
                         * u pushed_row ((1, 0, 0)%Z, d))%Qc))%Qc.
Proof.
  split.
  - refine (proj1 (forced_collision_mass D2Q9 (Q2Qc (1 # 3)) gravity_cfg resting_row
                     (1, 0, 0) _ _ _ _ _ _ _ _) _).
    + exact D2Q9_moments.
    + left. reflexivity.
    + reflexivity.
    + cbn. lia.
    + discriminate.
    + discriminate.
    + apply Qc_is_canon. reflexivity.
    + reflexivity.
    + reflexivity.
  - refine (proj2 (forced_collision_mass D2Q9 (Q2Qc (1 # 3)) gravity_cfg pushed_row
                     (1, 0, 0) _ _ _ _ _ _ _ _) _).
    + exact D2Q9_moments.
    + left. reflexivity.
    + reflexivity.
    + cbn. lia.
    + discriminate.
    + discriminate.
    + apply Qc_is_canon. reflexivity.
    + reflexivity.
    + discriminate.
Defined.

(** ** Bodies of markers *)

Lemma primary_support_eq (m : Marker) (v0 v1 v2 : Z) :
  primary_support m = Some (v0, v1, v2)
  <-> supp_i m !! 0%nat = Some v0 /\ supp_j m !! 0%nat = Some v1
      /\ supp_k m !! 0%nat = Some v2.
Proof.
  unfold primary_support.
  destruct (supp_i m !! 0%nat) as [si|]; [|cbn; split; [discriminate|intros (E & _); discriminate]].
  destruct (supp_j m !! 0%nat) as [sj|];
    [|cbn; split; [discriminate|intros (_ & E & _); discriminate]].
  destruct (supp_k m !! 0%nat) as [sk|];
    [|cbn; split; [discriminate|intros (_ & _ & E); discriminate]].
  cbn. split.
  - intros E. simplify_eq. auto.
  - intros (E1 & E2 & E3). simplify_eq. reflexivity.
Qed.

(** One trip of the search: it stops at a marker whose primary support
    is the voxel, and goes on otherwise. *)
Lemma find_marker_cons (vox : Z * Z * Z) (i0 : Z) (m : Marker) (rest : list Marker)
  (data : MarkerData) :
  find_marker vox i0 (m :: rest) = Some data ->
  (primary_support m = Some vox
   /\ exists x y z, position m !! 0%nat = Some x /\ position m !! 1%nat = Some y
                    /\ position m !! 2%nat = Some z
                    /\ data = MarkerData_at (fst (fst vox)) (snd (fst vox)) (snd vox)
                               x y z i0)
  \/ (primary_support m <> Some vox /\ find_marker vox (i0 + 1) rest = Some data).
Proof.
  destruct vox as [[v0 v1] v2]. cbn [find_marker fst snd].
  rewrite primary_support_eq.
  destruct (supp_i m !! 0%nat) as [si|]; [|discriminate]. simpl.
  destruct (Z.eqb_spec si v0) as [->|Hi].
  2:{ intros E. right. split; [|exact E]. intros (A & _). congruence. }
  destruct (supp_j m !! 0%nat) as [sj|]; [|discriminate]. simpl.
  destruct (Z.eqb_spec sj v1) as [->|Hj].
  2:{ intros E. right. split; [|exact E]. intros (_ & A & _). congruence. }
  destruct (supp_k m !! 0%nat) as [sk|]; [|discriminate]. simpl.
  destruct (Z.eqb_spec sk v2) as [->|Hk].
  2:{ intros E. right. split; [|exact E]. intros (_ & _ & A). congruence. }
  destruct (position m !! 0%nat) as [px|]; [|discriminate].
  destruct (position m !! 1%nat) as [py|]; [|discriminate].
  destruct (position m !! 2%nat) as [pz|]; [|discriminate].
  simpl. intros E. simplify_eq. left. split; [auto|].
  exists px, py, pz. auto.
Qed.

(** The search of [getMarkerData]: what it returns is the first marker
    whose primary support is the voxel. *)
Lemma find_marker_found (vox : Z * Z * Z) (markers : list Marker) :
  forall (i0 : Z) (i j k : Z) (x y z : Qc) (id : Z),
    find_marker vox i0 markers = Some (MarkerData_at i j k x y z id) ->
    (i, j, k) = vox
    /\ exists (n : nat) (m : Marker),
         id = i0 + Z.of_nat n
         /\ markers !! n = Some m
         /\ primary_support m = Some vox
         /\ position m !! 0%nat = Some x /\ position m !! 1%nat = Some y
         /\ position m !! 2%nat = Some z
         /\ forall n' m', (n' < n)%nat -> markers !! n' = Some m' ->
              primary_support m' <> Some vox.
Proof.
  induction markers as [|m rest IH]; intros i0 i j k x y z id E; [discriminate|].
  apply find_marker_cons in E
    as [(Hp & px & py & pz & P0 & P1 & P2 & E)|(Hm & E)].
  - destruct vox as [[v0 v1] v2]. cbn [fst snd] in E. inversion E; subst.
    split; [reflexivity|].
    exists 0%nat, m. split; [lia|]. split; [reflexivity|]. split; [exact Hp|].
    split; [exact P0|]. split; [exact P1|]. split; [exact P2|].
    intros n' m' Hlt. lia.
  - destruct (IH _ _ _ _ _ _ _ _ E) as (Ev & n & m0 & Eid & Hn & Hp & P0 & P1 & P2 & Hb).
    split; [exact Ev|]. exists (S n), m0.
    split; [lia|]. split; [exact Hn|]. split; [exact Hp|].
    split; [exact P0|]. split; [exact P1|]. split; [exact P2|].
    intros [|n'] m' Hlt Hm'.
    + cbn in Hm'. simplify_eq. exact Hm.
    + apply (Hb n' m'); [lia|exact Hm'].
Qed.

Lemma find_marker_invalid (vox : Z * Z * Z) (markers : list Marker) :
  forall i0 : Z,
    find_marker vox i0 markers = Some MarkerData_invalid ->
    forall m, m ∈ markers -> primary_support m <> Some vox.
Proof.
  induction markers as [|m rest IH]; intros i0 E m0 Hm0.
  - now apply elem_of_nil in Hm0.
  - apply find_marker_cons in E as [(_ & px & py & pz & _ & _ & _ & E)|(Hm & E)];
      [discriminate|].
    apply elem_of_cons in Hm0 as [->|Hin]; [exact Hm|].
    now apply (IH (i0 + 1) E).
Qed.

(** What [getMarkerData] returns. *)
Lemma getMarkerData_aux
  (isOnThisRank : Qc -> Qc -> Qc -> option (Z * Z * Z)) (markers : list Marker)
  (x y z : Qc) (data : MarkerData) :
  getMarkerData isOnThisRank markers x y z = Some data ->
  match data with
  | MarkerData_at i j k px py pz id =>
      isOnThisRank x y z = Some (i, j, k)
      /\ exists (n : nat) (m : Marker),
           id = Z.of_nat n
           /\ markers !! n = Some m
           /\ primary_support m = Some (i, j, k)
           /\ position m !! 0%nat = Some px /\ position m !! 1%nat = Some py
           /\ position m !! 2%nat = Some pz
           /\ forall n' m', (n' < n)%nat -> markers !! n' = Some m' ->
                primary_support m' <> Some (i, j, k)
  | MarkerData_invalid =>
      isOnThisRank x y z = None
      \/ exists vox, isOnThisRank x y z = Some vox
                     /\ forall m, m ∈ markers -> primary_support m <> Some vox
  end.
Proof.
  unfold getMarkerData. destruct (isOnThisRank x y z) as [vox|] eqn:Er.
  - intros E. destruct data as [i j k px py pz id|].
    + destruct (find_marker_found vox markers 0 i j k px py pz id E)
        as (<- & n & m & Eid & H).
      split; [reflexivity|]. exists n, m. split; [lia|exact H].
    + right. exists vox. split; [reflexivity|].
      now apply (find_marker_invalid vox markers 0).
  - intros E. simplify_eq. now left.
Qed.

(** X28. [getMarkerData] returns the first marker of the body whose
    primary support is the voxel of the position: when it returns marker
    data with the custom constructor, the position is on this rank, the
    indices are those of its voxel, [ID] is the index of a marker with
    that primary support, the coordinates are the position of that
    marker, and no marker before it has that primary support; when it
    returns the invalid marker data ([ID = -1]), the position is off this
    rank or no marker of the body has the voxel as primary support. *)
Theorem getMarkerData_first_match
  (isOnThisRank : Qc -> Qc -> Qc -> option (Z * Z * Z)) (markers : list Marker)
  (x y z : Qc) (data : MarkerData) :
  getMarkerData isOnThisRank markers x y z = Some data ->
  match data with
  | MarkerData_at i j k px py pz id =>
      isOnThisRank x y z = Some (i, j, k)
      /\ exists (n : nat) (m : Marker),
           id = Z.of_nat n
           /\ markers !! n = Some m
           /\ primary_support m = Some (i, j, k)
           /\ position m !! 0%nat = Some px /\ position m !! 1%nat = Some py
           /\ position m !! 2%nat = Some pz
           /\ forall n' m', (n' < n)%nat -> markers !! n' = Some m' ->
                primary_support m' <> Some (i, j, k)
  | MarkerData_invalid =>
      isOnThisRank x y z = None
      \/ exists vox, isOnThisRank x y z = Some vox
                     /\ forall m, m ∈ markers -> primary_support m <> Some vox
  end.
Proof. apply getMarkerData_aux. Qed.

Lemma getMarkerData_first_match_witness :
  unit_rank (Q2Qc (5 # 4)) 0%Qc 0%Qc = Some (1, 0, 0)
  /\ exists (n : nat) (m : Marker),
       1 = Z.of_nat n
       /\ two_markers !! n = Some m
       /\ primary_support m = Some (1, 0, 0)
       /\ position m !! 0%nat = Some (Q2Qc (5 # 4)) /\ position m !! 1%nat = Some 0%Qc
       /\ position m !! 2%nat = Some 0%Qc
       /\ forall n' m', (n' < n)%nat -> two_markers !! n' = Some m' ->
            primary_support m' <> Some (1, 0, 0).
Proof.
  apply (getMarkerData_first_match unit_rank two_markers (Q2Qc (5 # 4)) 0%Qc 0%Qc
           (MarkerData_at 1 0 0 (Q2Qc (5 # 4)) 0%Qc 0%Qc 1)).
  reflexivity.
Defined.

(** X29. [isVoxelMarkerVoxel] answers whether the voxel of the position
    holds a marker: it is true exactly when the position is on this rank
    and some marker of the body has the voxel of the position as its
    primary support. *)
Theorem isVoxelMarkerVoxel_iff
  (isOnThisRank : Qc -> Qc -> Qc -> option (Z * Z * Z)) (markers : list Marker)
  (x y z : Qc) (b : bool) :
  isVoxelMarkerVoxel isOnThisRank markers x y z = Some b ->
  (b = true
   <-> exists vox m, isOnThisRank x y z = Some vox
                      /\ m ∈ markers /\ primary_support m = Some vox).
Proof.
  unfold isVoxelMarkerVoxel.
  destruct (getMarkerData isOnThisRank markers x y z) as [data|] eqn:E; [|discriminate].
  cbn. intros Eb. simplify_eq.
  pose proof (getMarkerData_aux isOnThisRank markers x y z data E) as H.
  destruct data as [i j k px py pz id|]; cbn [ID].
  - destruct H as (Er & n & m & Eid & Hn & Hp & _).
    replace (id =? -1) with false by (symmetry; apply Z.eqb_neq; lia).
    split; [intros _|reflexivity].
    exists (i, j, k), m. split; [exact Er|]. split; [|exact Hp].
    now apply list_elem_of_lookup_2 in Hn.
  - cbn. split; [discriminate|].
    intros (vox & m & Er & Hm & Hp). exfalso.
    destruct H as [H|(vox' & Er' & H)]; [congruence|].
    rewrite Er in Er'. simplify_eq. now apply (H m).
Qed.

Lemma isVoxelMarkerVoxel_iff_witness :
  true = true
  <-> exists vox m, unit_rank (Q2Qc (1 # 4)) 0%Qc 0%Qc = Some vox
                     /\ m ∈ two_markers /\ primary_support m = Some vox.
Proof.
  apply (isVoxelMarkerVoxel_iff unit_rank two_markers (Q2Qc (1 # 4)) 0%Qc 0%Qc true).
  reflexivity.
Defined.
